(** * The modular email-composition engine

    A shallow embedding of [src/email-composer/email-composer.ts]
    (class [EmailComposer]), [variable-substitution.ts] (class
    [VariableSubstitution]) and [block-selector.ts] (class [BlockSelector]),
    with the properties of the specification stated over it.

    Conventions of the embedding:
    - a JavaScript string is a [string], read as the bytes of its UTF-8
      form: the pattern of the engine inspects ASCII characters only, and no
      byte of a longer character is one;
    - a value of type [any] is [undefined], [null], a boolean or a string;
    - a plain JavaScript object used as a dictionary is a [gmap string _] of
      its own properties; an object literal and a spread overwrite earlier
      entries by later ones.  Reading such an object under a computed key
      that it lacks yields what it inherits from [Object.prototype] under
      that name, if anything ([read]), and calling a method of
      [Object.prototype] on it calls its own property of that name, if it
      has one ([hasOwnProperty]);
    - a method that may throw returns a [Result]; a method that mutates
      [this] returns the new object next to its result;
    - an awaited [async] call is run to its end before the caller goes on.
      The calls under [Promise.all] all start, in list order, before any of
      them goes on from an [await] of a file; the reads of the files end in
      an order that the program does not choose, which is a parameter
      [order] of the embedding;
    - [console.warn] and [console.error] write to the console only and are
      left out;
    - the blocks directory is a read-only map [disk] from block identifier
      to the block that [readFile] and [JSON.parse] yield for it;
    - a number is a binary64 value of IEEE 754, a [spec_float] with the
      operations of [SpecFloat] at precision 53. *)

From Stdlib Require Import Ascii String ZArith SpecFloat.
From Equations Require Import Equations.
From stdpp Require Import gmap strings list.

(** ** JavaScript values and errors *)

(** The values a contact field or a substitution variable may hold. *)
Inductive JsValue :=
  | JsUndefined
  | JsNull
  | JsBool (b : bool)
  | JsString (s : string).

#[global] Instance JsValue_eq_dec : EqDecision JsValue.
Proof. solve_decision. Defined.

(** Truthiness, as [if (v)], [!v] and [v || w] test it. *)
Definition truthy (v : JsValue) : bool :=
  match v with
  | JsUndefined | JsNull => false
  | JsBool b => b
  | JsString s => negb (bool_decide (s = ""))
  end.

(** [a || b]. *)
Definition js_or (a b : JsValue) : JsValue := if truthy a then a else b.

(** [String(v)]. *)
Definition to_String (v : JsValue) : string :=
  match v with
  | JsUndefined => "undefined"
  | JsNull => "null"
  | JsBool true => "true"
  | JsBool false => "false"
  | JsString s => s
  end.

(** An optional string property read off an object. *)
Definition of_optional (o : option string) : JsValue :=
  from_option JsString JsUndefined o.

(** [o || d] for an optional string [o] and a string [d]. *)
Definition str_or (o : option string) (d : string) : string :=
  match o with
  | Some s => if bool_decide (s = "") then d else s
  | None => d
  end.

(** The names of the properties of [Object.prototype], which every plain
    object inherits: those of the language, and those of its Annex B, which
    Node.js has too. *)
Definition prototype_names : list string :=
  ["constructor"; "hasOwnProperty"; "isPrototypeOf"; "propertyIsEnumerable";
   "toLocaleString"; "toString"; "valueOf"; "__proto__"; "__defineGetter__";
   "__defineSetter__"; "__lookupGetter__"; "__lookupSetter__"].

(** What [o[k]] yields for a plain object: the value of its own property
    [k]; else the member of [Object.prototype] of that name, a function (or
    the prototype itself, for [__proto__]); else [undefined]. *)
Inductive Property (A : Type) :=
  | Own (a : A)
  | Inherited (name : string)
  | Undefined.
Arguments Own {A} a.
Arguments Inherited {A} name.
Arguments Undefined {A}.

(** [o[k]]. *)
Definition read {A} (o : gmap string A) (k : string) : Property A :=
  match o !! k with
  | Some a => Own a
  | None => if bool_decide (k ∈ prototype_names) then Inherited k else Undefined
  end.

(** [p.f] for a property [f] of the objects of type [A] that no member of
    [Object.prototype] has: [undefined] unless [p] is such an object.  A
    member of [Object.prototype] is a built-in function, with the properties
    [length] and [name] and those of [Function.prototype] and
    [Object.prototype], or [Object.prototype] itself. *)
Definition dot {A B} (f : A → B) (p : Property A) : option B :=
  match p with
  | Own a => Some (f a)
  | Inherited _ | Undefined => None
  end.

(** The two [throw new Error(...)] sites of the engine, and the
    [TypeError] of a call of what is no function. *)
Inductive Error :=
  | UnknownAudience (audienceType : string)
  | MissingVariable (varName : string)
  | NotAFunction (callee : string).

(** [error.message], for the [TypeError] in the words of V8. *)
Definition message (e : Error) : string :=
  match e with
  | UnknownAudience audienceType => "Unknown audience type: " +:+ audienceType
  | MissingVariable varName => "Missing required variable: " +:+ varName
  | NotAFunction callee => callee +:+ " is not a function"
  end.

Inductive Result (A : Type) :=
  | Ok (a : A)
  | Throw (e : Error).
Arguments Ok {A} a.
Arguments Throw {A} e.

Definition bind {A B} (r : Result A) (k : A → Result B) : Result B :=
  match r with
  | Ok a => k a
  | Throw e => Throw e
  end.

Notation "'try!' x := r 'in' k" := (bind r (λ x, k))
  (at level 10, x name, r at level 100, k at level 200).

(** [l.join(sep)]. *)
Fixpoint join (sep : string) (l : list string) : string :=
  match l with
  | [] => ""
  | [x] => x
  | x :: l' => x +:+ sep +:+ join sep l'
  end.

Definition inspect {A} (a : A) : {b | a = b} := exist _ a eq_refl.

(** ** Variable substitution *)

Module VariableSubstitution.

(** [\w] without the unicode flag: [[A-Za-z0-9_]]. *)
Definition is_word_char (c : ascii) : bool :=
  let n := nat_of_ascii c in
  ((65 <=? n) && (n <=? 90)) || ((97 <=? n) && (n <=? 122))
  || ((48 <=? n) && (n <=? 57)) || (n =? 95).

(** The greedy [\w*]: the longest run of word characters at the head of
    [s], and what follows it. *)
Fixpoint span_word (s : string) : string * string :=
  match s with
  | String c s' =>
      if is_word_char c
      then let '(w, r) := span_word s' in (String c w, r)
      else ("", s)
  | EmptyString => ("", "")
  end.

(** A literal of the pattern: [s] without its prefix [p]. *)
Fixpoint strip_prefix (p s : string) : option string :=
  match p with
  | EmptyString => Some s
  | String a p' =>
      match s with
      | String b s' => if decide (a = b) then strip_prefix p' s' else None
      | EmptyString => None
      end
  end.

(** One attempt of [/\{\{(\w+)\}\}/] at the head of [s]: the captured
    name and the text after the match.  The run [\w+] is greedy, and giving
    characters back cannot help, since the character after a shorter run is
    a word character and not a closing brace. *)
Definition match_token (s : string) : option (string * string) :=
  s1 ← strip_prefix "{{" s;
  let '(name, s2) := span_word s1 in
  if bool_decide (name = "") then None
  else rest ← strip_prefix "}}" s2; Some (name, rest).

(** What the global pattern cuts a text into: the matches, left to right
    and not overlapping, and the characters between them. *)
Inductive piece :=
  | Lit (c : ascii)
  | Tok (name : string).

Equations? scan (s : string) : list piece by wf (String.length s) lt :=
  scan s with inspect (match_token s) := {
    | exist _ (Some (name, rest)) Hm => Tok name :: scan rest
    | exist _ None Hm with s := {
       | EmptyString => []
       | String c s' => Lit c :: scan s' } }.
Proof.
  - assert (Hp : ∀ p t r, strip_prefix p t = Some r →
              String.length t = String.length p + String.length r).
    { induction p as [|a p IH]; simpl; intros t r H.
      - by inversion H.
      - destruct t as [|b t]; [done|]. case_decide; [|done].
        apply IH in H. simpl. lia. }
    assert (Hs : ∀ t w r, span_word t = (w, r) →
              String.length r ≤ String.length t).
    { induction t as [|a t IH]; simpl; intros w r H.
      - inversion H; simpl; lia.
      - destruct (is_word_char a).
        + destruct (span_word t) as [w' r'] eqn:E. inversion H; subst.
          specialize (IH _ _ eq_refl). lia.
        + inversion H; subst. simpl. lia. }
    unfold match_token in Hm.
    destruct (strip_prefix "{{" s) as [s1|] eqn:E1;
      cbn [mbind option_bind] in Hm; [|done].
    destruct (span_word s1) as [w r] eqn:E.
    case_bool_decide; [done|].
    destruct (strip_prefix "}}" r) as [r'|] eqn:E2;
      cbn [mbind option_bind] in Hm; [|done].
    simplify_eq. apply Hp in E1, E2. apply Hs in E.
    simpl in E1. lia.
  - simpl. lia.
Qed.

Record SubstitutionOptions := {
  strict : option bool;
  keepPlaceholders : option bool;
  warnOnMissing : option bool;
}.

(** [options = {}]. *)
Definition no_options : SubstitutionOptions :=
  {| strict := None; keepPlaceholders := None; warnOnMissing := None |}.

(** [extractPlaceholders(text)]: the [exec] loop pushes a captured name
    unless [matches] includes it already. *)
Definition extractPlaceholders (text : string) : list string :=
  foldl (λ matches p,
           match p with
           | Tok name =>
               if bool_decide (name ∈ matches) then matches
               else matches ++ [name]
           | Lit _ => matches
           end) [] (scan text).

(** [variables.hasOwnProperty(k)].  The method is looked up on [variables]
    itself first: an own property named [hasOwnProperty] hides the method of
    [Object.prototype], and its value, which is no function, is what gets
    called. *)
Definition hasOwnProperty (variables : gmap string JsValue) (k : string)
    : Result bool :=
  match variables !! "hasOwnProperty" with
  | Some _ => Throw (NotAFunction "variables.hasOwnProperty")
  | None => Ok (bool_decide (is_Some (variables !! k)))
  end.

(** The replacer callback of [substitute], called with the matched text
    and the captured name. *)
Definition replacer (variables : gmap string JsValue)
    (options : SubstitutionOptions) (matched varName : string)
    : Result string :=
  try! own := hasOwnProperty variables varName in
  if own then
    let value := default JsUndefined (variables !! varName) in
    Ok (match value with
        | JsNull | JsUndefined => ""
        | _ => to_String value
        end)
  else
    (* Variable not found *)
    if default false (strict options) then Throw (MissingVariable varName)
    else Ok (if default false (keepPlaceholders options) then matched
             else "").

(** [text.replace(pattern, callback)] over the pieces of [text]: the
    callback runs once per match, in order, and its first exception ends
    the call. *)
Fixpoint replace (callback : string → string → Result string)
    (pieces : list piece) : Result string :=
  match pieces with
  | [] => Ok ""
  | Lit c :: rest =>
      try! out := replace callback rest in Ok (String c out)
  | Tok name :: rest =>
      try! r := callback ("{{" +:+ name +:+ "}}") name in
      try! out := replace callback rest in
      Ok (r +:+ out)
  end.

Definition substitute (text : string) (variables : gmap string JsValue)
    (options : SubstitutionOptions) : Result string :=
  replace (replacer variables options) (scan text).

(** [l.filter(keep)] for a callback that may throw: its first exception
    ends the call. *)
Fixpoint filter_by {A} (keep : A → Result bool) (l : list A)
    : Result (list A) :=
  match l with
  | [] => Ok []
  | x :: rest =>
      try! kept := keep x in
      try! others := filter_by keep rest in
      Ok (if kept then x :: others else others)
  end.

(** [validate(text, variables)], as the pair [(valid, missing)]. *)
Definition validate (text : string) (variables : gmap string JsValue)
    : Result (bool * list string) :=
  let placeholders := extractPlaceholders text in
  try! missing :=
    filter_by (λ p, try! own := hasOwnProperty variables p in Ok (negb own))
      placeholders in
  Ok (bool_decide (length missing = 0), missing).

(** [substituteBatch(texts, variables, options)]: [texts.map], which the
    first exception of a [substitute] ends. *)
Fixpoint substituteBatch (texts : list string)
    (variables : gmap string JsValue) (options : SubstitutionOptions)
    : Result (list string) :=
  match texts with
  | [] => Ok []
  | text :: rest =>
      try! out := substitute text variables options in
      try! outs := substituteBatch rest variables options in
      Ok (out :: outs)
  end.

End VariableSubstitution.


(** ** Blocks and the block selector *)

Inductive BlockCategory :=
  | Greeting
  | Opener
  | Intention
  | EventInfo
  | ValueProposition
  | Cta
  | Closing.

(** The string a category is in the source. *)
Definition category_name (c : BlockCategory) : string :=
  match c with
  | Greeting => "greeting"
  | Opener => "opener"
  | Intention => "intention"
  | EventInfo => "event-info"
  | ValueProposition => "value-proposition"
  | Cta => "cta"
  | Closing => "closing"
  end.

Inductive EmailTone :=
  | Formal
  | Casual
  | Personal.

Definition tone_name (t : EmailTone) : string :=
  match t with
  | Formal => "formal"
  | Casual => "casual"
  | Personal => "personal"
  end.

Record BlockVariant := {
  variant_id : string;
  variant_text : string;
  variant_placeholders : option (list string);
  variant_use_case : option string;
}.

Record EmailBlock := {
  block_id : string;
  block_category : BlockCategory;
  block_tags : list string;
  block_tone : option EmailTone;
  block_variants : list BlockVariant;
}.

Module BlockSelector.

(** The two indexes of a selector: [blocks] by identifier and
    [blocksByCategory] by the category's string. *)
Record t := {
  blocks : gmap string EmailBlock;
  blocksByCategory : gmap string (list EmailBlock);
}.

(** [new BlockSelector(blocksDir)]. *)
Definition new : t := {| blocks := ∅; blocksByCategory := ∅ |}.

(** [getBlocksByCategory(category)]. *)
Definition getBlocksByCategory (self : t) (category : BlockCategory)
    : list EmailBlock :=
  default [] (blocksByCategory self !! category_name category).

(** [loadBlock(blockId)]: the cache first, then the file; a block read
    from its file is cached and pushed on the list of its own category. *)
Definition loadBlock (disk : gmap string EmailBlock) (blockId : string)
    (self : t) : option EmailBlock * t :=
  match blocks self !! blockId with
  | Some block => (Some block, self)
  | None =>
      match disk !! blockId with
      | Some block =>
          let categoryBlocks := getBlocksByCategory self (block_category block) in
          (Some block,
           {| blocks := <[blockId := block]> (blocks self);
              blocksByCategory :=
                <[category_name (block_category block) := categoryBlocks ++ [block]]>
                  (blocksByCategory self) |})
      | None => (None, self)
      end
  end.

(** [loadBlock(blockId)] from its [await fs.readFile(...)] on, which is
    where a call that missed the cache goes on once the read of its file
    ends: the block of the file is cached, whatever the cache holds by then,
    and pushed on the list of its own category. *)
Definition loadBlock_resumed (disk : gmap string EmailBlock) (blockId : string)
    (self : t) : option EmailBlock * t :=
  match disk !! blockId with
  | Some block =>
      let categoryBlocks := getBlocksByCategory self (block_category block) in
      (Some block,
       {| blocks := <[blockId := block]> (blocks self);
          blocksByCategory :=
            <[category_name (block_category block) := categoryBlocks ++ [block]]>
              (blocksByCategory self) |})
  | None => (None, self)
  end.

(** [found || fallback] on blocks: a block is an object, hence truthy. *)
Definition or_else {A} (found fallback : option A) : option A :=
  match found with
  | Some a => Some a
  | None => fallback
  end.

(** [selectBlock(category, selector, variantId?)]. *)
Definition selectBlock (disk : gmap string EmailBlock)
    (category : BlockCategory) (selector : string) (variantId : option string)
    (self : t) : option (EmailBlock * BlockVariant) * t :=
  (* Try 1: direct load by filename/id *)
  let '(block, self) :=
    loadBlock disk (category_name category +:+ "/" +:+ selector) self in
  (* Try 2: search by tag *)
  let block :=
    or_else block
      (find (λ b, bool_decide (selector ∈ block_tags b))
         (getBlocksByCategory self category)) in
  (* Try 3: match by tone *)
  let block :=
    or_else block
      (find (λ b, bool_decide (tone_name <$> block_tone b = Some selector))
         (getBlocksByCategory self category)) in
  match block with
  | None => (None, self)
  | Some block =>
      (* [if (variantId)]: an empty identifier counts as none *)
      let variant :=
        match variantId with
        | Some vid =>
            if bool_decide (vid = "") then None
            else find (λ v, bool_decide (variant_id v = vid))
                   (block_variants block)
        | None => None
        end in
      let variant := or_else variant (head (block_variants block)) in
      (match variant with
       | Some variant => Some (block, variant)
       | None => None
       end, self)
  end.

(** [selectBlock] from its [await this.loadBlock(...)] on, with the block
    that [loadBlock] returned, and for a selector of any value: a caller that
    reads the selector off an object may pass [undefined].  No tag is
    anything but a string, and the tone of a block without a tone is
    [undefined]. *)
Definition selectBlock_resumed (category : BlockCategory) (selector : JsValue)
    (variantId : option string) (block : option EmailBlock) (self : t)
    : option (EmailBlock * BlockVariant) :=
  (* Try 2: search by tag *)
  let block :=
    or_else block
      (find (λ b, bool_decide (selector ∈ JsString <$> block_tags b))
         (getBlocksByCategory self category)) in
  (* Try 3: match by tone *)
  let block :=
    or_else block
      (find (λ b, bool_decide (of_optional (tone_name <$> block_tone b) = selector))
         (getBlocksByCategory self category)) in
  match block with
  | None => None
  | Some block =>
      let variant :=
        match variantId with
        | Some vid =>
            if bool_decide (vid = "") then None
            else find (λ v, bool_decide (variant_id v = vid))
                   (block_variants block)
        | None => None
        end in
      let variant := or_else variant (head (block_variants block)) in
      match variant with
      | Some variant => Some (block, variant)
      | None => None
      end
  end.

(** [selectBlock(category, selector, variantId?)] for a selector of any
    value; in the template literal of the identifier the selector stands as
    [String(selector)]. *)
Definition selectBlock_any (disk : gmap string EmailBlock)
    (category : BlockCategory) (selector : JsValue) (variantId : option string)
    (self : t) : option (EmailBlock * BlockVariant) * t :=
  let '(block, self) :=
    loadBlock disk (category_name category +:+ "/" +:+ to_String selector) self in
  (selectBlock_resumed category selector variantId block self, self).

(** The element that [a[Math.floor(x)]] reads: the one at the integer part
    of [x], and none when [x] is negative, infinite or not a number. *)
Definition floor_index (x : spec_float) : option nat :=
  match x with
  | S754_zero _ => Some 0
  | S754_finite false m e => Some (Z.to_nat (Z.shiftl (Zpos m) e))
  | _ => None
  end.

(** [getRandomVariant(block)], with the draw [r] of [Math.random()]; the
    length of the list is a number too, and the product is rounded to the
    nearest number. *)
Definition getRandomVariant (r : spec_float) (block : EmailBlock)
    : option BlockVariant :=
  if bool_decide (length (block_variants block) = 0) then None
  else
    let count :=
      binary_normalize 53 1024 (Z.of_nat (length (block_variants block))) 0
        false in
    let randomIndex := floor_index (SFmul 53 1024 r count) in
    i ← randomIndex; block_variants block !! i.

(** [f.endsWith(suffix)]. *)
Definition endsWith (f suffix : string) : bool :=
  bool_decide
    (String.length suffix ≤ String.length f ∧
     substring (String.length f - String.length suffix)
       (String.length suffix) f = suffix).

(** The body of the inner loop of [loadAllBlocks] once a file is parsed:
    the block is put under its own identifier and pushed on the list of the
    category of the directory. *)
Definition store (category : BlockCategory) (block : EmailBlock) (self : t)
    : t :=
  {| blocks := <[block_id block := block]> (blocks self);
     blocksByCategory :=
       <[category_name category :=
           getBlocksByCategory self category ++ [block]]>
         (blocksByCategory self) |}.

(** The inner loop of [loadAllBlocks] over the JSON files of a directory,
    each with what [readFile] and [JSON.parse] yield for it; [None] is an
    exception, which leaves the loop for the [catch] of the category. *)
Fixpoint loadFiles (category : BlockCategory)
    (jsonFiles : list (string * option EmailBlock)) (self : t) : t :=
  match jsonFiles with
  | [] => self
  | (_, Some block) :: rest => loadFiles category rest (store category block self)
  | (_, None) :: _ => self
  end.

Definition categories : list BlockCategory :=
  [Greeting; Opener; Intention; EventInfo; ValueProposition; Cta; Closing].

(** [loadAllBlocks()], over the directories [dirs]: for the name of a
    category, the entries that [readdir] lists, or nothing when [readdir]
    throws. *)
Definition loadAllBlocks
    (dirs : gmap string (list (string * option EmailBlock))) (self : t) : t :=
  foldl (λ self category,
           match dirs !! category_name category with
           | Some files =>
               let jsonFiles := filter (λ f, endsWith f.1 ".json") files in
               loadFiles category jsonFiles self
           | None => self
           end) self categories.

Record BlockMetadata := {
  metadata_id : string;
  metadata_category : BlockCategory;
  metadata_tags : list string;
  metadata_tone : option EmailTone;
}.

(** [getBlockMetadata(blockId)]. *)
Definition getBlockMetadata (disk : gmap string EmailBlock) (blockId : string)
    (self : t) : option BlockMetadata * t :=
  let '(block, self) := loadBlock disk blockId self in
  (match block with
   | None => None
   | Some block =>
       Some {| metadata_id := block_id block;
               metadata_category := block_category block;
               metadata_tags := block_tags block;
               metadata_tone := block_tone block |}
   end, self).

End BlockSelector.


(** ** The data of the composer *)

(** An object literal: a later entry overwrites an earlier one with the
    same key. *)
Definition object {A} (entries : list (string * A)) : gmap string A :=
  foldl (λ o kv, <[kv.1 := kv.2]> o) ∅ entries.

(** [{...base, ...extra}]: the entries spread later win. *)
Definition spread {A} (base extra : gmap string A) : gmap string A :=
  extra ∪ base.

Module ContactData.

(** The two required fields, and every other own property of the record:
    the optional named fields and the custom ones. *)
Record t := {
  audience_type : string;
  email : string;
  fields : gmap string JsValue;
}.

(** The contact as the object it is. *)
Definition properties (contact : t) : gmap string JsValue :=
  <["audience_type" := JsString (audience_type contact)]>
    (<["email" := JsString (email contact)]> (fields contact)).

(** [contact[k]], also written [contact.k]. *)
Definition get (contact : t) (k : string) : JsValue :=
  default JsUndefined (properties contact !! k).

End ContactData.

Module BlockOverrides.

Record t := {
  greeting : option string;
  opener : option string;
  intention : option string;
  eventInfo : option string;
  valueProps : option (list string);
  cta : option string;
  closing : option string;
}.

End BlockOverrides.

Module EmailCompositionOptions.

Record t := {
  tone : option EmailTone;
  customVariables : option (gmap string string);
  blockOverrides : option BlockOverrides.t;
  variantPreferences : option (gmap string string);
  strict : option bool;
  keepPlaceholders : option bool;
}.

(** [options = {}]. *)
Definition empty : t :=
  {| tone := None; customVariables := None; blockOverrides := None;
     variantPreferences := None; strict := None; keepPlaceholders := None |}.

(** The options with another [variantPreferences]. *)
Definition with_variantPreferences (preferences : option (gmap string string))
    (options : t) : t :=
  {| tone := tone options; customVariables := customVariables options;
     blockOverrides := blockOverrides options;
     variantPreferences := preferences;
     strict := strict options; keepPlaceholders := keepPlaceholders options |}.

(** The options object read as [SubstitutionOptions]: it has no
    [warnOnMissing]. *)
Definition substitution (options : t) : VariableSubstitution.SubstitutionOptions :=
  {| VariableSubstitution.strict := strict options;
     VariableSubstitution.keepPlaceholders := keepPlaceholders options;
     VariableSubstitution.warnOnMissing := None |}.

End EmailCompositionOptions.

Module AudienceConfig.

Record t := {
  name : string;
  tone : EmailTone;
  intention : string;
  valueProps : list string;
  cta : string;
  eventInfo : string;
  tags : list string;
  subjectTemplate : option string;
}.

End AudienceConfig.

Module Event.

(** The properties of [eventDetails.event] that the composer reads. *)
Record t := {
  name : option string;
  date : option string;
  time : option string;
  location : option string;
  website : option string;
  ticket_url : option string;
  contest_url : option string;
  press_kit_url : option string;
}.

(** [{} as any]. *)
Definition empty : t :=
  {| name := None; date := None; time := None; location := None;
     website := None; ticket_url := None; contest_url := None;
     press_kit_url := None |}.

End Event.

Module BlocksUsed.

Record t := {
  greeting : option string;
  opener : option string;
  intention : option string;
  eventInfo : option string;
  valueProps : option (list string);
  cta : option string;
  closing : option string;
}.

Definition empty : t :=
  {| greeting := None; opener := None; intention := None; eventInfo := None;
     valueProps := None; cta := None; closing := None |}.

End BlocksUsed.

Module ComposedEmail.

(** The tone is [undefined] when neither the options nor the audience
    configuration give one. *)
Record metadata_t := {
  audience_type : string;
  tone : option EmailTone;
  blocks_used : BlocksUsed.t;
  variables_used : list string;
}.

(** What [generateSubject] returns: a text, or the member of
    [Object.prototype] that the table of default subjects yields for an
    audience type of its name. *)
Inductive subject_t :=
  | Text (s : string)
  | Member (name : string).

Record t := {
  subject : subject_t;
  body : string;
  metadata : metadata_t;
}.

End ComposedEmail.

Module BatchEmailResult.

Record t := {
  contact : ContactData.t;
  email : ComposedEmail.t;
  error : option Error;
}.

End BatchEmailResult.

(** What [selectBlock] resolved for the categories of one email. *)
Module Selected.

Record t := {
  greeting : option (EmailBlock * BlockVariant);
  opener : option (EmailBlock * BlockVariant);
  intention : option (EmailBlock * BlockVariant);
  eventInfo : option (EmailBlock * BlockVariant);
  valueProps : list (option (EmailBlock * BlockVariant));
  cta : option (EmailBlock * BlockVariant);
  closing : option (EmailBlock * BlockVariant);
}.

End Selected.


(** ** The composer *)

Module EmailComposer.

Record t := {
  blockSelector : BlockSelector.t;
  audienceConfigs : gmap string AudienceConfig.t;
  eventDetails : option Event.t;
}.

(** [this] after its block selector changed. *)
Definition with_blockSelector (selector : BlockSelector.t) (self : t) : t :=
  {| blockSelector := selector; audienceConfigs := audienceConfigs self;
     eventDetails := eventDetails self |}.

(** [this.eventDetails.event?.p || ''] as a value. *)
Definition eventField (self : t) (p : Event.t → option string) : JsValue :=
  js_or (of_optional (eventDetails self ≫= p)) (JsString "").

(** The keys that the pass-through of contact fields leaves out. *)
Definition consumed : list string :=
  ["audience_type"; "email"; "first_name"; "last_name"].

(** The last spread of [prepareVariables]: every own key of the contact
    outside [consumed], with the contact's value. *)
Definition additionalFields (contact : ContactData.t) : gmap string JsValue :=
  filter (λ kv, kv.1 ∉ consumed) (ContactData.properties contact).

(** The entries of [prepareVariables] written out by name. *)
Definition namedVariables (self : t) (contact : ContactData.t)
    : gmap string JsValue :=
  let field := ContactData.get contact in
  let blank := JsString "" in
  object [
    (* Contact fields *)
    ("first_name", js_or (field "first_name") blank);
    ("last_name", js_or (field "last_name") blank);
    ("title", js_or (field "title") blank);
    ("email", field "email");
    ("organization_name", js_or (field "organization_name") blank);
    ("company_name",
      js_or (js_or (field "company_name") (field "organization_name")) blank);
    ("sector", js_or (field "sector") (JsString "biotech"));
    (* Sender fields *)
    ("sender_name", js_or (field "sender_name") blank);
    ("sender_title", js_or (field "sender_title") blank);
    ("sender_email", js_or (field "sender_email") blank);
    ("sender_organization", js_or (field "sender_organization") blank);
    (* Event fields *)
    ("event_name", eventField self Event.name);
    ("event_date",
      js_or (js_or (field "event_date")
               (of_optional (eventDetails self ≫= Event.date))) blank);
    ("event_time", eventField self Event.time);
    ("event_location", eventField self Event.location);
    ("event_website", eventField self Event.website);
    ("ticket_url", eventField self Event.ticket_url);
    ("contest_url", eventField self Event.contest_url);
    ("press_kit_url", eventField self Event.press_kit_url);
    (* Optional contact fields *)
    ("contact_email", js_or (field "contact_email") (field "email"))
  ].

(** [prepareVariables(contact, options)]: the named entries, then the
    spread of [options.customVariables || {}], then the spread of the
    additional contact fields. *)
Definition prepareVariables (self : t) (contact : ContactData.t)
    (options : EmailCompositionOptions.t) : gmap string JsValue :=
  spread
    (spread (namedVariables self contact)
       (JsString <$> default ∅ (EmailCompositionOptions.customVariables options)))
    (additionalFields contact).

(** The default subject templates by audience type. *)
Definition subjectTemplates (eventName : string) : gmap string string :=
  object [
    ("nonprofits", "Partnership Opportunity: " +:+ eventName);
    ("vcs", "Invitation: " +:+ eventName +:+ " - Biotech Startup Showcase");
    ("startups-pitch", "Pitch Your Startup at " +:+ eventName);
    ("startups-share", "Help Us Spread the Word: " +:+ eventName);
    ("gradschools", "Student Opportunity: " +:+ eventName);
    ("mentors", "Invitation to Judge: " +:+ eventName +:+ " Pitch Contest");
    ("startup-factories", "Connect with Biotech Ecosystem: " +:+ eventName);
    ("vips", "Personal Invitation: " +:+ eventName);
    ("journalists", "Press Invitation: " +:+ eventName)
  ].

(** [generateSubject(audienceType, contact)]: it has no [options], so it
    builds its variables with the default [{}] and substitutes with the
    default substitution options. *)
Definition generateSubject (self : t) (audienceType : string)
    (contact : ContactData.t) : Result ComposedEmail.subject_t :=
  let config := read (audienceConfigs self) audienceType in
  let eventName := str_or (eventDetails self ≫= Event.name) "Event" in
  let subjectTemplate :=
    str_or (dot AudienceConfig.subjectTemplate config ≫= id) "" in
  if bool_decide (subjectTemplate ≠ "") then
    let variables := prepareVariables self contact EmailCompositionOptions.empty in
    try! subject :=
      VariableSubstitution.substitute subjectTemplate variables
        VariableSubstitution.no_options in
    Ok (ComposedEmail.Text subject)
  else
    (* [subjectTemplates[audienceType] || `Invitation: ${eventName}`] *)
    Ok (match read (subjectTemplates eventName) audienceType with
        | Own template =>
            ComposedEmail.Text
              (str_or (Some template) ("Invitation: " +:+ eventName))
        | Inherited name => ComposedEmail.Member name
        | Undefined => ComposedEmail.Text ("Invitation: " +:+ eventName)
        end).

(** A call of [selectBlock] under [Promise.all], once its synchronous part
    has run: resolved, when [loadBlock] found the block in the cache, or
    waiting for the read of its file. *)
Inductive call :=
  | Resolved (result : option (EmailBlock * BlockVariant))
  | Reading (selector : string).

(** The synchronous part of [selectBlock(category, selector)]: the check of
    the cache in [loadBlock].  A call that hits the cache goes on before any
    read of a file ends. *)
Definition start (category : BlockCategory) (selector : BlockSelector.t)
    (s : string) : call :=
  match BlockSelector.blocks selector !! (category_name category +:+ "/" +:+ s) with
  | Some block =>
      Resolved
        (BlockSelector.selectBlock_resumed category (JsString s) None
           (Some block) selector)
  | None => Reading s
  end.

(** The read of the file of a waiting call ends: [loadBlock] goes on from
    its [await], then [selectBlock] from its own. *)
Definition resume (disk : gmap string EmailBlock) (category : BlockCategory)
    (s : string) (selector : BlockSelector.t)
    : option (EmailBlock * BlockVariant) * BlockSelector.t :=
  let '(block, selector) :=
    BlockSelector.loadBlock_resumed disk
      (category_name category +:+ "/" +:+ s) selector in
  (BlockSelector.selectBlock_resumed category (JsString s) None block selector,
   selector).

(** The read of the file of the call of index [i] ends, if that call is
    waiting for one. *)
Definition settle (disk : gmap string EmailBlock) (category : BlockCategory)
    (state : list call * BlockSelector.t) (i : nat)
    : list call * BlockSelector.t :=
  let '(calls, selector) := state in
  match calls !! i with
  | Some (Reading s) =>
      let '(result, selector) := resume disk category s selector in
      (<[i := Resolved result]> calls, selector)
  | _ => state
  end.

(** The reads of the calls that are still waiting end, in list order; the
    results of all the calls, in list order. *)
Fixpoint settleAll (disk : gmap string EmailBlock) (category : BlockCategory)
    (calls : list call) (selector : BlockSelector.t)
    : list (option (EmailBlock * BlockVariant)) * BlockSelector.t :=
  match calls with
  | [] => ([], selector)
  | Resolved result :: rest =>
      let '(results, selector) := settleAll disk category rest selector in
      (result :: results, selector)
  | Reading s :: rest =>
      let '(result, selector) := resume disk category s selector in
      let '(results, selector) := settleAll disk category rest selector in
      (result :: results, selector)
  end.

(** [Promise.all(selectors.map(selector => selectBlock(category, selector)))]:
    every call starts, in list order; then the reads of the files end, first
    those that [order] lists by the index of their call, then the others;
    the results are those of the calls in list order. *)
Definition selectEach (disk : gmap string EmailBlock) (order : list nat)
    (category : BlockCategory) (selectors : list string)
    (selector : BlockSelector.t)
    : list (option (EmailBlock * BlockVariant)) * BlockSelector.t :=
  let calls := start category selector <$> selectors in
  let '(calls, selector) := foldl (settle disk category) (calls, selector) order in
  settleAll disk category calls selector.

(** The "Select blocks" part of [composeEmail], for what
    [this.audienceConfigs[audienceType]] yielded: every call of
    [selectBlock] passes a category and a selector, and no [variantId]. *)
Definition selectBlocks (disk : gmap string EmailBlock) (order : list nat)
    (audienceConfig : Property AudienceConfig.t) (tone : option EmailTone)
    (options : EmailCompositionOptions.t) (selector : BlockSelector.t)
    : Selected.t * BlockSelector.t :=
  let overrides := EmailCompositionOptions.blockOverrides options in
  let override p := of_optional (overrides ≫= p) in
  let config p := of_optional (dot p audienceConfig) in
  let tone := of_optional (tone_name <$> tone) in
  let '(greeting, selector) :=
    BlockSelector.selectBlock_any disk Greeting
      (js_or (override BlockOverrides.greeting) tone)
      None selector in
  let '(opener, selector) :=
    BlockSelector.selectBlock_any disk Opener
      (js_or (override BlockOverrides.opener) (config AudienceConfig.intention))
      None selector in
  let '(intention, selector) :=
    BlockSelector.selectBlock_any disk Intention
      (js_or (override BlockOverrides.intention) (config AudienceConfig.intention))
      None selector in
  let '(eventInfo, selector) :=
    BlockSelector.selectBlock_any disk EventInfo
      (js_or (js_or (override BlockOverrides.eventInfo)
                (config AudienceConfig.eventInfo))
         (JsString "brief"))
      None selector in
  (* Value propositions (can be multiple) *)
  let valuePropsSelectors :=
    default (default [] (dot AudienceConfig.valueProps audienceConfig))
      (overrides ≫= BlockOverrides.valueProps) in
  let '(valueProps, selector) :=
    selectEach disk order ValueProposition valuePropsSelectors selector in
  let '(cta, selector) :=
    BlockSelector.selectBlock_any disk Cta
      (js_or (override BlockOverrides.cta) (config AudienceConfig.cta))
      None selector in
  let '(closing, selector) :=
    BlockSelector.selectBlock_any disk Closing
      (js_or (override BlockOverrides.closing) tone)
      None selector in
  ({| Selected.greeting := greeting; Selected.opener := opener;
      Selected.intention := intention; Selected.eventInfo := eventInfo;
      Selected.valueProps := valueProps; Selected.cta := cta;
      Selected.closing := closing |}, selector).

(** [if (x?.variant) { blocks.push(substitute(x.variant.text, ...)) }]. *)
Definition push (variables : gmap string JsValue)
    (options : EmailCompositionOptions.t)
    (selected : option (EmailBlock * BlockVariant)) (blocks : list string)
    : Result (list string) :=
  match selected with
  | Some (_, variant) =>
      try! text := VariableSubstitution.substitute (variant_text variant)
                     variables (EmailCompositionOptions.substitution options) in
      Ok (blocks ++ [text])
  | None => Ok blocks
  end.

(** [for (const vp of valueProps) { if (vp?.variant) { ... } }]. *)
Fixpoint pushEach (variables : gmap string JsValue)
    (options : EmailCompositionOptions.t)
    (valueProps : list (option (EmailBlock * BlockVariant)))
    (blocks : list string) : Result (list string) :=
  match valueProps with
  | [] => Ok blocks
  | vp :: rest =>
      try! blocks := push variables options vp blocks in
      pushEach variables options rest blocks
  end.

(** The "Assemble email blocks" part of [composeEmail]: the substituted
    texts in their fixed order. *)
Definition assemble (variables : gmap string JsValue)
    (options : EmailCompositionOptions.t) (selected : Selected.t)
    : Result (list string) :=
  try! blocks := push variables options (Selected.greeting selected) [] in
  try! blocks := push variables options (Selected.opener selected) blocks in
  try! blocks := push variables options (Selected.intention selected) blocks in
  try! blocks := push variables options (Selected.eventInfo selected) blocks in
  try! blocks := pushEach variables options (Selected.valueProps selected) blocks in
  try! blocks := push variables options (Selected.cta selected) blocks in
  push variables options (Selected.closing selected) blocks.

(** [blocksUsed] is local to [composeEmail] and is returned only when no
    substitution threw, so it is given as a function of the selection:
    the identifier of each resolved block, and [valueProps] only when a
    value proposition resolved. *)
Definition blocksUsed (selected : Selected.t) : BlocksUsed.t :=
  let used (x : option (EmailBlock * BlockVariant)) :=
    (λ bv, block_id bv.1) <$> x in
  let valuePropsUsed := omap used (Selected.valueProps selected) in
  {| BlocksUsed.greeting := used (Selected.greeting selected);
     BlocksUsed.opener := used (Selected.opener selected);
     BlocksUsed.intention := used (Selected.intention selected);
     BlocksUsed.eventInfo := used (Selected.eventInfo selected);
     BlocksUsed.valueProps :=
       if bool_decide (0 < length valuePropsUsed) then Some valuePropsUsed
       else None;
     BlocksUsed.cta := used (Selected.cta selected);
     BlocksUsed.closing := used (Selected.closing selected) |}.

(** [composeEmail(contact, options)], with the order in which the reads
    of the files of its [Promise.all] end.  A member of [Object.prototype]
    that [this.audienceConfigs[audienceType]] yields is an object, so the
    guard lets it through. *)
Definition composeEmail (disk : gmap string EmailBlock) (order : list nat)
    (contact : ContactData.t) (options : EmailCompositionOptions.t)
    (self : t) : Result ComposedEmail.t * t :=
  let audienceType := ContactData.audience_type contact in
  let audienceConfig := read (audienceConfigs self) audienceType in
  match audienceConfig with
  | Undefined => (Throw (UnknownAudience audienceType), self)
  | Own _ | Inherited _ =>
      let tone :=
        BlockSelector.or_else (EmailCompositionOptions.tone options)
          (dot AudienceConfig.tone audienceConfig) in
      let variables := prepareVariables self contact options in
      (* Select blocks *)
      let '(selected, selector) :=
        selectBlocks disk order audienceConfig tone options (blockSelector self) in
      let self := with_blockSelector selector self in
      (* Assemble email blocks *)
      (try! blocks := assemble variables options selected in
       (* Generate subject *)
       try! subject := generateSubject self audienceType contact in
       (* Assemble final email *)
       let body := join (String "010" (String "010" "")) blocks in
       Ok {| ComposedEmail.subject := subject;
             ComposedEmail.body := body;
             ComposedEmail.metadata :=
               {| ComposedEmail.audience_type := audienceType;
                  ComposedEmail.tone := tone;
                  ComposedEmail.blocks_used := blocksUsed selected;
                  ComposedEmail.variables_used :=
                    VariableSubstitution.extractPlaceholders body |} |},
       self)
  end.

(** The entry that [composeBatch] records for a contact whose composition
    threw. *)
Definition failed (contact : ContactData.t) (error : Error)
    : BatchEmailResult.t :=
  {| BatchEmailResult.contact := contact;
     BatchEmailResult.email :=
       {| ComposedEmail.subject := ComposedEmail.Text "";
          ComposedEmail.body := "";
          ComposedEmail.metadata :=
            {| ComposedEmail.audience_type := ContactData.audience_type contact;
               ComposedEmail.tone := Some Casual;
               ComposedEmail.blocks_used := BlocksUsed.empty;
               ComposedEmail.variables_used := [] |} |};
     BatchEmailResult.error := Some error |}.

(** [perContactOptions?.get(contact.email) || globalOptions]. *)
Definition effectiveOptions (globalOptions : EmailCompositionOptions.t)
    (perContactOptions : option (gmap string EmailCompositionOptions.t))
    (contact : ContactData.t) : EmailCompositionOptions.t :=
  default globalOptions
    (perContactOptions ≫= (λ m, m !! ContactData.email contact)).

(** One turn of the loop of [composeBatch], for a contact and the order in
    which the reads of its composition end: the [try] and its [catch] both
    push one entry on [results]. *)
Definition composeOne (disk : gmap string EmailBlock)
    (globalOptions : EmailCompositionOptions.t)
    (perContactOptions : option (gmap string EmailCompositionOptions.t))
    (state : list BatchEmailResult.t * t) (turn : list nat * ContactData.t)
    : list BatchEmailResult.t * t :=
  let '(results, self) := state in
  let '(order, contact) := turn in
  let options := effectiveOptions globalOptions perContactOptions contact in
  match composeEmail disk order contact options self with
  | (Ok email, self) =>
      (results ++ [{| BatchEmailResult.contact := contact;
                      BatchEmailResult.email := email;
                      BatchEmailResult.error := None |}], self)
  | (Throw error, self) => (results ++ [failed contact error], self)
  end.

(** The contacts of a batch, each with the order in which the reads of
    its composition end: [orders k] for the contact of index [k]. *)
Definition turns (orders : nat → list nat) (contacts : list ContactData.t)
    : list (list nat * ContactData.t) :=
  imap (λ k contact, (orders k, contact)) contacts.

(** [composeBatch(contacts, globalOptions, perContactOptions?)]. *)
Definition composeBatch (disk : gmap string EmailBlock)
    (orders : nat → list nat) (contacts : list ContactData.t)
    (globalOptions : EmailCompositionOptions.t)
    (perContactOptions : option (gmap string EmailCompositionOptions.t))
    (self : t) : list BatchEmailResult.t * t :=
  foldl (composeOne disk globalOptions perContactOptions) ([], self)
    (turns orders contacts).

(** [getDefaultAudienceConfigs()]. *)
Definition getDefaultAudienceConfigs : gmap string AudienceConfig.t :=
  let config name tone intention valueProps cta eventInfo tags :=
    {| AudienceConfig.name := name; AudienceConfig.tone := tone;
       AudienceConfig.intention := intention;
       AudienceConfig.valueProps := valueProps; AudienceConfig.cta := cta;
       AudienceConfig.eventInfo := eventInfo; AudienceConfig.tags := tags;
       AudienceConfig.subjectTemplate := None |} in
  object [
    ("nonprofits",
      config "Nonprofit Organizations" Casual "ask-share"
        ["recognition"; "community"] "share-social" "brief"
        ["partnership"; "community"]);
    ("vcs",
      config "Venture Capitalists & Investors" Formal "invite-attend"
        ["deal-flow"; "networking"] "buy-ticket" "detailed"
        ["investor"; "formal"]);
    ("startups-pitch",
      config "Startups (Pitch Contest)" Casual "invite-participate"
        ["exposure"; "networking"] "apply-contest" "contest"
        ["startup"; "competition"]);
    ("startups-share",
      config "Startups (Share Event)" Casual "ask-share"
        ["recognition"; "community"] "share-social" "brief"
        ["startup"; "community"]);
    ("gradschools",
      config "Graduate Schools & Universities" Formal "forward-request"
        ["community"; "networking"] "forward-internal" "detailed"
        ["academic"; "students"]);
    ("mentors",
      config "Mentors & Judges" Casual "invite-mentor"
        ["recognition"; "networking"; "community"] "respond-interest" "contest"
        ["mentor"; "expert"]);
    ("startup-factories",
      config "Incubators & Accelerators" Formal "invite-attend"
        ["community"; "networking"; "recognition"] "respond-interest" "detailed"
        ["ecosystem"; "partner"]);
    ("vips",
      config "VIPs & Speakers" Personal "invite-attend"
        ["networking"; "recognition"] "respond-interest" "brief"
        ["vip"; "personal"]);
    ("journalists",
      config "Journalists & Media" Casual "invite-attend"
        ["press-access"; "media-story"] "press-rsvp" "brief"
        ["press"; "media"])
  ].

(** [getAudienceConfig(audienceType)]. *)
Definition getAudienceConfig (self : t) (audienceType : string)
    : Property AudienceConfig.t :=
  read (audienceConfigs self) audienceType.

(** [new EmailComposer()] once [initialize()] found neither configuration
    file nor any block: the default audiences and an empty event. *)
Definition initial : t :=
  {| blockSelector := BlockSelector.new;
     audienceConfigs := getDefaultAudienceConfigs;
     eventDetails := Some Event.empty |}.

End EmailComposer.


(** ** Notions of the specification *)

(** The names [\w+] matches: the identifiers of the token grammar. *)
Fixpoint all_word (s : string) : bool :=
  match s with
  | EmptyString => true
  | String c s' => VariableSubstitution.is_word_char c && all_word s'
  end.

Definition is_identifier (name : string) : bool :=
  bool_decide (name ≠ "") && all_word name.

(** Whether an opening brace occurs in [s]. *)
Fixpoint has_open_brace (s : string) : bool :=
  match s with
  | EmptyString => false
  | String c s' => bool_decide (c = "{"%char) || has_open_brace s'
  end.

(** The characters of a text that lie outside its tokens. *)
Fixpoint literals (pieces : list VariableSubstitution.piece) : string :=
  match pieces with
  | [] => ""
  | VariableSubstitution.Lit c :: rest => String c (literals rest)
  | VariableSubstitution.Tok _ :: rest => literals rest
  end.

(** A template whose opening braces all belong to its tokens. *)
Definition braces_in_tokens_only (text : string) : Prop :=
  has_open_brace (literals (VariableSubstitution.scan text)) = false.

(** Variables none of whose values brings an opening brace into a text. *)
Definition brace_free (variables : gmap string JsValue) : Prop :=
  map_Forall (λ _ v, has_open_brace (to_String v) = false) variables.

#[local] Instance braces_in_tokens_only_dec (text : string) :
  Decision (braces_in_tokens_only text).
Proof. unfold braces_in_tokens_only. apply _. Defined.

#[local] Instance brace_free_dec (variables : gmap string JsValue) :
  Decision (brace_free variables).
Proof. unfold brace_free. apply _. Defined.

(** [x] is the first element of [l] that satisfies [P]. *)
Definition first_such {A} (P : A → Prop) (l : list A) (x : A) : Prop :=
  ∃ l1 l2, l = l1 ++ x :: l2 ∧ P x ∧ Forall (λ y, ¬ P y) l1.

(** The block that the three steps of the selector resolve, the first
    step that succeeds winning: the identifier load, the first block of the
    category with the selector among its tags, the first block of the
    category with the selector as its tone. *)
Definition resolved_in_order (loaded : option EmailBlock)
    (candidates : list EmailBlock) (selector : string) (block : EmailBlock)
    : Prop :=
  loaded = Some block ∨
  (loaded = None ∧
   first_such (λ b, selector ∈ block_tags b) candidates block) ∨
  (loaded = None ∧
   Forall (λ b, selector ∉ block_tags b) candidates ∧
   first_such (λ b, tone_name <$> block_tone b = Some selector)
     candidates block).

(** No step of the selector resolves a block. *)
Definition unresolved (loaded : option EmailBlock)
    (candidates : list EmailBlock) (selector : string) : Prop :=
  loaded = None ∧
  Forall (λ b, selector ∉ block_tags b) candidates ∧
  Forall (λ b, tone_name <$> block_tone b ≠ Some selector) candidates.

(** The resolved blocks of a selection, in the order of the body. *)
Definition picked (selected : Selected.t) : list (EmailBlock * BlockVariant) :=
  omap id [Selected.greeting selected; Selected.opener selected;
           Selected.intention selected; Selected.eventInfo selected]
  ++ omap id (Selected.valueProps selected)
  ++ omap id [Selected.cta selected; Selected.closing selected].

(** [f] on every element in order, up to the first exception. *)
Fixpoint each {A B} (f : A → Result B) (l : list A) : Result (list B) :=
  match l with
  | [] => Ok []
  | x :: l' => try! y := f x in try! ys := each f l' in Ok (y :: ys)
  end.

(** The substitution that [composeEmail] applies to a resolved variant. *)
Definition substituted (variables : gmap string JsValue)
    (options : EmailCompositionOptions.t) (bv : EmailBlock * BlockVariant)
    : Result string :=
  VariableSubstitution.substitute (variant_text bv.2) variables
    (EmailCompositionOptions.substitution options).

#[local] Instance category_eq_dec : EqDecision BlockCategory.
Proof. solve_decision. Defined.

(** The blocks of the files of a directory up to the first file that
    cannot be read or parsed. *)
Fixpoint readable (files : list (string * option EmailBlock))
    : list EmailBlock :=
  match files with
  | (_, Some block) :: rest => block :: readable rest
  | _ => []
  end.

(** The selector [later] holds what [earlier] holds: every cached block
    under its key, and every list of a category with more blocks after it at
    most. *)
Definition extends (earlier later : BlockSelector.t) : Prop :=
  BlockSelector.blocks earlier ⊆ BlockSelector.blocks later ∧
  ∀ k, default [] (BlockSelector.blocksByCategory earlier !! k)
         `prefix_of` default [] (BlockSelector.blocksByCategory later !! k).

(** A call under [Promise.all] that is resolved to a variant has the first
    variant of its block. *)
Definition first_variant_call (c : EmailComposer.call) : Prop :=
  match c with
  | EmailComposer.Resolved (Some bv) => head (block_variants bv.1) = Some bv.2
  | _ => True
  end.

(** A call under [Promise.all] that waits for the read of a file has
    nothing in the cache under its identifier, or the block of that file. *)
Definition reads_cached (disk : gmap string EmailBlock)
    (category : BlockCategory) (self : BlockSelector.t)
    (c : EmailComposer.call) : Prop :=
  match c with
  | EmailComposer.Reading s =>
      ∀ block,
        BlockSelector.blocks self !! (category_name category +:+ "/" +:+ s) =
          Some block →
        disk !! (category_name category +:+ "/" +:+ s) = Some block
  | EmailComposer.Resolved _ => True
  end.

(** The call of index [i] under [Promise.all], for the selector [s] whose
    block is loaded by its identifier: it is resolved to that block, or it
    waits for the file that has it. *)
Definition resolves_directly (disk : gmap string EmailBlock)
    (category : BlockCategory) (s : string) (block : EmailBlock)
    (calls : list EmailComposer.call) (i : nat) : Prop :=
  calls !! i =
    Some (EmailComposer.Resolved
            ((λ variant, (block, variant)) <$> head (block_variants block))) ∨
  (calls !! i = Some (EmailComposer.Reading s) ∧
   disk !! (category_name category +:+ "/" +:+ s) = Some block).

(** The keys that [prepareVariables] writes out by name. *)
Definition namedKeys : list string :=
  ["first_name"; "last_name"; "title"; "email"; "organization_name";
   "company_name"; "sector"; "sender_name"; "sender_title"; "sender_email";
   "sender_organization"; "event_name"; "event_date"; "event_time";
   "event_location"; "event_website"; "ticket_url"; "contest_url";
   "press_kit_url"; "contact_email"].

(** ** Sample data

    The block, the audience and the contact of the README, for the
    examples below. *)

Module Sample.

Definition greeting_formal : EmailBlock :=
  {| block_id := "greeting-formal";
     block_category := Greeting;
     block_tags := ["formal"; "professional"];
     block_tone := Some Formal;
     block_variants :=
       [ {| variant_id := "formal-title-lastname";
            variant_text := "Dear {{title}} {{last_name}},";
            variant_placeholders := Some ["title"; "last_name"];
            variant_use_case := Some "When recipient's title is known" |};
         {| variant_id := "formal-full-name";
            variant_text := "Dear {{first_name}} {{last_name}},";
            variant_placeholders := Some ["first_name"; "last_name"];
            variant_use_case := None |} ] |}.

Definition cta_buy_ticket : EmailBlock :=
  {| block_id := "cta-buy-ticket";
     block_category := Cta;
     block_tags := ["buy-ticket"];
     block_tone := None;
     block_variants :=
       [ {| variant_id := "ticket-standard";
            variant_text := "Get your ticket: {{ticket_url}}";
            variant_placeholders := Some ["ticket_url"];
            variant_use_case := None |};
         {| variant_id := "ticket-early-bird";
            variant_text := "Early bird tickets until {{deadline}}: {{ticket_url}}";
            variant_placeholders := Some ["deadline"; "ticket_url"];
            variant_use_case := None |} ] |}.

(** The selector once [loadAllBlocks] read the two blocks of a
    composition. *)
Definition selector : BlockSelector.t :=
  {| BlockSelector.blocks :=
       {[ "greeting-formal" := greeting_formal;
          "cta-buy-ticket" := cta_buy_ticket ]};
     BlockSelector.blocksByCategory :=
       {[ "greeting" := [greeting_formal]; "cta" := [cta_buy_ticket] ]} |}.

Definition event : Event.t :=
  {| Event.name := Some "SynBio Reactor Summit";
     Event.date := Some "2024-06-15";
     Event.time := None;
     Event.location := Some "Berlin";
     Event.website := None;
     Event.ticket_url := Some "https://synbioreactor.org/tickets";
     Event.contest_url := None;
     Event.press_kit_url := None |}.

(** The default configuration of the investors. *)
Definition vcs_config : AudienceConfig.t :=
  {| AudienceConfig.name := "Venture Capitalists & Investors";
     AudienceConfig.tone := Formal;
     AudienceConfig.intention := "invite-attend";
     AudienceConfig.valueProps := ["deal-flow"; "networking"];
     AudienceConfig.cta := "buy-ticket";
     AudienceConfig.eventInfo := "detailed";
     AudienceConfig.tags := ["investor"; "formal"];
     AudienceConfig.subjectTemplate := None |}.

Definition composer : EmailComposer.t :=
  {| EmailComposer.blockSelector := selector;
     EmailComposer.audienceConfigs := EmailComposer.getDefaultAudienceConfigs;
     EmailComposer.eventDetails := Some event |}.

Definition andreas : ContactData.t :=
  {| ContactData.audience_type := "vcs";
     ContactData.email := "a.mueller@biotech-ventures.de";
     ContactData.fields :=
       {[ "first_name" := JsString "Andreas";
          "last_name" := JsString "Mueller";
          "title" := JsString "Dr.";
          "organization_name" := JsString "BioTech Ventures GmbH" ]} |}.

(** A contact of an audience type that no configuration has. *)
Definition stranger : ContactData.t :=
  {| ContactData.audience_type := "aliens";
     ContactData.email := "x@example.com";
     ContactData.fields := ∅ |}.

(** A block whose second variant has the empty identifier. *)
Definition closing_casual : EmailBlock :=
  {| block_id := "closing-casual";
     block_category := Closing;
     block_tags := ["casual"];
     block_tone := Some Casual;
     block_variants :=
       [ {| variant_id := "cheers";
            variant_text := "Cheers, {{sender_name}}";
            variant_placeholders := None;
            variant_use_case := None |};
         {| variant_id := "";
            variant_text := "Best, {{sender_name}}";
            variant_placeholders := None;
            variant_use_case := None |} ] |}.

(** A selector that also holds [closing_casual]. *)
Definition selector_with_closing : BlockSelector.t :=
  {| BlockSelector.blocks :=
       <["closing-casual" := closing_casual]> (BlockSelector.blocks selector);
     BlockSelector.blocksByCategory :=
       <["closing" := [closing_casual]]>
         (BlockSelector.blocksByCategory selector) |}.

(** A contact that brings a [deadline] of its own and an empty [sector]. *)
Definition sarah : ContactData.t :=
  {| ContactData.audience_type := "startups-pitch";
     ContactData.email := "sarah@biosynthinnovations.com";
     ContactData.fields :=
       {[ "first_name" := JsString "Sarah";
          "company_name" := JsString "BioSynth Innovations";
          "deadline" := JsString "2024-06-15";
          "sector" := JsString "" ]} |}.

(** Options with the custom variables of a campaign. *)
Definition campaign : EmailCompositionOptions.t :=
  {| EmailCompositionOptions.tone := None;
     EmailCompositionOptions.customVariables :=
       Some {[ "deadline" := "March 15, 2024";
               "prize_amount" := "10,000 EUR" ]};
     EmailCompositionOptions.blockOverrides := None;
     EmailCompositionOptions.variantPreferences := None;
     EmailCompositionOptions.strict := None;
     EmailCompositionOptions.keepPlaceholders := None |}.

(** The pitch contest with a subject template of its own. *)
Definition pitch_config : AudienceConfig.t :=
  {| AudienceConfig.name := "Startups (Pitch Contest)";
     AudienceConfig.tone := Casual;
     AudienceConfig.intention := "invite-participate";
     AudienceConfig.valueProps := ["exposure"; "networking"];
     AudienceConfig.cta := "apply-contest";
     AudienceConfig.eventInfo := "contest";
     AudienceConfig.tags := ["startup"; "competition"];
     AudienceConfig.subjectTemplate :=
       Some "Win {{prize_amount}} at {{event_name}}" |}.

Definition composer_with_subject : EmailComposer.t :=
  {| EmailComposer.blockSelector := selector;
     EmailComposer.audienceConfigs :=
       <["startups-pitch" := pitch_config]>
         EmailComposer.getDefaultAudienceConfigs;
     EmailComposer.eventDetails := Some event |}.

(** A value proposition that is also tagged for networking, and a blocks
    directory with its file alone. *)
Definition value_deal_flow : EmailBlock :=
  {| block_id := "value-deal-flow";
     block_category := ValueProposition;
     block_tags := ["networking"; "investors"];
     block_tone := None;
     block_variants :=
       [ {| variant_id := "deal-flow-standard";
            variant_text := "Meet {{sector}} startups before their first round.";
            variant_placeholders := Some ["sector"];
            variant_use_case := None |} ] |}.

Definition files : gmap string EmailBlock :=
  {[ "value-proposition/deal-flow" := value_deal_flow ]}.

(** A block with six variants. *)
Definition six_variants : EmailBlock :=
  {| block_id := "opener-six";
     block_category := Opener;
     block_tags := [];
     block_tone := None;
     block_variants :=
       (λ id, {| variant_id := id; variant_text := "";
                 variant_placeholders := None; variant_use_case := None |})
         <$> ["a"; "b"; "c"; "d"; "e"; "f"] |}.

(** Variables one of which has the name of a method of every object. *)
Definition hidden : gmap string JsValue :=
  {[ "first_name" := JsString "Ada"; "hasOwnProperty" := JsString "yes" ]}.

(** A contact whose audience type has the name of a property that every
    object inherits. *)
Definition builder : ContactData.t :=
  {| ContactData.audience_type := "constructor";
     ContactData.email := "b@example.com";
     ContactData.fields := ∅ |}.

End Sample.

(** * Properties *)

(** ** The pattern and its matches *)

(** stdpp keeps [simpl] off string concatenation; the proofs below compute
    with it. *)
#[local] Arguments String.append !s1 s2 / : simpl nomatch.

Section pattern.
Import VariableSubstitution.

Lemma append_assoc (a b c : string) : (a +:+ b) +:+ c = a +:+ (b +:+ c).
Proof. induction a as [|x a IH]; simpl; [done|]. by rewrite IH. Qed.

Lemma append_empty_r (a : string) : a +:+ "" = a.
Proof. induction a as [|x a IH]; simpl; [done|]. by rewrite IH. Qed.

Lemma append_length (a b : string) :
  String.length (a +:+ b) = String.length a + String.length b.
Proof. induction a as [|x a IH]; simpl; [done|]. by rewrite IH. Qed.

Lemma scan_step (s : string) :
  scan s =
    match match_token s with
    | Some (name, rest) => Tok name :: scan rest
    | None =>
        match s with
        | EmptyString => []
        | String c s' => Lit c :: scan s'
        end
    end.
Proof.
  rewrite scan_equation_1. unfold inspect.
  cut (∀ o (Hm : match_token s = o),
         scan_unfold_clause_1 s (exist _ o Hm) =
           match o with
           | Some (name, rest) => Tok name :: scan rest
           | None =>
               match s with
               | EmptyString => []
               | String c s' => Lit c :: scan s'
               end
           end); [intros Hcut; apply Hcut|].
  intros [[name rest]|] Hm; simpl; [done|]. by destruct s.
Qed.

Lemma strip_prefix_Some (p s r : string) :
  strip_prefix p s = Some r ↔ s = p +:+ r.
Proof.
  revert s. induction p as [|a p IH]; intros s; simpl.
  - split; congruence.
  - destruct s as [|b s]; [split; discriminate|].
    case_decide; subst.
    + rewrite IH. split; congruence.
    + split; [discriminate|congruence].
Qed.

Lemma span_word_split (s w r : string) :
  span_word s = (w, r) → s = w +:+ r ∧ all_word w = true.
Proof.
  revert w r. induction s as [|c s IH]; simpl; intros w r H.
  - by simplify_eq.
  - destruct (is_word_char c) eqn:Hc.
    + destruct (span_word s) as [w' r'] eqn:E. simplify_eq.
      destruct (IH _ _ eq_refl) as [-> Hw]. simpl. by rewrite Hc.
    + by simplify_eq.
Qed.

(** The run stops at the first character that is not a word character. *)
Lemma span_word_stop (w : string) (c : ascii) (r : string) :
  all_word w = true → is_word_char c = false →
  span_word (w +:+ String c r) = (w, String c r).
Proof.
  intros Hw Hc. induction w as [|a w IH]; simpl in *.
  - by rewrite Hc.
  - apply andb_true_iff in Hw as [Ha Hw]. by rewrite Ha, IH.
Qed.

(** Appending a text that starts outside [\w] leaves the run as it is. *)
Lemma span_word_app (s : string) (c : ascii) (x : string) :
  is_word_char c = false →
  span_word (s +:+ String c x) =
    let '(w, r) := span_word s in (w, r +:+ String c x).
Proof.
  intros Hc. induction s as [|a s IH]; simpl.
  - by rewrite Hc.
  - destruct (is_word_char a); [|done].
    rewrite IH. by destruct (span_word s).
Qed.

Lemma match_token_Some (s name rest : string) :
  match_token s = Some (name, rest) ↔
  s = "{{" +:+ name +:+ "}}" +:+ rest ∧ is_identifier name = true.
Proof.
  unfold match_token, is_identifier. split.
  - intros H.
    destruct (strip_prefix "{{" s) as [s1|] eqn:E1;
      cbn [mbind option_bind] in H; [|done].
    destruct (span_word s1) as [w r] eqn:E.
    case_bool_decide as Hw; [done|].
    destruct (strip_prefix "}}" r) as [r'|] eqn:E2;
      cbn [mbind option_bind] in H; [|done].
    simplify_eq.
    apply strip_prefix_Some in E1, E2. apply span_word_split in E as [-> Hn].
    subst. split; [done|]. rewrite Hn. by rewrite bool_decide_eq_true_2.
  - intros [-> [Hne Hw]%andb_true_iff].
    apply bool_decide_eq_true in Hne.
    replace (strip_prefix "{{" ("{{" +:+ name +:+ "}}" +:+ rest))
      with (Some (name +:+ "}}" +:+ rest)) by (symmetry; by apply strip_prefix_Some).
    cbn [mbind option_bind].
    change ("}}" +:+ rest) with (String "}" (String "}" rest)).
    rewrite span_word_stop by done.
    rewrite bool_decide_eq_false_2 by done.
    replace (strip_prefix "}}" (String "}" (String "}" rest)))
      with (Some rest) by (symmetry; by apply strip_prefix_Some).
    done.
Qed.

Lemma match_token_shorter (s name rest : string) :
  match_token s = Some (name, rest) → String.length rest < String.length s.
Proof.
  intros [-> _]%match_token_Some. simpl. rewrite append_length. simpl. lia.
Qed.

(** A match at the head of a text is a match at the head of any longer
    text. *)
Lemma match_token_app_Some (pre name rest x : string) :
  match_token pre = Some (name, rest) →
  match_token (pre +:+ x) = Some (name, rest +:+ x).
Proof.
  intros [-> Hn]%match_token_Some. apply match_token_Some. split; [|done].
  simpl. f_equal. f_equal. rewrite append_assoc. f_equal.
Qed.

(** A text that ends where a token begins holds every closing brace pair
    that follows a run of word characters at its head. *)
Lemma word_run_before_token (name pre y rest : string) :
  all_word name = true →
  pre +:+ String "{" y = name +:+ String "}" (String "}" rest) →
  ∃ r, pre = name +:+ String "}" (String "}" r).
Proof.
  intros Hw. revert pre. induction name as [|a name IH]; intros pre; simpl.
  - destruct pre as [|b [|c pre]]; simpl; intros H; simplify_eq.
    by eexists.
  - apply andb_true_iff in Hw as [Ha Hw].
    destruct pre as [|b pre]; simpl; intros H.
    + injection H as <- _. discriminate Ha.
    + injection H as -> H. destruct (IH Hw _ H) as [r ->]. by eexists.
Qed.

(** No match starts before a token and reaches into it. *)
Lemma match_token_app_None (pre x : string) :
  match_token pre = None → pre ≠ "" →
  match_token (pre +:+ "{{" +:+ x) = None.
Proof.
  intros Hnone Hne.
  destruct (match_token (pre +:+ "{{" +:+ x)) as [[name rest]|] eqn:Hm; [|done].
  exfalso. apply match_token_Some in Hm as [Heq Hn].
  pose proof Hn as [_ Hw]%andb_true_iff.
  destruct pre as [|c1 [|c2 pre]]; [done|..]; simpl in Heq.
  - injection Heq as -> Heq.
    destruct name as [|a name]; [done|]. simpl in *.
    injection Heq as <- _. discriminate Hw.
  - injection Heq as -> -> Heq.
    destruct (word_run_before_token _ _ _ _ Hw Heq) as [r ->].
    assert (match_token ("{{" +:+ name +:+ "}}" +:+ r) = Some (name, r)) as Hs
      by by apply match_token_Some.
    simpl in Hs. congruence.
Qed.

(** Every occurrence of a token is a match of the global pattern: the
    text before it and the text after it are cut on their own. *)
Lemma scan_app_token (pre name post : string) :
  is_identifier name = true →
  scan (pre +:+ "{{" +:+ name +:+ "}}" +:+ post) =
  scan pre ++ Tok name :: scan post.
Proof.
  intros Hn.
  remember (String.length pre) as n eqn:Hlen.
  revert pre Hlen.
  induction n as [n IH] using lt_wf_ind. intros pre ->.
  rewrite (scan_step pre), (scan_step (pre +:+ _)).
  destruct (match_token pre) as [[m r]|] eqn:Hm.
  - rewrite (match_token_app_Some _ _ _ _ Hm). simpl. f_equal.
    eapply IH; [|done]. by eapply match_token_shorter.
  - destruct pre as [|c pre].
    + simpl.
      replace (match_token _) with (Some (name, post)); [done|].
      symmetry. by apply match_token_Some.
    + rewrite match_token_app_None by done. simpl. f_equal.
      eapply IH; [|done]. simpl. lia.
Qed.

End pattern.

(** ** Substitution *)

Section substitution.
Import VariableSubstitution.

Lemma replace_app (f : string → string → Result string) (l1 l2 : list piece) :
  replace f (l1 ++ l2) =
    try! a := replace f l1 in try! b := replace f l2 in Ok (a +:+ b).
Proof.
  induction l1 as [|[c|name] l1 IH]; simpl.
  - by destruct (replace f l2).
  - rewrite IH. destruct (replace f l1); simpl; [|done].
    by destruct (replace f l2).
  - destruct (f _ name); simpl; [|done].
    rewrite IH. destruct (replace f l1); simpl; [|done].
    destruct (replace f l2); simpl; [|done]. by rewrite append_assoc.
Qed.

(** The callbacks agree wherever [replace] calls them. *)
Lemma replace_ext (f g : string → string → Result string) (l : list piece) :
  (∀ name, Tok name ∈ l →
     f ("{{" +:+ name +:+ "}}") name = g ("{{" +:+ name +:+ "}}") name) →
  replace f l = replace g l.
Proof.
  induction l as [|[c|name] l IH]; intros H; cbn [replace]; [done|..].
  - rewrite IH; [done|]. intros name Hin. apply H. by right.
  - rewrite (H name) by left. rewrite IH; [done|].
    intros name' Hin. apply H. by right.
Qed.

(** Putting every match back gives the text back. *)
Lemma replace_matched (s : string) :
  replace (λ matched _, Ok matched) (scan s) = Ok s.
Proof.
  remember (String.length s) as n eqn:Hlen. revert s Hlen.
  induction n as [n IH] using lt_wf_ind. intros s ->.
  rewrite scan_step.
  destruct (match_token s) as [[name rest]|] eqn:Hm.
  - simpl. rewrite (IH _ (match_token_shorter _ _ _ Hm) rest eq_refl). simpl.
    apply match_token_Some in Hm as [-> _]. simpl. f_equal. f_equal. f_equal.
    by rewrite append_assoc.
  - destruct s as [|c s]; simpl; [done|].
    rewrite (IH (String.length s)); [done| simpl; lia | done].
Qed.

Lemma extractPlaceholders_fold_nil (l : list piece) (acc : list string) :
  foldl (λ matches p,
           match p with
           | Tok name =>
               if bool_decide (name ∈ matches) then matches
               else matches ++ [name]
           | Lit _ => matches
           end) acc l = [] →
  acc = [] ∧ ∀ name, Tok name ∉ l.
Proof.
  revert acc. induction l as [|[c|name] l IH]; intros acc; simpl.
  - intros ->. split; [done|]. intros name H. by apply elem_of_nil in H.
  - intros [-> Hl]%IH. split; [done|].
    intros name [?|?]%elem_of_cons; [done|]. by eapply Hl.
  - intros [Hacc _]%IH. case_bool_decide as Hin.
    + subst acc. by apply elem_of_nil in Hin.
    + by destruct acc.
Qed.

(** A text without placeholders has no match. *)
Lemma extractPlaceholders_nil (text : string) :
  extractPlaceholders text = [] → ∀ name, Tok name ∉ scan text.
Proof. intros H. by apply extractPlaceholders_fold_nil in H as [_ H]. Qed.

(** The callback for variables that do not hide the method. *)
Lemma replacer_own (variables : gmap string JsValue)
    (options : SubstitutionOptions) (matched name : string) :
  variables !! "hasOwnProperty" = None →
  replacer variables options matched name =
    match variables !! name with
    | Some value =>
        Ok (match value with
            | JsNull | JsUndefined => ""
            | _ => to_String value
            end)
    | None =>
        if default false (strict options) then Throw (MissingVariable name)
        else Ok (if default false (keepPlaceholders options) then matched
                 else "")
    end.
Proof.
  intros Hown. unfold replacer, hasOwnProperty. rewrite Hown. cbn [bind].
  destruct (variables !! name) as [value|] eqn:Hname.
  - by rewrite bool_decide_eq_true_2 by by eexists.
  - by rewrite bool_decide_eq_false_2 by by intros [? ?].
Qed.

(** The callback for variables that hide the method. *)
Lemma replacer_shadowed (variables : gmap string JsValue)
    (options : SubstitutionOptions) (matched name : string) :
  is_Some (variables !! "hasOwnProperty") →
  replacer variables options matched name =
    Throw (NotAFunction "variables.hasOwnProperty").
Proof.
  intros [v Hv]. unfold replacer, hasOwnProperty. by rewrite Hv.
Qed.

(** Outside strict mode no substitution throws, unless the variables hide
    the method. *)
Lemma replace_lenient (variables : gmap string JsValue)
    (options : SubstitutionOptions) (l : list piece) :
  variables !! "hasOwnProperty" = None →
  default false (strict options) = false →
  ∃ out, replace (replacer variables options) l = Ok out.
Proof.
  intros Hown Hs. induction l as [|[c|name] l [out IH]]; simpl.
  - by eexists.
  - rewrite IH. by eexists.
  - rewrite replacer_own by done. rewrite Hs, IH.
    destruct (variables !! name); by eexists.
Qed.

Lemma substitute_lenient (text : string) (variables : gmap string JsValue)
    (options : SubstitutionOptions) :
  variables !! "hasOwnProperty" = None →
  default false (strict options) = false →
  ∃ out, substitute text variables options = Ok out.
Proof. apply replace_lenient. Qed.

(** What stands for a token [{{name}}] under variables that do not hide
    the method: the substituted text before it, then the stringified value,
    or nothing for [null] and [undefined], or what the options say of a name
    that the variables lack, then the substituted text after it. *)
Lemma substitute_token (pre name post : string)
    (variables : gmap string JsValue) (options : SubstitutionOptions) :
  variables !! "hasOwnProperty" = None →
  is_identifier name = true →
  substitute (pre +:+ "{{" +:+ name +:+ "}}" +:+ post) variables options =
    try! before := substitute pre variables options in
    try! value :=
      match variables !! name with
      | Some JsNull | Some JsUndefined => Ok ""
      | Some value => Ok (to_String value)
      | None =>
          if default false (strict options)
          then Throw (MissingVariable name)
          else if default false (keepPlaceholders options)
               then Ok ("{{" +:+ name +:+ "}}")
               else Ok ""
      end in
    try! after := substitute post variables options in
    Ok (before +:+ value +:+ after).
Proof.
  intros Hown Hn. unfold substitute.
  rewrite scan_app_token by done. rewrite replace_app. cbn [replace].
  rewrite replacer_own by done.
  generalize (replace (replacer variables options) (scan pre)).
  generalize (replace (replacer variables options) (scan post)).
  intros after [before|e]; simpl; [|done].
  destruct (variables !! name) as [[| |b|s]|]; simpl;
    try (by destruct after).
  destruct (default false (strict options)); simpl; [done|].
  destruct (default false (keepPlaceholders options)); simpl;
    by destruct after.
Qed.

(** C3, the code at the failing input.  The variables have [first_name],
    with a string, and a variable named [hasOwnProperty]: the token
    [{{first_name}}] is not replaced by the value, as the claim has it, for
    the call of [variables.hasOwnProperty] throws a [TypeError]; without
    that variable the value stands for the token. *)
Theorem substitute_hidden_method :
  Sample.hidden !! "first_name" = Some (JsString "Ada") ∧
  substitute "Dear {{first_name}}," Sample.hidden no_options =
    Throw (NotAFunction "variables.hasOwnProperty") ∧
  substitute "Dear {{first_name}},"
    (delete "hasOwnProperty" Sample.hidden) no_options = Ok "Dear Ada,".
Proof. vm_compute. done. Qed.

(** C9.  [substitute] is the identity on a text without placeholder
    tokens, whatever the variables and options; and with the empty variable
    map and [keepPlaceholders] (strict mode off) it is the identity on
    every text. *)
Theorem substitute_identity (text : string) (variables : gmap string JsValue)
    (options : SubstitutionOptions) :
  extractPlaceholders text = [] ∨
  (variables = ∅ ∧ keepPlaceholders options = Some true ∧
   default false (strict options) = false) →
  substitute text variables options = Ok text.
Proof.
  intros H. unfold substitute. etrans; [|apply replace_matched].
  apply replace_ext. intros name Hin.
  destruct H as [H|(-> & Hk & Hs)].
  - by apply extractPlaceholders_nil with (name := name) in H.
  - rewrite replacer_own by apply lookup_empty.
    rewrite lookup_empty, Hs, Hk. done.
Qed.

Lemma substitute_identity_witness :
  (extractPlaceholders "Hello { world }}" = [] ∨
   (({[ "a" := JsNull ]} : gmap string JsValue) = ∅ ∧
    keepPlaceholders no_options = Some true ∧
    default false (strict no_options) = false)) ∧
  substitute "Hello { world }}" {[ "a" := JsNull ]} no_options =
    Ok "Hello { world }}".
Proof.
  split; [left; reflexivity|].
  apply substitute_identity. left. reflexivity.
Defined.

End substitution.

(** ** The composer, step by step *)

Section composer.
Import VariableSubstitution EmailComposer.

Lemma each_app {A B} (f : A → Result B) (l1 l2 : list A) :
  each f (l1 ++ l2) =
    try! a := each f l1 in try! b := each f l2 in Ok (a ++ b).
Proof.
  induction l1 as [|x l1 IH]; simpl.
  - by destruct (each f l2).
  - destruct (f x); simpl; [|done]. rewrite IH.
    destruct (each f l1); simpl; [|done]. by destruct (each f l2).
Qed.

Lemma pushEach_each (variables : gmap string JsValue)
    (options : EmailCompositionOptions.t)
    (l : list (option (EmailBlock * BlockVariant))) (blocks : list string) :
  pushEach variables options l blocks =
    try! texts := each (substituted variables options) (omap id l) in
    Ok (blocks ++ texts).
Proof.
  revert blocks. induction l as [|[[b v]|] l IH]; intros blocks; simpl.
  - by rewrite app_nil_r.
  - unfold substituted at 1. simpl.
    destruct (substitute _ _ _) as [text|e]; simpl; [|done].
    rewrite IH. destruct (each _ _); simpl; [|done].
    by rewrite <- app_assoc.
  - apply IH.
Qed.

Lemma pushEach_app (variables : gmap string JsValue)
    (options : EmailCompositionOptions.t)
    (l1 l2 : list (option (EmailBlock * BlockVariant))) (blocks : list string) :
  pushEach variables options (l1 ++ l2) blocks =
    try! blocks := pushEach variables options l1 blocks in
    pushEach variables options l2 blocks.
Proof.
  revert blocks. induction l1 as [|x l1 IH]; intros blocks; simpl; [done|].
  destruct (push variables options x blocks); simpl; [|done]. apply IH.
Qed.

(** The body is made of the substituted texts of the resolved variants,
    in the order of [picked]. *)
Lemma assemble_picked (variables : gmap string JsValue)
    (options : EmailCompositionOptions.t) (selected : Selected.t) :
  assemble variables options selected =
    each (substituted variables options) (picked selected).
Proof.
  transitivity
    (pushEach variables options
       ([Selected.greeting selected; Selected.opener selected;
         Selected.intention selected; Selected.eventInfo selected]
        ++ Selected.valueProps selected
        ++ [Selected.cta selected; Selected.closing selected]) []).
  - rewrite pushEach_app. unfold assemble. simpl.
    repeat (destruct (push _ _ _ _); simpl; [|done]).
    rewrite pushEach_app. destruct (pushEach _ _ _ _); simpl; [|done].
    destruct (push _ _ _ _); simpl; [|done].
    by destruct (push _ _ _ _).
  - rewrite pushEach_each. unfold picked. rewrite !omap_app.
    by destruct (each _ _).
Qed.

(** [composeEmail] for a contact whose audience type the configuration
    yields something for, of its own or inherited. *)
Lemma composeEmail_found (disk : gmap string EmailBlock) (order : list nat)
    (contact : ContactData.t) (options : EmailCompositionOptions.t)
    (self : t) :
  let audienceConfig :=
    read (audienceConfigs self) (ContactData.audience_type contact) in
  audienceConfig ≠ Undefined →
  let tone :=
    BlockSelector.or_else (EmailCompositionOptions.tone options)
      (dot AudienceConfig.tone audienceConfig) in
  let selection :=
    selectBlocks disk order audienceConfig tone options (blockSelector self) in
  composeEmail disk order contact options self =
    (try! blocks := each (substituted (prepareVariables self contact options) options)
                      (picked selection.1) in
     try! subject := generateSubject self (ContactData.audience_type contact) contact in
     let body := join (String "010" (String "010" "")) blocks in
     Ok {| ComposedEmail.subject := subject;
           ComposedEmail.body := body;
           ComposedEmail.metadata :=
             {| ComposedEmail.audience_type := ContactData.audience_type contact;
                ComposedEmail.tone := tone;
                ComposedEmail.blocks_used := blocksUsed selection.1;
                ComposedEmail.variables_used := extractPlaceholders body |} |},
     with_blockSelector selection.2 self).
Proof.
  intros audienceConfig Hfound tone selection. unfold composeEmail.
  fold audienceConfig. fold tone. fold selection.
  destruct selection as [selected selector].
  destruct audienceConfig; [| |done]; by rewrite assemble_picked.
Qed.

(** [composeEmail] for a contact whose audience type the configuration
    yields nothing for. *)
Lemma composeEmail_undefined (disk : gmap string EmailBlock) (order : list nat)
    (contact : ContactData.t) (options : EmailCompositionOptions.t)
    (self : t) :
  read (audienceConfigs self) (ContactData.audience_type contact) = Undefined →
  composeEmail disk order contact options self =
    (Throw (UnknownAudience (ContactData.audience_type contact)), self).
Proof. intros H. unfold composeEmail. by rewrite H. Qed.

Lemma read_Own {A} (o : gmap string A) (k : string) (a : A) :
  read o k = Own a ↔ o !! k = Some a.
Proof.
  unfold read. destruct (o !! k) as [b|].
  - split; congruence.
  - case_bool_decide; split; congruence.
Qed.

Lemma read_Undefined {A} (o : gmap string A) (k : string) :
  read o k = Undefined ↔ o !! k = None ∧ k ∉ prototype_names.
Proof.
  unfold read. destruct (o !! k) as [b|].
  - split; [done|]. by intros [? _].
  - case_bool_decide; split; try done. by intros [_ ?].
Qed.

(** A variable that the options do not bring is not in the variables of
    the contact alone either. *)
Lemma prepareVariables_without_options (self : t) (contact : ContactData.t)
    (options : EmailCompositionOptions.t) (k : string) :
  prepareVariables self contact options !! k = None →
  prepareVariables self contact EmailCompositionOptions.empty !! k = None.
Proof.
  unfold prepareVariables, spread. rewrite !lookup_union_None.
  intros (Hextra & _ & Hnamed). split; [done|]. split; [|done].
  rewrite lookup_fmap. simpl. by rewrite lookup_empty.
Qed.

(** The subject of an email is generated unless the contact has a field
    that hides the method: its substitution is not strict. *)
Lemma generateSubject_returns (self : t) (audienceType : string)
    (contact : ContactData.t) :
  prepareVariables self contact EmailCompositionOptions.empty
    !! "hasOwnProperty" = None →
  ∃ subject, generateSubject self audienceType contact = Ok subject.
Proof.
  intros Hown. unfold generateSubject. case_bool_decide; [|by eexists].
  destruct (substitute_lenient
              (str_or (dot AudienceConfig.subjectTemplate
                         (read (audienceConfigs self) audienceType) ≫= id) "")
              (prepareVariables self contact EmailCompositionOptions.empty)
              no_options Hown eq_refl) as [subject ->].
  by eexists.
Qed.

End composer.

(** ** Residual tokens *)

Section residual.
Import VariableSubstitution EmailComposer.











End residual.

(** ** Block selection *)

Section selection.
Import BlockSelector.

Lemma find_first_such {A} (f : A → bool) (l : list A) (x : A) :
  find f l = Some x ↔ first_such (λ y, f y = true) l x.
Proof.
  split.
  - revert x. induction l as [|y l IH]; intros x; simpl; [done|].
    destruct (f y) eqn:Hy.
    + intros [= ->]. by exists [], l.
    + intros (l1 & l2 & -> & Hx & Hl1)%IH.
      exists (y :: l1), l2. split; [done|]. split; [done|].
      constructor; [congruence|done].
  - intros (l1 & l2 & -> & Hx & Hl1).
    induction Hl1 as [|y l1 Hy _ IH]; simpl.
    + by rewrite Hx.
    + by destruct (f y).
Qed.

Lemma find_none_such {A} (f : A → bool) (l : list A) :
  find f l = None ↔ Forall (λ y, f y ≠ true) l.
Proof.
  induction l as [|y l IH]; simpl.
  - split; [by constructor|done].
  - destruct (f y) eqn:Hy.
    + split; [done|]. by intros [? _]%Forall_cons.
    + rewrite IH. split.
      * intros ?. constructor; [congruence|done].
      * by intros [_ ?]%Forall_cons.
Qed.

Lemma first_such_iff {A} (P Q : A → Prop) (l : list A) (x : A) :
  (∀ y, P y ↔ Q y) → first_such P l x → first_such Q l x.
Proof.
  intros HPQ (l1 & l2 & -> & Hx & Hl1). exists l1, l2.
  split; [done|]. split; [by apply HPQ|].
  eapply Forall_impl; [done|]. intros y Hy ?. by apply Hy, HPQ.
Qed.

(** The variant that [selectBlock] takes of the block it matched. *)
Lemma selectBlock_matched (disk : gmap string EmailBlock)
    (category : BlockCategory) (selector : string) (variantId : option string)
    (self : t) :
  let loaded := loadBlock disk (category_name category +:+ "/" +:+ selector) self in
  let candidates := getBlocksByCategory loaded.2 category in
  let matched :=
    or_else
      (or_else loaded.1
         (find (λ b, bool_decide (selector ∈ block_tags b)) candidates))
      (find (λ b, bool_decide (tone_name <$> block_tone b = Some selector))
         candidates) in
  selectBlock disk category selector variantId self =
    (block ← matched;
     variant ← or_else
                 (vid ← variantId;
                  if bool_decide (vid = "") then None
                  else find (λ v, bool_decide (variant_id v = vid))
                         (block_variants block))
                 (head (block_variants block));
     Some (block, variant), loaded.2).
Proof.
  unfold selectBlock.
  destruct (loadBlock _ _ _) as [loaded self']. simpl.
  destruct (or_else (or_else _ _) _) as [block|]; simpl; [|done].
  destruct variantId as [vid|]; simpl; [|by destruct (head _)].
  case_bool_decide; simpl; [by destruct (head _)|].
  destruct (find _ _); simpl; [done|]. by destruct (head _).
Qed.

Lemma resolved_in_order_matched (loaded : option EmailBlock)
    (candidates : list EmailBlock) (selector : string) (block : EmailBlock) :
  resolved_in_order loaded candidates selector block →
  or_else
    (or_else loaded
       (find (λ b, bool_decide (selector ∈ block_tags b)) candidates))
    (find (λ b, bool_decide (tone_name <$> block_tone b = Some selector))
       candidates) = Some block.
Proof.
  intros [->|[[-> Htag]|(-> & Hnotag & Htone)]]; simpl; [done|..].
  - replace (find _ candidates) with (Some block); [done|].
    symmetry. apply find_first_such.
    eapply first_such_iff; [|done]. intros b. by rewrite bool_decide_eq_true.
  - replace (find _ candidates) with (@None EmailBlock); simpl.
    + apply find_first_such.
      eapply first_such_iff; [|done]. intros b. by rewrite bool_decide_eq_true.
    + symmetry. apply find_none_such. eapply Forall_impl; [done|].
      intros b Hb Ht. by apply Hb; apply bool_decide_eq_true in Ht.
Qed.

Lemma unresolved_matched (loaded : option EmailBlock)
    (candidates : list EmailBlock) (selector : string) :
  unresolved loaded candidates selector →
  or_else
    (or_else loaded
       (find (λ b, bool_decide (selector ∈ block_tags b)) candidates))
    (find (λ b, bool_decide (tone_name <$> block_tone b = Some selector))
       candidates) = None.
Proof.
  intros (-> & Hnotag & Hnotone). simpl.
  replace (find _ candidates) with (@None EmailBlock); simpl.
  - apply find_none_such. eapply Forall_impl; [exact Hnotone|].
    intros b Hb Ht. by apply Hb; apply bool_decide_eq_true in Ht.
  - symmetry. apply find_none_such. eapply Forall_impl; [exact Hnotag|].
    intros b Hb Ht. by apply Hb; apply bool_decide_eq_true in Ht.
Qed.

(** C4.  [selectBlock] resolves its block in three steps, the first that
    succeeds winning: the load of the identifier [category/selector]; else
    the first block of the category whose tags include the selector; else
    the first block of the category whose tone is the selector.  The block
    so resolved is the block of the result (a block without variants gives
    no result); when no step succeeds the result is [None].  The result is
    an option: [selectBlock] has no exception to throw. *)
Theorem selectBlock_priority (disk : gmap string EmailBlock)
    (category : BlockCategory) (selector : string) (variantId : option string)
    (self : t) :
  let loaded := loadBlock disk (category_name category +:+ "/" +:+ selector) self in
  let candidates := getBlocksByCategory loaded.2 category in
  let result := (selectBlock disk category selector variantId self).1 in
  (∀ block, resolved_in_order loaded.1 candidates selector block →
     (block_variants block ≠ [] → fst <$> result = Some block) ∧
     (block_variants block = [] → result = None)) ∧
  (unresolved loaded.1 candidates selector → result = None).
Proof.
  intros loaded candidates result. unfold result.
  rewrite selectBlock_matched. fold loaded. fold candidates. split.
  - intros block Hm%resolved_in_order_matched. rewrite Hm. simpl. split.
    + destruct (block_variants block) as [|v vs]; [done|]. intros _.
      by destruct (variantId ≫= _).
    + intros ->. simpl. by destruct variantId as [vid|]; simpl;
        [case_bool_decide|].
  - intros Hm%unresolved_matched. by rewrite Hm.
Qed.

Lemma selectBlock_priority_witness :
  resolved_in_order
    (loadBlock ∅ (category_name Cta +:+ "/" +:+ "buy-ticket") Sample.selector).1
    (getBlocksByCategory
       (loadBlock ∅ (category_name Cta +:+ "/" +:+ "buy-ticket") Sample.selector).2
       Cta)
    "buy-ticket" Sample.cta_buy_ticket ∧
  block_variants Sample.cta_buy_ticket ≠ [] ∧
  fst <$> (selectBlock ∅ Cta "buy-ticket" None Sample.selector).1 =
    Some Sample.cta_buy_ticket.
Proof.
  assert (resolved_in_order
    (loadBlock ∅ (category_name Cta +:+ "/" +:+ "buy-ticket") Sample.selector).1
    (getBlocksByCategory
       (loadBlock ∅ (category_name Cta +:+ "/" +:+ "buy-ticket") Sample.selector).2
       Cta)
    "buy-ticket" Sample.cta_buy_ticket) as Hres.
  { right. left. split; [reflexivity|].
    exists [], []. split; [reflexivity|]. split; [|constructor].
    apply (bool_decide_unpack _). vm_compute. exact I. }
  split; [exact Hres|]. split; [discriminate|].
  apply (proj1 (selectBlock_priority ∅ Cta "buy-ticket" None Sample.selector)
           Sample.cta_buy_ticket Hres).
  discriminate.
Defined.

(** C5, the claim as stated fails: the empty identifier, supplied as
    [variantId], is not looked up, although a variant of the block has it. *)
Lemma empty_variantId_counterexample :
  (∃ variant, variant ∈ block_variants Sample.closing_casual ∧
              variant_id variant = "") ∧
  ∃ used,
    (selectBlock ∅ Closing "casual" (Some "") Sample.selector_with_closing).1 =
      Some (Sample.closing_casual, used) ∧
    variant_id used = "cheers".
Proof.
  split.
  - eexists. split; [right; left|]. reflexivity.
  - eexists. split; reflexivity.
Qed.

(** C5, amended.  For the block that [selectBlock] matched: when a
    non-empty [variantId] is supplied and a variant of the block has that
    identifier, the first such variant is the one used; when no [variantId]
    is supplied, or the empty one, or one that no variant of the block has,
    the one used is the first variant of the block, a function of the block
    alone, without any draw; and a block without variants gives no
    result. *)
Theorem selectBlock_variant (disk : gmap string EmailBlock)
    (category : BlockCategory) (selector : string) (variantId : option string)
    (self : t) (block : EmailBlock) :
  let loaded := loadBlock disk (category_name category +:+ "/" +:+ selector) self in
  let candidates := getBlocksByCategory loaded.2 category in
  let result := (selectBlock disk category selector variantId self).1 in
  resolved_in_order loaded.1 candidates selector block →
  (∀ vid variant,
     variantId = Some vid → vid ≠ "" →
     first_such (λ v, variant_id v = vid) (block_variants block) variant →
     result = Some (block, variant)) ∧
  (variantId = None ∨ variantId = Some "" ∨
   (∃ vid, variantId = Some vid ∧
           Forall (λ v, variant_id v ≠ vid) (block_variants block)) →
   result = (λ variant, (block, variant)) <$> head (block_variants block)) ∧
  (block_variants block = [] → result = None).
Proof.
  intros loaded candidates result Hm%resolved_in_order_matched. unfold result.
  rewrite selectBlock_matched. fold loaded. fold candidates. rewrite Hm.
  simpl. split; [|split].
  - intros vid variant -> Hvid Hfirst. simpl.
    rewrite bool_decide_eq_false_2 by done.
    replace (find _ _) with (Some variant); [done|].
    symmetry. apply find_first_such.
    eapply first_such_iff; [|done]. intros v. by rewrite bool_decide_eq_true.
  - intros [->|[->|(vid & -> & Hnone)]]; simpl.
    + by destruct (head _).
    + by destruct (head _).
    + case_bool_decide; [by destruct (head _)|].
      replace (find _ _) with (@None BlockVariant); [by destruct (head _)|].
      symmetry. apply find_none_such. eapply Forall_impl; [done|].
      intros v Hv Hid. by apply Hv; apply bool_decide_eq_true in Hid.
  - intros ->. simpl. by destruct variantId as [vid|]; simpl;
      [case_bool_decide|].
Qed.

Lemma selectBlock_variant_witness :
  resolved_in_order
    (loadBlock ∅ (category_name Cta +:+ "/" +:+ "buy-ticket") Sample.selector).1
    (getBlocksByCategory
       (loadBlock ∅ (category_name Cta +:+ "/" +:+ "buy-ticket") Sample.selector).2
       Cta)
    "buy-ticket" Sample.cta_buy_ticket ∧
  (selectBlock ∅ Cta "buy-ticket" None Sample.selector).1 =
    (λ variant, (Sample.cta_buy_ticket, variant)) <$>
      head (block_variants Sample.cta_buy_ticket).
Proof.
  assert (resolved_in_order
    (loadBlock ∅ (category_name Cta +:+ "/" +:+ "buy-ticket") Sample.selector).1
    (getBlocksByCategory
       (loadBlock ∅ (category_name Cta +:+ "/" +:+ "buy-ticket") Sample.selector).2
       Cta)
    "buy-ticket" Sample.cta_buy_ticket) as Hres.
  { right. left. split; [reflexivity|].
    exists [], []. split; [reflexivity|]. split; [|constructor].
    apply (bool_decide_unpack _). vm_compute. exact I. }
  split; [exact Hres|].
  apply (selectBlock_variant ∅ Cta "buy-ticket" None Sample.selector
           Sample.cta_buy_ticket Hres).
  by left.
Defined.

End selection.

(** ** Unknown audiences and batches *)

Section batch.
Import EmailComposer.

(** C2, the code at the failing input.  The audience configuration has
    no entry for the audience type [constructor], yet [composeEmail] does not
    throw: [this.audienceConfigs[audienceType]] yields the function that
    every object inherits under that name, which the guard lets through, and
    the composition goes on with a configuration whose every field is
    [undefined].  The email it returns has that function for its subject,
    no tone, and the one block that a selector [undefined] matches, by the
    tone that the block lacks. *)
Theorem composeEmail_inherited_audience :
  audienceConfigs Sample.composer !! ContactData.audience_type Sample.builder =
    None ∧
  ∃ email,
    composeEmail ∅ [] Sample.builder EmailCompositionOptions.empty
      Sample.composer = (Ok email, Sample.composer) ∧
    ComposedEmail.subject email = ComposedEmail.Member "constructor" ∧
    ComposedEmail.body email =
      "Get your ticket: https://synbioreactor.org/tickets" ∧
    ComposedEmail.tone (ComposedEmail.metadata email) = None.
Proof. split; [vm_compute; reflexivity|]. eexists. vm_compute. done. Qed.

(** The results pushed so far stay as they are, and do not bear on what is
    pushed next. *)
Lemma composeOne_results (disk : gmap string EmailBlock)
    (globalOptions : EmailCompositionOptions.t)
    (perContactOptions : option (gmap string EmailCompositionOptions.t))
    (l : list (list nat * ContactData.t)) (results : list BatchEmailResult.t)
    (self : EmailComposer.t) :
  let rest := foldl (composeOne disk globalOptions perContactOptions) ([], self) l in
  foldl (composeOne disk globalOptions perContactOptions) (results, self) l =
    (results ++ rest.1, rest.2).
Proof.
  revert results self.
  induction l as [|[order contact] l IH]; intros results self; simpl.
  - by rewrite app_nil_r.
  - destruct (composeEmail disk order contact _ self) as [[email|error] self'];
      rewrite IH, (IH [_]); by rewrite <- app_assoc.
Qed.

Lemma composeBatch_app (disk : gmap string EmailBlock)
    (orders : nat → list nat)
    (globalOptions : EmailCompositionOptions.t)
    (perContactOptions : option (gmap string EmailCompositionOptions.t))
    (l1 l2 : list ContactData.t) (self : EmailComposer.t) :
  let first := composeBatch disk orders l1 globalOptions perContactOptions self in
  let second :=
    composeBatch disk (λ k, orders (length l1 + k)) l2 globalOptions
      perContactOptions first.2 in
  composeBatch disk orders (l1 ++ l2) globalOptions perContactOptions self =
    (first.1 ++ second.1, second.2).
Proof.
  intros first second. unfold composeBatch at 1, turns.
  rewrite imap_app, foldl_app.
  fold (turns orders l1).
  fold (composeBatch disk orders l1 globalOptions perContactOptions self).
  fold first. destruct first as [results self']. apply composeOne_results.
Qed.

(** The turn of one contact. *)
Lemma composeBatch_one (disk : gmap string EmailBlock)
    (orders : nat → list nat)
    (globalOptions : EmailCompositionOptions.t)
    (perContactOptions : option (gmap string EmailCompositionOptions.t))
    (contact : ContactData.t) (self : EmailComposer.t) :
  let composed :=
    composeEmail disk (orders 0) contact
      (effectiveOptions globalOptions perContactOptions contact) self in
  composeBatch disk orders [contact] globalOptions perContactOptions self =
    ([match composed.1 with
      | Ok email =>
          {| BatchEmailResult.contact := contact;
             BatchEmailResult.email := email;
             BatchEmailResult.error := None |}
      | Throw error => failed contact error
      end], composed.2).
Proof.
  unfold composeBatch. simpl.
  by destruct (composeEmail disk (orders 0) contact _ self)
    as [[email|error] self'].
Qed.

Lemma composeBatch_length (disk : gmap string EmailBlock)
    (orders : nat → list nat)
    (globalOptions : EmailCompositionOptions.t)
    (perContactOptions : option (gmap string EmailCompositionOptions.t))
    (contacts : list ContactData.t) (self : EmailComposer.t) :
  length (composeBatch disk orders contacts globalOptions perContactOptions self).1 =
  length contacts.
Proof.
  revert orders self.
  induction contacts as [|contact contacts IH]; intros orders self; [done|].
  rewrite (composeBatch_app _ _ _ _ [contact] contacts). simpl.
  by rewrite length_app, IH, composeBatch_one.
Qed.

(** The entry of a batch at the index of a contact. *)
Lemma composeBatch_lookup (disk : gmap string EmailBlock)
    (orders : nat → list nat) (contacts : list ContactData.t)
    (globalOptions : EmailCompositionOptions.t)
    (perContactOptions : option (gmap string EmailCompositionOptions.t))
    (self : EmailComposer.t) (k : nat) (contact : ContactData.t) :
  contacts !! k = Some contact →
  (composeBatch disk orders contacts globalOptions perContactOptions self).1 !! k =
    Some
      match (composeEmail disk (orders k) contact
               (effectiveOptions globalOptions perContactOptions contact)
               (composeBatch disk orders (take k contacts) globalOptions
                  perContactOptions self).2).1 with
      | Ok email =>
          {| BatchEmailResult.contact := contact;
             BatchEmailResult.email := email;
             BatchEmailResult.error := None |}
      | Throw error => failed contact error
      end.
Proof.
  intros Hk.
  assert (length (take k contacts) = k) as Htake.
  { rewrite length_take. apply lookup_lt_Some in Hk. lia. }
  assert (length (composeBatch disk orders (take k contacts) globalOptions
                    perContactOptions self).1 = k) as Hlen
    by by rewrite composeBatch_length.
  rewrite <- (take_drop_middle contacts k contact Hk) at 1.
  rewrite composeBatch_app. cbv zeta.
  rewrite (composeBatch_app _ _ _ _ [contact] (drop (S k) contacts)).
  cbv zeta. cbn [fst].
  rewrite lookup_app_r by lia. rewrite Hlen, Nat.sub_diag.
  rewrite composeBatch_one. cbn [fst lookup list_lookup].
  by rewrite Htake, Nat.add_0_r.
Qed.

(** C1.  [composeBatch] returns one result per contact, in the order of
    the contacts, in whatever order the reads of the files of each
    composition end.  The result at index [k] carries contact [k] and what
    [composeEmail] gives for it, under the options of [perContactOptions] for
    its email if there are any and [globalOptions] otherwise, on the composer
    as the contacts before it left it: the composed email and no error, or
    the error and the empty email.  So a contact whose composition fails has a
    result of its own, and every contact after it is still composed. *)
Theorem composeBatch_one_result_per_contact (disk : gmap string EmailBlock)
    (orders : nat → list nat) (contacts : list ContactData.t)
    (globalOptions : EmailCompositionOptions.t)
    (perContactOptions : option (gmap string EmailCompositionOptions.t))
    (self : EmailComposer.t) :
  let results :=
    (composeBatch disk orders contacts globalOptions perContactOptions self).1 in
  length results = length contacts ∧
  BatchEmailResult.contact <$> results = contacts ∧
  ∀ k contact, contacts !! k = Some contact →
    let before :=
      (composeBatch disk orders (take k contacts) globalOptions
         perContactOptions self).2 in
    let options :=
      match perContactOptions with
      | Some perContact =>
          default globalOptions (perContact !! ContactData.email contact)
      | None => globalOptions
      end in
    ∃ entry, results !! k = Some entry ∧
      BatchEmailResult.contact entry = contact ∧
      match (composeEmail disk (orders k) contact options before).1 with
      | Ok email =>
          BatchEmailResult.email entry = email ∧
          BatchEmailResult.error entry = None
      | Throw error =>
          BatchEmailResult.error entry = Some error ∧
          BatchEmailResult.email entry =
            {| ComposedEmail.subject := ComposedEmail.Text "";
               ComposedEmail.body := "";
               ComposedEmail.metadata :=
                 {| ComposedEmail.audience_type :=
                      ContactData.audience_type contact;
                    ComposedEmail.tone := Some Casual;
                    ComposedEmail.blocks_used := BlocksUsed.empty;
                    ComposedEmail.variables_used := [] |} |}
      end.
Proof.
  intros results.
  assert (∀ k contact, contacts !! k = Some contact →
    BatchEmailResult.contact <$> results !! k = Some contact) as Hcontact.
  { intros k contact Hk. unfold results.
    rewrite (composeBatch_lookup _ _ _ _ _ _ _ _ Hk). simpl. f_equal.
    by destruct (composeEmail _ _ _ _ _).1. }
  split; [apply composeBatch_length|]. split.
  - apply list_eq. intros k. rewrite list_lookup_fmap.
    destruct (contacts !! k) as [contact|] eqn:Hk; [by apply Hcontact|].
    apply lookup_ge_None in Hk.
    rewrite (proj2 (lookup_ge_None results k)); [done|].
    unfold results. rewrite composeBatch_length. lia.
  - intros k contact Hk before options.
    replace options with (effectiveOptions globalOptions perContactOptions contact)
      by (unfold options, effectiveOptions; by destruct perContactOptions).
    unfold results. rewrite (composeBatch_lookup _ _ _ _ _ _ _ _ Hk).
    fold before. eexists. split; [done|].
    by destruct (composeEmail disk (orders k) contact _ before).1.
Qed.

Lemma composeBatch_one_result_per_contact_witness :
  [Sample.andreas; Sample.stranger; Sample.andreas] !! 2 = Some Sample.andreas ∧
  ∃ entry,
    (composeBatch ∅ (λ _, []) [Sample.andreas; Sample.stranger; Sample.andreas]
       EmailCompositionOptions.empty None Sample.composer).1 !! 2 = Some entry ∧
    BatchEmailResult.contact entry = Sample.andreas ∧
    match (composeEmail ∅ [] Sample.andreas EmailCompositionOptions.empty
             (composeBatch ∅ (λ _, [])
                (take 2 [Sample.andreas; Sample.stranger; Sample.andreas])
                EmailCompositionOptions.empty None Sample.composer).2).1 with
    | Ok email =>
        BatchEmailResult.email entry = email ∧
        BatchEmailResult.error entry = None
    | Throw error =>
        BatchEmailResult.error entry = Some error ∧
        BatchEmailResult.email entry =
          {| ComposedEmail.subject := ComposedEmail.Text "";
             ComposedEmail.body := "";
             ComposedEmail.metadata :=
               {| ComposedEmail.audience_type :=
                    ContactData.audience_type Sample.andreas;
                  ComposedEmail.tone := Some Casual;
                  ComposedEmail.blocks_used := BlocksUsed.empty;
                  ComposedEmail.variables_used := [] |} |}
    end.
Proof.
  split; [reflexivity|].
  apply (proj2 (proj2 (composeBatch_one_result_per_contact ∅ (λ _, [])
                         [Sample.andreas; Sample.stranger; Sample.andreas]
                         EmailCompositionOptions.empty None Sample.composer))
           2 Sample.andreas).
  reflexivity.
Defined.

(** A batch of three contacts whose second has an unknown audience type:
    three results, the second with the error, the third composed. *)
Example composeBatch_middle_failure :
  (λ entry, (ContactData.email (BatchEmailResult.contact entry),
             ComposedEmail.subject (BatchEmailResult.email entry),
             BatchEmailResult.error entry)) <$>
    (composeBatch ∅ (λ _, []) [Sample.andreas; Sample.stranger; Sample.andreas]
       EmailCompositionOptions.empty None Sample.composer).1 =
  [ ("a.mueller@biotech-ventures.de",
     ComposedEmail.Text
       "Invitation: SynBio Reactor Summit - Biotech Startup Showcase", None);
    ("x@example.com", ComposedEmail.Text "", Some (UnknownAudience "aliens"));
    ("a.mueller@biotech-ventures.de",
     ComposedEmail.Text
       "Invitation: SynBio Reactor Summit - Biotech Startup Showcase", None) ].
Proof. vm_compute. reflexivity. Qed.

End batch.

(** ** The variable map and the subject *)

Section variables.
Import VariableSubstitution EmailComposer.

Lemma additionalFields_lookup (contact : ContactData.t) (k : string) :
  additionalFields contact !! k =
    if decide (k ∈ consumed) then None
    else ContactData.properties contact !! k.
Proof.
  unfold additionalFields. case_decide as Hk.
  - apply map_lookup_filter_None. right. intros v _ Hnot. by apply Hnot.
  - destruct (ContactData.properties contact !! k) as [v|] eqn:Hv.
    + by apply map_lookup_filter_Some.
    + apply map_lookup_filter_None. by left.
Qed.

(** C6, the claim as stated fails: for a key that both
    [options.customVariables] and the contact's extra fields have, the
    contact's value is the one used in substitution. *)
Lemma passthrough_wins_counterexample :
  default ∅ (EmailCompositionOptions.customVariables Sample.campaign)
    !! "deadline" = Some "March 15, 2024" ∧
  ContactData.fields Sample.sarah !! "deadline" = Some (JsString "2024-06-15") ∧
  prepareVariables Sample.composer Sample.sarah Sample.campaign !! "deadline" =
    Some (JsString "2024-06-15") ∧
  substitute "Apply by {{deadline}}"
    (prepareVariables Sample.composer Sample.sarah Sample.campaign)
    (EmailCompositionOptions.substitution Sample.campaign) =
    Ok "Apply by 2024-06-15".
Proof. vm_compute. done. Qed.

(** The pass-through leaves out four keys only: the empty [sector] of a
    contact passes through and replaces the named default. *)
Example passthrough_of_named_field :
  namedVariables Sample.composer Sample.sarah !! "sector" =
    Some (JsString "biotech") ∧
  ContactData.fields Sample.sarah !! "sector" = Some (JsString "") ∧
  prepareVariables Sample.composer Sample.sarah Sample.campaign !! "sector" =
    Some (JsString "").
Proof. vm_compute. done. Qed.

(** C6, amended.  In the variable map built for substitution, the
    pass-through of the contact's remaining keys comes last and wins: an
    extra key of the contact, one that is none of the named entries and none
    of [audience_type], [email], [first_name] and [last_name], has the
    contact's value, also when [options.customVariables] has the key.  A key
    that the pass-through does not bring has the value of
    [options.customVariables] if there is one, so that custom variables win
    over every named default, and its named default otherwise. *)
Theorem prepareVariables_precedence (self : EmailComposer.t)
    (contact : ContactData.t) (options : EmailCompositionOptions.t)
    (k : string) :
  let variables := prepareVariables self contact options in
  let custom := default ∅ (EmailCompositionOptions.customVariables options) in
  let passed :=
    (k ∉ consumed) ∧ is_Some (ContactData.properties contact !! k) in
  let extra := passed ∧ namedVariables self contact !! k = None in
  (extra → variables !! k = ContactData.properties contact !! k) ∧
  (¬ passed → ∀ value, custom !! k = Some value →
     variables !! k = Some (JsString value)) ∧
  (¬ passed → custom !! k = None →
     variables !! k = namedVariables self contact !! k).
Proof.
  intros variables custom passed extra.
  assert (variables !! k =
            union_with (λ x _, Some x) (additionalFields contact !! k)
              (union_with (λ x _, Some x) (JsString <$> (custom !! k))
                 (namedVariables self contact !! k))) as ->.
  { unfold variables, prepareVariables, spread.
    by rewrite !lookup_union, lookup_fmap. }
  rewrite additionalFields_lookup. unfold extra, passed.
  generalize (namedVariables self contact !! k).
  generalize (ContactData.properties contact !! k).
  generalize (custom !! k).
  intros [value|] own named.
  - split; [|split]; [| |intros _ [=]].
    + intros [[Hk [v ->]] ->]. by rewrite decide_False.
    + intros Hnot ? [= <-]. case_decide as Hk; [by destruct named|].
      destruct own as [v|]; [|by destruct named]. destruct Hnot. by split.
  - split; [|split]; [|intros _ ? [=]|].
    + intros [[Hk [v ->]] ->]. by rewrite decide_False.
    + intros Hnot _. case_decide as Hk; [by destruct named|].
      destruct own as [v|]; [|by destruct named]. destruct Hnot. by split.
Qed.

Lemma prepareVariables_precedence_witness :
  ((("deadline" ∉ consumed) ∧
    is_Some (ContactData.properties Sample.sarah !! "deadline")) ∧
   namedVariables Sample.composer Sample.sarah !! "deadline" = None) ∧
  prepareVariables Sample.composer Sample.sarah Sample.campaign !! "deadline" =
    ContactData.properties Sample.sarah !! "deadline".
Proof.
  assert ((("deadline" ∉ consumed) ∧
           is_Some (ContactData.properties Sample.sarah !! "deadline")) ∧
          namedVariables Sample.composer Sample.sarah !! "deadline" = None) as H.
  { split; [split|].
    - apply (bool_decide_unpack _). vm_compute. exact I.
    - eexists. vm_compute. reflexivity.
    - vm_compute. reflexivity. }
  split; [exact H|].
  apply (proj1 (prepareVariables_precedence Sample.composer Sample.sarah
                  Sample.campaign "deadline") H).
Defined.

End variables.

(** ** The subject *)

Section subject.
Import VariableSubstitution EmailComposer.

(** Every default subject template is a non-empty text. *)
Lemma subjectTemplates_non_empty (eventName audienceType template : string) :
  subjectTemplates eventName !! audienceType = Some template → template ≠ "".
Proof.
  unfold subjectTemplates, object. cbn [foldl fst snd].
  repeat (rewrite lookup_insert; case_decide; [by intros [= <-]|]).
  by rewrite lookup_empty.
Qed.

(** C7, the claim as stated fails: the subject is substituted with the
    variables of the contact alone, so a custom variable that the body would
    get is empty in the subject. *)
Lemma subject_without_customVariables_counterexample :
  ∃ email,
    (composeEmail ∅ [] Sample.sarah Sample.campaign
       Sample.composer_with_subject).1 = Ok email ∧
    ComposedEmail.subject email =
      ComposedEmail.Text "Win  at SynBio Reactor Summit" ∧
    substitute "Win {{prize_amount}} at {{event_name}}"
      (prepareVariables Sample.composer_with_subject Sample.sarah Sample.campaign)
      (EmailCompositionOptions.substitution Sample.campaign) =
      Ok "Win 10,000 EUR at SynBio Reactor Summit".
Proof. eexists. vm_compute. done. Qed.

(** C7, amended.  The subject of a composed email, for an audience type
    with a configuration: when the configuration has a non-empty
    [subjectTemplate], that template substituted, outside strict mode and
    without [keepPlaceholders], with the variable map built from the contact
    and no options, hence without [options.customVariables]; otherwise the
    default template of the audience type among the nine that have one; and
    for any other audience type that is not the name of a property that
    every object inherits, the generic invitation to the event, named
    [Event] when it has no name. *)
Theorem composeEmail_subject (disk : gmap string EmailBlock) (order : list nat)
    (contact : ContactData.t) (options : EmailCompositionOptions.t)
    (self : EmailComposer.t) (audienceConfig : AudienceConfig.t)
    (email : ComposedEmail.t) :
  audienceConfigs self !! ContactData.audience_type contact = Some audienceConfig →
  (composeEmail disk order contact options self).1 = Ok email →
  let eventName := str_or (eventDetails self ≫= Event.name) "Event" in
  match AudienceConfig.subjectTemplate audienceConfig with
  | Some (String c template) =>
      ∃ subject,
        substitute (String c template)
          (prepareVariables self contact EmailCompositionOptions.empty)
          no_options = Ok subject ∧
        ComposedEmail.subject email = ComposedEmail.Text subject
  | _ =>
      match subjectTemplates eventName !! ContactData.audience_type contact with
      | Some template => ComposedEmail.subject email = ComposedEmail.Text template
      | None =>
          ContactData.audience_type contact ∉ prototype_names →
          ComposedEmail.subject email =
            ComposedEmail.Text ("Invitation: " +:+ eventName)
      end
  end.
Proof.
  intros Hcfg Hemail eventName.
  pose proof Hcfg as Hread%read_Own.
  rewrite composeEmail_found in Hemail by by rewrite Hread.
  cbn [fst] in Hemail.
  destruct (each _ _) as [blocks|]; simpl in Hemail; [|done].
  destruct (generateSubject _ _ _) as [subject|] eqn:Hsubject;
    simpl in Hemail; [|done].
  injection Hemail as <-. simpl. revert Hsubject.
  unfold generateSubject. rewrite Hread. simpl. fold eventName.
  assert (match read (subjectTemplates eventName) (ContactData.audience_type contact) with
          | Own template =>
              ComposedEmail.Text
                (str_or (Some template) ("Invitation: " +:+ eventName))
          | Inherited name => ComposedEmail.Member name
          | Undefined => ComposedEmail.Text ("Invitation: " +:+ eventName)
          end = subject →
          match subjectTemplates eventName !! ContactData.audience_type contact with
          | Some template => subject = ComposedEmail.Text template
          | None =>
              ContactData.audience_type contact ∉ prototype_names →
              subject = ComposedEmail.Text ("Invitation: " +:+ eventName)
          end) as Hdefault.
  { unfold read.
    destruct (subjectTemplates _ !! _) as [template|] eqn:Ht.
    - apply subjectTemplates_non_empty in Ht. simpl.
      rewrite bool_decide_eq_false_2 by done. by intros <-.
    - intros Hs Hproto. by rewrite bool_decide_eq_false_2 in Hs by done. }
  destruct (AudienceConfig.subjectTemplate audienceConfig) as [[|c template]|];
    simpl.
  - intros [= Hs]. by apply Hdefault.
  - destruct (substitute _ _ _) as [text|]; simpl; [|done].
    intros [= <-]. by eexists.
  - intros [= Hs]. by apply Hdefault.
Qed.

Lemma composeEmail_subject_witness :
  audienceConfigs Sample.composer_with_subject
    !! ContactData.audience_type Sample.sarah = Some Sample.pitch_config ∧
  ∃ email,
    (composeEmail ∅ [] Sample.sarah Sample.campaign
       Sample.composer_with_subject).1 = Ok email ∧
    ∃ subject,
      substitute "Win {{prize_amount}} at {{event_name}}"
        (prepareVariables Sample.composer_with_subject Sample.sarah
           EmailCompositionOptions.empty)
        no_options = Ok subject ∧
      ComposedEmail.subject email = ComposedEmail.Text subject.
Proof.
  assert (audienceConfigs Sample.composer_with_subject
            !! ContactData.audience_type Sample.sarah = Some Sample.pitch_config)
    as Hcfg by (vm_compute; reflexivity).
  split; [exact Hcfg|].
  destruct (composeEmail ∅ [] Sample.sarah Sample.campaign
              Sample.composer_with_subject).1 as [email|] eqn:Hemail;
    [|vm_compute in Hemail; discriminate].
  exists email. split; [reflexivity|].
  exact (composeEmail_subject ∅ [] Sample.sarah Sample.campaign
           Sample.composer_with_subject Sample.pitch_config email Hcfg Hemail).
Defined.

End subject.

(** ** Variant preferences *)

Section preferences.
Import VariableSubstitution EmailComposer.

(** Without a [variantId], the variant of a result is the first variant of
    its block. *)
Lemma selectBlock_resumed_first_variant (category : BlockCategory)
    (selector : JsValue) (block : option EmailBlock) (self : BlockSelector.t)
    (bv : EmailBlock * BlockVariant) :
  BlockSelector.selectBlock_resumed category selector None block self = Some bv →
  head (block_variants bv.1) = Some bv.2.
Proof.
  unfold BlockSelector.selectBlock_resumed.
  destruct (BlockSelector.or_else (BlockSelector.or_else _ _) _) as [b|];
    simpl; [|done].
  destruct (head (block_variants b)) as [variant|] eqn:Hhead; simpl; [|done].
  by intros [= <-].
Qed.

Lemma selectBlock_any_first_variant (disk : gmap string EmailBlock)
    (category : BlockCategory) (selector : JsValue) (self : BlockSelector.t)
    (bv : EmailBlock * BlockVariant) :
  (BlockSelector.selectBlock_any disk category selector None self).1 = Some bv →
  head (block_variants bv.1) = Some bv.2.
Proof.
  unfold BlockSelector.selectBlock_any.
  destruct (BlockSelector.loadBlock _ _ _) as [block self']. simpl.
  apply selectBlock_resumed_first_variant.
Qed.

Lemma resume_first_variant (disk : gmap string EmailBlock)
    (category : BlockCategory) (s : string) (self : BlockSelector.t) :
  first_variant_call (Resolved (resume disk category s self).1).
Proof.
  unfold resume.
  destruct (BlockSelector.loadBlock_resumed _ _ _) as [block self']. simpl.
  destruct (BlockSelector.selectBlock_resumed _ _ _ _ _) as [bv|] eqn:H; [|done].
  by eapply selectBlock_resumed_first_variant.
Qed.

Lemma settle_first_variant (disk : gmap string EmailBlock)
    (category : BlockCategory) (order : list nat) (calls : list call)
    (self : BlockSelector.t) :
  Forall first_variant_call calls →
  Forall first_variant_call (foldl (settle disk category) (calls, self) order).1.
Proof.
  revert calls self. induction order as [|i order IH]; intros calls self H;
    [done|].
  simpl. destruct (calls !! i) as [[r|s]|] eqn:Hi; try by apply IH.
  pose proof (resume_first_variant disk category s self) as Hr.
  destruct (resume disk category s self) as [result self'].
  apply IH. by apply Forall_insert.
Qed.

Lemma settleAll_first_variant (disk : gmap string EmailBlock)
    (category : BlockCategory) (calls : list call) (self : BlockSelector.t) :
  Forall first_variant_call calls →
  Forall (λ bv, head (block_variants bv.1) = Some bv.2)
    (omap id (settleAll disk category calls self).1).
Proof.
  intros H. revert self.
  induction H as [|[r|s] calls Hc _ IH]; intros self; simpl; [constructor|..].
  - specialize (IH self). destruct (settleAll _ _ calls self) as [rs self'].
    simpl in *. destruct r as [bv|]; simpl; [by constructor|done].
  - pose proof (resume_first_variant disk category s self) as Hr.
    destruct (resume disk category s self) as [r self1].
    specialize (IH self1). destruct (settleAll _ _ calls self1) as [rs self'].
    simpl in *. destruct r as [bv|]; simpl; [by constructor|done].
Qed.

Lemma selectEach_first_variant (disk : gmap string EmailBlock)
    (order : list nat) (category : BlockCategory) (selectors : list string)
    (self : BlockSelector.t) :
  Forall (λ bv, head (block_variants bv.1) = Some bv.2)
    (omap id (selectEach disk order category selectors self).1).
Proof.
  unfold selectEach.
  pose proof (settle_first_variant disk category order
                (start category self <$> selectors) self) as H.
  destruct (foldl _ _ order) as [calls self'].
  apply settleAll_first_variant, H.
  apply Forall_fmap, Forall_true. intros s. unfold start. simpl.
  destruct (BlockSelector.blocks self !! _) as [block|]; [|done]. simpl.
  destruct (BlockSelector.selectBlock_resumed _ _ _ _ _) as [bv|] eqn:Hbv;
    [|done].
  by eapply selectBlock_resumed_first_variant.
Qed.

Lemma Forall_omap_cons {A} (P : A → Prop) (r : option A) (rs : list (option A)) :
  (∀ x, r = Some x → P x) → Forall P (omap id rs) → Forall P (omap id (r :: rs)).
Proof. intros Hr Hrs. destruct r as [x|]; simpl; [|done]. constructor; auto. Qed.

Lemma selectBlocks_first_variant (disk : gmap string EmailBlock)
    (order : list nat) (audienceConfig : Property AudienceConfig.t)
    (tone : option EmailTone) (options : EmailCompositionOptions.t)
    (self : BlockSelector.t) :
  Forall (λ bv, head (block_variants bv.1) = Some bv.2)
    (picked (selectBlocks disk order audienceConfig tone options self).1).
Proof.
  unfold selectBlocks.
  repeat match goal with
  | |- context [BlockSelector.selectBlock_any ?d ?c ?s None ?x] =>
      let H := fresh "H" in
      pose proof (selectBlock_any_first_variant d c s x) as H;
      destruct (BlockSelector.selectBlock_any d c s None x) as [? ?]
  | |- context [selectEach ?d ?o ?c ?l ?x] =>
      let H := fresh "H" in
      pose proof (selectEach_first_variant d o c l x) as H;
      destruct (selectEach d o c l x) as [? ?]
  end.
  unfold picked. cbn [Selected.greeting Selected.opener Selected.intention
    Selected.eventInfo Selected.valueProps Selected.cta Selected.closing fst snd] in *.
  apply Forall_app. split; [|apply Forall_app; split; [done|]];
    repeat (apply Forall_omap_cons; [done|]); constructor.
Qed.

(** C10.  [composeEmail] does not read [options.variantPreferences]: with
    any other preferences in the options it returns the same result and
    leaves the same composer.  And of every block that its calls of
    [selectBlock] resolve, in whatever order the reads of the files end, the
    variant is the first variant of the block; these blocks are the blocks
    that the metadata of a returned email name, and the texts of these
    variants, substituted, make its body. *)
Theorem composeEmail_ignores_variantPreferences (disk : gmap string EmailBlock)
    (order : list nat) (contact : ContactData.t)
    (options : EmailCompositionOptions.t) (self : EmailComposer.t)
    (preferences : option (gmap string string)) :
  let audienceConfig :=
    getAudienceConfig self (ContactData.audience_type contact) in
  let tone :=
    BlockSelector.or_else (EmailCompositionOptions.tone options)
      (dot AudienceConfig.tone audienceConfig) in
  let selected :=
    (selectBlocks disk order audienceConfig tone options (blockSelector self)).1 in
  composeEmail disk order contact
    (EmailCompositionOptions.with_variantPreferences preferences options) self =
  composeEmail disk order contact options self ∧
  Forall (λ bv, head (block_variants bv.1) = Some bv.2) (picked selected) ∧
  ∀ email,
    (composeEmail disk order contact options self).1 = Ok email →
    ComposedEmail.blocks_used (ComposedEmail.metadata email) =
      blocksUsed selected ∧
    ∃ texts,
      each (substituted (prepareVariables self contact options) options)
        (picked selected) = Ok texts ∧
      ComposedEmail.body email = join (String "010" (String "010" "")) texts.
Proof.
  intros audienceConfig tone selected.
  split; [|split; [apply selectBlocks_first_variant|]].
  - destruct audienceConfig eqn:Hcfg; unfold audienceConfig, getAudienceConfig in Hcfg.
    + by rewrite !composeEmail_found by by rewrite Hcfg.
    + by rewrite !composeEmail_found by by rewrite Hcfg.
    + by rewrite !composeEmail_undefined.
  - intros email Hemail.
    assert (read (audienceConfigs self) (ContactData.audience_type contact) ≠
              Undefined) as Hfound.
    { intros Hnone. by rewrite composeEmail_undefined in Hemail. }
    rewrite composeEmail_found in Hemail by done. cbn [fst] in Hemail.
    fold (getAudienceConfig self (ContactData.audience_type contact)) in Hemail.
    fold audienceConfig tone selected in Hemail.
    destruct (each _ (picked selected)) as [texts|] eqn:Heach;
      simpl in Hemail; [|done].
    destruct (generateSubject _ _ _) as [subject|]; simpl in Hemail; [|done].
    injection Hemail as <-. split; [done|]. by exists texts.
Qed.

Lemma composeEmail_ignores_variantPreferences_witness :
  ∃ email,
    (composeEmail Sample.files [1; 0] Sample.andreas
       EmailCompositionOptions.empty Sample.composer).1 = Ok email ∧
    let audienceConfig :=
      getAudienceConfig Sample.composer
        (ContactData.audience_type Sample.andreas) in
    let tone :=
      BlockSelector.or_else
        (EmailCompositionOptions.tone EmailCompositionOptions.empty)
        (dot AudienceConfig.tone audienceConfig) in
    let selected :=
      (selectBlocks Sample.files [1; 0] audienceConfig tone
         EmailCompositionOptions.empty (blockSelector Sample.composer)).1 in
    ComposedEmail.blocks_used (ComposedEmail.metadata email) =
      blocksUsed selected ∧
    ∃ texts,
      each (substituted
              (prepareVariables Sample.composer Sample.andreas
                 EmailCompositionOptions.empty)
              EmailCompositionOptions.empty) (picked selected) = Ok texts ∧
      ComposedEmail.body email = join (String "010" (String "010" "")) texts.
Proof.
  destruct (composeEmail Sample.files [1; 0] Sample.andreas
              EmailCompositionOptions.empty Sample.composer).1
    as [email|] eqn:Hemail; [|vm_compute in Hemail; discriminate].
  exists email. split; [reflexivity|].
  exact (proj2 (proj2 (composeEmail_ignores_variantPreferences Sample.files
                         [1; 0] Sample.andreas EmailCompositionOptions.empty
                         Sample.composer None))
           email Hemail).
Defined.

(** The preference of the README for the early-bird ticket changes
    nothing: the body has the first variant of the block. *)
Example variantPreferences_early_bird :
  ComposedEmail.body <$>
    match (composeEmail ∅ [] Sample.andreas
             (EmailCompositionOptions.with_variantPreferences
                (Some {[ "cta-buy-ticket" := "ticket-early-bird" ]})
                EmailCompositionOptions.empty)
             Sample.composer).1 with
    | Ok email => Some email
    | Throw _ => None
    end =
  Some ("Dear Dr. Mueller," +:+ String "010" (String "010" "")
        +:+ "Get your ticket: https://synbioreactor.org/tickets").
Proof. vm_compute. reflexivity. Qed.

(** The accessor for a random variant may return another variant than the
    first; [selectBlock] takes no draw.  The draw is 0.5. *)
Example getRandomVariant_second :
  variant_id <$>
    BlockSelector.getRandomVariant (S754_finite false 4503599627370496 (-53))
      Sample.cta_buy_ticket =
    Some "ticket-early-bird".
Proof. vm_compute. reflexivity. Qed.

End preferences.

(** ** Placeholders, validation and strict mode *)

Section placeholders.
Import VariableSubstitution.

(** The step of the loop of [extractPlaceholders]. *)
Lemma extractPlaceholders_fold (l : list piece) (acc : list string) :
  let result :=
    foldl (λ matches p,
             match p with
             | Tok name =>
                 if bool_decide (name ∈ matches) then matches
                 else matches ++ [name]
             | Lit _ => matches
             end) acc l in
  (∃ more, result = acc ++ more) ∧
  (NoDup acc → NoDup result) ∧
  (∀ name, name ∈ result ↔ name ∈ acc ∨ Tok name ∈ l).
Proof.
  revert acc. induction l as [|[c|n] l IH]; intros acc; simpl.
  - split; [exists []; by rewrite app_nil_r|]. split; [done|].
    intros name. rewrite elem_of_nil. tauto.
  - destruct (IH acc) as (Hpre & Hnd & Hin). split; [done|]. split; [done|].
    intros name. rewrite Hin, elem_of_cons.
    split; [intros [?|?]; auto|intros [?|[?|?]]; simplify_eq; auto].
  - case_bool_decide as Hn.
    + destruct (IH acc) as (Hpre & Hnd & Hin). split; [done|]. split; [done|].
      intros name. rewrite Hin, elem_of_cons.
      split; [intros [?|?]; auto|intros [?|[?|?]]; simplify_eq; auto].
    + destruct (IH (acc ++ [n])) as ([more Hpre] & Hnd & Hin). split; [|split].
      * exists (n :: more). rewrite Hpre. by rewrite <- app_assoc.
      * intros Hacc. apply Hnd. apply NoDup_app. split; [done|].
        split; [|apply NoDup_singleton].
        intros x Hx ->%list_elem_of_singleton. done.
      * intros name. rewrite Hin, elem_of_app, list_elem_of_singleton, elem_of_cons.
        split; [intros [[?| ->]|?]; auto|intros [?|[?|?]]; simplify_eq; auto].
Qed.

Lemma elem_of_extractPlaceholders (text name : string) :
  name ∈ extractPlaceholders text ↔ Tok name ∈ scan text.
Proof.
  unfold extractPlaceholders.
  destruct (extractPlaceholders_fold (scan text) []) as (_ & _ & Hin).
  rewrite Hin, elem_of_nil. tauto.
Qed.

(** The matches of the pattern are the occurrences of tokens. *)
Lemma Tok_in_scan (text name : string) :
  Tok name ∈ scan text ↔
  is_identifier name = true ∧
  ∃ pre post, text = pre +:+ "{{" +:+ name +:+ "}}" +:+ post.
Proof.
  split.
  - remember (String.length text) as n eqn:Hlen. revert text Hlen.
    induction n as [n IH] using lt_wf_ind. intros text ->.
    rewrite scan_step.
    destruct (match_token text) as [[m r]|] eqn:Hm.
    + intros [[= ->]|Hin]%elem_of_cons.
      * apply match_token_Some in Hm as [-> Hid]. split; [done|].
        by exists "", r.
      * destruct (IH _ (match_token_shorter _ _ _ Hm) r eq_refl Hin)
          as (Hid & pre & post & ->).
        split; [done|].
        apply match_token_Some in Hm as [-> _].
        exists ("{{" +:+ m +:+ "}}" +:+ pre), post.
        simpl. f_equal. f_equal. rewrite !append_assoc. simpl. done.
    + destruct text as [|c text]; [by intros ?%elem_of_nil|].
      intros [[=]|Hin]%elem_of_cons.
      destruct (IH (String.length text)) with (text := text)
        as (Hid & pre & post & ->); [simpl; lia|done|done|].
      split; [done|]. by exists (String c pre), post.
  - intros (Hid & pre & post & ->). rewrite scan_app_token by done.
    apply elem_of_app. right. by left.
Qed.

(** X1.  [extractPlaceholders] returns each name once, and a name is
    returned exactly when it is an identifier and the token [{{name}}]
    occurs in the text. *)
Theorem extractPlaceholders_occurrences (text : string) :
  NoDup (extractPlaceholders text) ∧
  ∀ name,
    name ∈ extractPlaceholders text ↔
    is_identifier name = true ∧
    ∃ pre post, text = pre +:+ "{{" +:+ name +:+ "}}" +:+ post.
Proof.
  split.
  - unfold extractPlaceholders.
    destruct (extractPlaceholders_fold (scan text) []) as (_ & Hnd & _).
    apply Hnd, NoDup_nil_2.
  - intros name. by rewrite elem_of_extractPlaceholders, Tok_in_scan.
Qed.

(** X2.  Variable maps that agree on the placeholders of a text, and on
    having a variable named [hasOwnProperty] or not, give the same
    substitution, under any options: no other variable is read. *)
Theorem substitute_relevant_variables (text : string)
    (variables1 variables2 : gmap string JsValue)
    (options : SubstitutionOptions) :
  (∀ name, name ∈ extractPlaceholders text →
           variables1 !! name = variables2 !! name) →
  (is_Some (variables1 !! "hasOwnProperty") ↔
   is_Some (variables2 !! "hasOwnProperty")) →
  substitute text variables1 options = substitute text variables2 options.
Proof.
  intros H Hmethod. apply replace_ext.
  intros name Hin%elem_of_extractPlaceholders.
  destruct (variables1 !! "hasOwnProperty") as [v|] eqn:H1.
  - rewrite !replacer_shadowed; [done|by apply Hmethod|by rewrite H1].
  - assert (variables2 !! "hasOwnProperty" = None) as H2.
    { destruct (variables2 !! "hasOwnProperty") as [v|] eqn:H2; [|done].
      by destruct (proj2 Hmethod (mk_is_Some _ _ eq_refl)). }
    rewrite !replacer_own by done. by rewrite (H name Hin).
Qed.

Lemma substitute_relevant_variables_witness :
  (∀ name, name ∈ extractPlaceholders "Dear {{title}} {{last_name}}," →
     ({[ "title" := JsString "Dr."; "last_name" := JsString "Mueller" ]}
        : gmap string JsValue) !! name =
     ({[ "title" := JsString "Dr."; "last_name" := JsString "Mueller";
         "sector" := JsString "biotech" ]} : gmap string JsValue) !! name) ∧
  (is_Some (({[ "title" := JsString "Dr."; "last_name" := JsString "Mueller" ]}
               : gmap string JsValue) !! "hasOwnProperty") ↔
   is_Some (({[ "title" := JsString "Dr."; "last_name" := JsString "Mueller";
                "sector" := JsString "biotech" ]} : gmap string JsValue)
              !! "hasOwnProperty")) ∧
  substitute "Dear {{title}} {{last_name}},"
    {[ "title" := JsString "Dr."; "last_name" := JsString "Mueller" ]}
    no_options =
  substitute "Dear {{title}} {{last_name}},"
    {[ "title" := JsString "Dr."; "last_name" := JsString "Mueller";
       "sector" := JsString "biotech" ]}
    no_options.
Proof.
  assert (∀ name, name ∈ extractPlaceholders "Dear {{title}} {{last_name}}," →
     ({[ "title" := JsString "Dr."; "last_name" := JsString "Mueller" ]}
        : gmap string JsValue) !! name =
     ({[ "title" := JsString "Dr."; "last_name" := JsString "Mueller";
         "sector" := JsString "biotech" ]} : gmap string JsValue) !! name) as H.
  { intros name Hin.
    replace (extractPlaceholders "Dear {{title}} {{last_name}},")
      with ["title"; "last_name"] in Hin by (vm_compute; reflexivity).
    apply elem_of_cons in Hin as [->|Hin]; [vm_compute; reflexivity|].
    apply list_elem_of_singleton in Hin as ->. vm_compute. reflexivity. }
  assert (is_Some (({[ "title" := JsString "Dr."; "last_name" := JsString "Mueller" ]}
               : gmap string JsValue) !! "hasOwnProperty") ↔
   is_Some (({[ "title" := JsString "Dr."; "last_name" := JsString "Mueller";
                "sector" := JsString "biotech" ]} : gmap string JsValue)
              !! "hasOwnProperty")) as Hmethod.
  { replace (({[ "title" := JsString "Dr."; "last_name" := JsString "Mueller" ]}
               : gmap string JsValue) !! "hasOwnProperty")
      with (@None JsValue) by (vm_compute; reflexivity).
    replace (({[ "title" := JsString "Dr."; "last_name" := JsString "Mueller";
                 "sector" := JsString "biotech" ]} : gmap string JsValue)
               !! "hasOwnProperty")
      with (@None JsValue) by (vm_compute; reflexivity).
    done. }
  split; [exact H|]. split; [exact Hmethod|].
  apply substitute_relevant_variables; [exact H|exact Hmethod].
Defined.

End placeholders.

(** ** Validation and strict mode *)

Section validation.
Import VariableSubstitution.

Lemma filter_missing_nil (variables : gmap string JsValue) (l : list string) :
  filter (λ p, variables !! p = None) l = [] ↔
  Forall (λ p, is_Some (variables !! p)) l.
Proof.
  induction l as [|x l IH].
  - split; [constructor|done].
  - rewrite filter_cons. destruct (variables !! x) as [v|] eqn:Hx.
    + rewrite decide_False by done. rewrite IH. split.
      * intros. constructor; [by exists v|done].
      * by intros [_ ?]%Forall_cons.
    + rewrite decide_True by done. split; [done|].
      intros [[v Hv] _]%Forall_cons. congruence.
Qed.

(** The callback of [validate] does not throw for variables that do not
    hide the method. *)
Lemma filter_by_own (variables : gmap string JsValue) (l : list string) :
  variables !! "hasOwnProperty" = None →
  filter_by (λ p, try! own := hasOwnProperty variables p in Ok (negb own)) l =
    Ok (filter (λ p, variables !! p = None) l).
Proof.
  intros Hown. induction l as [|x l IH]; [done|].
  cbn [filter_by]. rewrite IH. unfold hasOwnProperty. rewrite Hown.
  cbn [bind]. rewrite filter_cons.
  destruct (variables !! x) as [v|] eqn:Hx.
  - rewrite bool_decide_eq_true_2 by by eexists. by rewrite decide_False.
  - rewrite bool_decide_eq_false_2 by by intros [? ?]. by rewrite decide_True.
Qed.

Lemma validate_own (text : string) (variables : gmap string JsValue) :
  variables !! "hasOwnProperty" = None →
  let missing := filter (λ p, variables !! p = None) (extractPlaceholders text) in
  validate text variables = Ok (bool_decide (length missing = 0), missing).
Proof. intros Hown. unfold validate. by rewrite filter_by_own. Qed.

(** With variables that hide the method, [validate] throws at the first
    placeholder. *)
Lemma validate_shadowed (text : string) (variables : gmap string JsValue) :
  is_Some (variables !! "hasOwnProperty") →
  validate text variables =
    match extractPlaceholders text with
    | [] => Ok (true, [])
    | _ :: _ => Throw (NotAFunction "variables.hasOwnProperty")
    end.
Proof.
  intros [v Hv]. unfold validate.
  destruct (extractPlaceholders text) as [|x l]; [done|].
  cbn [filter_by]. unfold hasOwnProperty at 1. by rewrite Hv.
Qed.

(** A callback that always throws makes [replace] throw at the first
    match. *)
Lemma replace_throwing (f : string → string → Result string) (e : Error)
    (l : list piece) (name : string) :
  (∀ matched varName, f matched varName = Throw e) →
  Tok name ∈ l → replace f l = Throw e.
Proof.
  intros Hf. induction l as [|[c|n] l IH]; cbn [replace].
  - by intros ?%elem_of_nil.
  - intros [[=]|Hin]%elem_of_cons. by rewrite IH.
  - intros _. by rewrite Hf.
Qed.

(** With variables that hide the method, [substitute] throws at the first
    token. *)
Lemma substitute_shadowed (text : string) (variables : gmap string JsValue)
    (options : SubstitutionOptions) (name : string) :
  is_Some (variables !! "hasOwnProperty") →
  name ∈ extractPlaceholders text →
  substitute text variables options =
    Throw (NotAFunction "variables.hasOwnProperty").
Proof.
  intros Hmethod Hin%elem_of_extractPlaceholders.
  apply (replace_throwing _ _ _ name); [|done].
  intros matched varName. by apply replacer_shadowed.
Qed.

(** A text without placeholders is substituted to itself. *)
Lemma substitute_without_placeholders (text : string)
    (variables : gmap string JsValue) (options : SubstitutionOptions) :
  extractPlaceholders text = [] →
  substitute text variables options = Ok text.
Proof.
  intros H. unfold substitute. etrans; [|apply replace_matched].
  apply replace_ext. intros name Hin.
  by apply extractPlaceholders_nil with (name := name) in H.
Qed.

(** In strict mode the first placeholder that validation misses is the
    one [replace] stops at. *)
Lemma strict_replace_fold (variables : gmap string JsValue)
    (options : SubstitutionOptions) (l : list piece) (acc : list string) :
  variables !! "hasOwnProperty" = None →
  default false (strict options) = true →
  Forall (λ p, is_Some (variables !! p)) acc →
  match
    filter (λ p, variables !! p = None)
      (foldl (λ matches p,
                match p with
                | Tok name =>
                    if bool_decide (name ∈ matches) then matches
                    else matches ++ [name]
                | Lit _ => matches
                end) acc l)
  with
  | [] => ∃ out, replace (replacer variables options) l = Ok out
  | name :: _ =>
      replace (replacer variables options) l = Throw (MissingVariable name)
  end.
Proof.
  intros Hown Hs. revert acc. induction l as [|[c|n] l IH]; intros acc Hacc.
  - cbn [foldl replace].
    rewrite (proj2 (filter_missing_nil variables acc) Hacc). by eexists.
  - cbn [foldl replace]. specialize (IH acc Hacc).
    destruct (filter _ _) as [|name ?].
    + destruct IH as [out ->]. by eexists.
    + by rewrite IH.
  - cbn [foldl replace]. rewrite replacer_own by done.
    destruct (variables !! n) as [v|] eqn:Hn.
    + assert (Forall (λ p, is_Some (variables !! p))
                (if bool_decide (n ∈ acc) then acc else acc ++ [n])) as Hacc'.
      { case_bool_decide; [done|]. apply Forall_app. split; [done|].
        constructor; [by rewrite Hn|constructor]. }
      specialize (IH _ Hacc'). cbn [bind].
      destruct (filter _ _) as [|name ?].
      * destruct IH as [out ->]. by eexists.
      * by rewrite IH.
    + rewrite Hs. cbn [bind].
      rewrite bool_decide_eq_false_2.
      2:{ intros Hin. rewrite Forall_forall in Hacc.
          destruct (Hacc n Hin) as [v Hv]. congruence. }
      destruct (extractPlaceholders_fold l (acc ++ [n])) as ([more ->] & _ & _).
      rewrite <- app_assoc, filter_app.
      rewrite (proj2 (filter_missing_nil variables acc) Hacc).
      simpl. rewrite filter_cons, decide_True by done. done.
Qed.

(** X3.  [validate] predicts strict substitution: when it finds nothing
    missing, [substitute] in strict mode returns; when it finds names
    missing, [substitute] throws for the first of them, the first unresolved
    placeholder of the text; and when it throws itself, for variables one of
    which is named [hasOwnProperty], [substitute] throws the same. *)
Theorem validate_predicts_strict (text : string)
    (variables : gmap string JsValue) (options : SubstitutionOptions) :
  default false (strict options) = true →
  match validate text variables with
  | Ok (valid, []) =>
      valid = true ∧ ∃ out, substitute text variables options = Ok out
  | Ok (valid, name :: _) =>
      valid = false ∧
      substitute text variables options = Throw (MissingVariable name)
  | Throw e => substitute text variables options = Throw e
  end.
Proof.
  intros Hs. destruct (variables !! "hasOwnProperty") as [v|] eqn:Hown.
  - rewrite validate_shadowed by by eexists.
    destruct (extractPlaceholders text) as [|name l] eqn:Hp.
    + split; [done|]. exists text. by apply substitute_without_placeholders.
    + apply (substitute_shadowed _ _ _ name); [by eexists|].
      rewrite Hp. by left.
  - rewrite validate_own by done. cbv zeta. unfold substitute.
    pose proof (strict_replace_fold variables options (scan text) [] Hown Hs
                  (Forall_nil_2 _)) as H.
    fold (extractPlaceholders text) in H.
    destruct (filter _ (extractPlaceholders text)) as [|name rest]; by split.
Qed.

Lemma validate_predicts_strict_witness :
  default false
    (strict {| strict := Some true; keepPlaceholders := None;
               warnOnMissing := None |}) = true ∧
  match validate "Apply by {{deadline}}, {{first_name}} {{nickname}}"
          {[ "first_name" := JsString "Sarah" ]} with
  | Ok (valid, []) =>
      valid = true ∧
      ∃ out,
        substitute "Apply by {{deadline}}, {{first_name}} {{nickname}}"
          {[ "first_name" := JsString "Sarah" ]}
          {| strict := Some true; keepPlaceholders := None;
             warnOnMissing := None |} = Ok out
  | Ok (valid, name :: _) =>
      valid = false ∧
      substitute "Apply by {{deadline}}, {{first_name}} {{nickname}}"
        {[ "first_name" := JsString "Sarah" ]}
        {| strict := Some true; keepPlaceholders := None;
           warnOnMissing := None |} = Throw (MissingVariable name)
  | Throw e =>
      substitute "Apply by {{deadline}}, {{first_name}} {{nickname}}"
        {[ "first_name" := JsString "Sarah" ]}
        {| strict := Some true; keepPlaceholders := None;
           warnOnMissing := None |} = Throw e
  end.
Proof.
  split; [reflexivity|].
  apply (validate_predicts_strict
           "Apply by {{deadline}}, {{first_name}} {{nickname}}"
           {[ "first_name" := JsString "Sarah" ]}
           {| strict := Some true; keepPlaceholders := None;
              warnOnMissing := None |}).
  reflexivity.
Defined.

(** X4.  When [validate] finds a text valid, its substitution does not
    depend on the options: strict mode, [keepPlaceholders] and
    [warnOnMissing] bear on unresolved placeholders only. *)
Theorem substitute_valid_any_options (text : string)
    (variables : gmap string JsValue) (options1 options2 : SubstitutionOptions)
    (missing : list string) :
  validate text variables = Ok (true, missing) →
  substitute text variables options1 = substitute text variables options2.
Proof.
  destruct (variables !! "hasOwnProperty") as [v|] eqn:Hown.
  - rewrite validate_shadowed by by eexists.
    destruct (extractPlaceholders text) as [|name l] eqn:Hp; [|done].
    intros _. by rewrite !substitute_without_placeholders.
  - rewrite validate_own by done. cbv zeta.
    intros [= Hvalid%bool_decide_eq_true _].
    apply length_zero_iff_nil, filter_missing_nil in Hvalid.
    apply replace_ext. intros name Hin%elem_of_extractPlaceholders.
    rewrite Forall_forall in Hvalid. destruct (Hvalid name Hin) as [w Hw].
    rewrite !replacer_own by done. by rewrite Hw.
Qed.

Lemma substitute_valid_any_options_witness :
  validate "Dear {{title}} {{last_name}},"
    {[ "title" := JsString "Dr."; "last_name" := JsString "Mueller" ]} =
    Ok (true, []) ∧
  substitute "Dear {{title}} {{last_name}},"
    {[ "title" := JsString "Dr."; "last_name" := JsString "Mueller" ]}
    {| strict := Some true; keepPlaceholders := None; warnOnMissing := None |} =
  substitute "Dear {{title}} {{last_name}},"
    {[ "title" := JsString "Dr."; "last_name" := JsString "Mueller" ]}
    {| strict := None; keepPlaceholders := Some true; warnOnMissing := None |}.
Proof.
  split; [vm_compute; reflexivity|].
  apply (substitute_valid_any_options _ _ _ _ []). vm_compute. reflexivity.
Defined.

End validation.

(** ** Substitution and the blank line between blocks *)

Section joining.
Import VariableSubstitution.

(** A text that holds a prefix free of the character [c] before an
    occurrence of [c] holds the whole prefix before it. *)
Lemma prefix_before_char (q p r x : string) (c : ascii) :
  (∀ q1 q2, q ≠ q1 +:+ String c q2) →
  p +:+ String c x = q +:+ r →
  ∃ r', p = q +:+ r'.
Proof.
  revert p. induction q as [|e q IH]; intros p Hq; simpl.
  - intros _. by exists p.
  - destruct p as [|d p]; simpl; intros H.
    + injection H as -> _. destruct (Hq "" q). done.
    + injection H as -> H. destruct (IH p) as [r' ->]; [|done|by exists r'].
      intros q1 q2 ->. by destruct (Hq (String e q1) q2).
Qed.

(** A token holds no character that is neither a brace nor a word
    character. *)
Lemma token_no_char (name q1 q2 : string) (c : ascii) :
  all_word name = true →
  is_word_char c = false → c ≠ "{"%char → c ≠ "}"%char →
  "{{" +:+ name +:+ "}}" ≠ q1 +:+ String c q2.
Proof.
  intros Hw Hc Hopen Hclose Hq. simpl in Hq.
  destruct q1 as [|d1 q1]; simpl in Hq; [by injection Hq as <-|].
  injection Hq as _ Hq.
  destruct q1 as [|d2 q1]; simpl in Hq; [by injection Hq as <-|].
  injection Hq as _ Hq. revert q1 Hq.
  induction name as [|a name IH]; intros q1; simpl.
  - destruct q1 as [|e1 q1]; simpl; [by intros [= <-]|].
    intros [= _ Hq].
    destruct q1 as [|e2 q1]; simpl in Hq; [by injection Hq as <-|].
    injection Hq as _ Hq. by destruct q1.
  - apply andb_true_iff in Hw as [Ha Hw].
    destruct q1 as [|e q1]; simpl.
    + intros [= <- _]. congruence.
    + intros [= _ Hq]. by eapply IH.
Qed.

(** No match reaches over a character that is neither a brace nor a word
    character. *)
Lemma match_token_app_sep (pre x : string) (c : ascii) :
  is_word_char c = false → c ≠ "{"%char → c ≠ "}"%char →
  match_token pre = None → match_token (pre +:+ String c x) = None.
Proof.
  intros Hc Hopen Hclose Hnone.
  destruct (match_token (pre +:+ String c x)) as [[name rest]|] eqn:Hm; [|done].
  exfalso. apply match_token_Some in Hm as [Heq Hn].
  pose proof Hn as [_ Hw]%andb_true_iff.
  destruct (prefix_before_char ("{{" +:+ name +:+ "}}") pre rest x c)
    as [r' Hpre].
  - intros q1 q2. by apply token_no_char.
  - rewrite Heq. simpl. by rewrite append_assoc.
  - assert (match_token pre = Some (name, r')) as Hs.
    { apply match_token_Some. split; [|done].
      rewrite Hpre. simpl. by rewrite append_assoc. }
    congruence.
Qed.

(** The pattern cuts the texts on either side of such a character on
    their own. *)
Lemma scan_app_sep (pre x : string) (c : ascii) :
  is_word_char c = false → c ≠ "{"%char → c ≠ "}"%char →
  scan (pre +:+ String c x) = scan pre ++ Lit c :: scan x.
Proof.
  intros Hc Hopen Hclose.
  remember (String.length pre) as n eqn:Hlen. revert pre Hlen.
  induction n as [n IH] using lt_wf_ind. intros pre ->.
  rewrite (scan_step pre), (scan_step (pre +:+ _)).
  destruct (match_token pre) as [[m r]|] eqn:Hm.
  - rewrite (match_token_app_Some _ _ _ _ Hm). simpl. f_equal.
    eapply IH; [|done]. by eapply match_token_shorter.
  - rewrite match_token_app_sep by done.
    destruct pre as [|d pre]; simpl; [done|]. f_equal.
    eapply IH; [|done]. simpl. lia.
Qed.

Lemma substitute_join_aux (texts : list string)
    (variables : gmap string JsValue) (options : SubstitutionOptions) :
  substitute (join (String "010" (String "010" "")) texts) variables options =
    try! outs := substituteBatch texts variables options in
    Ok (join (String "010" (String "010" "")) outs).
Proof.
  induction texts as [|text texts IH]; [done|].
  destruct texts as [|text' texts].
  - simpl. destruct (substitute text variables options); simpl; [|done].
    done.
  - change (join _ (text :: text' :: texts))
      with (text +:+ String "010" (String "010" (join (String "010" (String "010" ""))
                                                     (text' :: texts)))).
    unfold substitute at 1.
    rewrite scan_app_sep by done.
    rewrite (scan_step (String "010" _)).
    change (match_token (String "010" ?x)) with (@None (string * string)).
    cbv iota.
    rewrite replace_app. cbn [replace app].
    fold (substitute text variables options).
    fold (substitute (join (String "010" (String "010" "")) (text' :: texts))
            variables options).
    rewrite IH. cbn [substituteBatch].
    destruct (substitute text variables options) as [out|]; simpl; [|done].
    destruct (substitute text' variables options) as [out'|]; simpl; [|done].
    destruct (substituteBatch texts variables options) as [outs|]; simpl; [|done].
    done.
Qed.

(** X5.  Substituting the blocks joined by a blank line is joining the
    substituted blocks: no token reaches over the separator, and the first
    exception of [substituteBatch] is the exception of the joined text. *)
Theorem substitute_join (texts : list string)
    (variables : gmap string JsValue) (options : SubstitutionOptions) :
  substitute (join (String "010" (String "010" "")) texts) variables options =
    try! outs := substituteBatch texts variables options in
    Ok (join (String "010" (String "010" "")) outs).
Proof. apply substitute_join_aux. Qed.

End joining.

(** ** The cache of the block selector *)

Section cache.
Import BlockSelector.

Lemma loadBlock_Some (disk : gmap string EmailBlock) (blockId : string)
    (self self' : t) (block : EmailBlock) :
  loadBlock disk blockId self = (Some block, self') →
  blocks self' !! blockId = Some block.
Proof.
  unfold loadBlock. destruct (blocks self !! blockId) as [b|] eqn:Hb.
  - by intros [= <- <-].
  - destruct (disk !! blockId) as [b|]; [|done].
    intros [= <- <-]. simpl. apply lookup_insert_eq.
Qed.

Lemma loadBlock_None (disk : gmap string EmailBlock) (blockId : string)
    (self self' : t) :
  loadBlock disk blockId self = (None, self') → self' = self.
Proof.
  unfold loadBlock. destruct (blocks self !! blockId) as [b|]; [done|].
  destruct (disk !! blockId) as [b|]; [done|]. by intros [= <-].
Qed.

(** X6.  A block that [loadBlock] returned is cached: every later
    [loadBlock] of the identifier returns the same block and leaves the
    selector as it is, whatever the directory holds by then. *)
Theorem loadBlock_cached (disk disk' : gmap string EmailBlock)
    (blockId : string) (self self' : t) (block : EmailBlock) :
  loadBlock disk blockId self = (Some block, self') →
  loadBlock disk' blockId self' = (Some block, self').
Proof.
  intros H%loadBlock_Some. unfold loadBlock. by rewrite H.
Qed.

Lemma loadBlock_cached_witness :
  loadBlock {[ "cta/buy-ticket" := Sample.cta_buy_ticket ]} "cta/buy-ticket"
    Sample.selector =
    (Some Sample.cta_buy_ticket,
     (loadBlock {[ "cta/buy-ticket" := Sample.cta_buy_ticket ]} "cta/buy-ticket"
        Sample.selector).2) ∧
  loadBlock ∅ "cta/buy-ticket"
    (loadBlock {[ "cta/buy-ticket" := Sample.cta_buy_ticket ]} "cta/buy-ticket"
       Sample.selector).2 =
    (Some Sample.cta_buy_ticket,
     (loadBlock {[ "cta/buy-ticket" := Sample.cta_buy_ticket ]} "cta/buy-ticket"
        Sample.selector).2).
Proof.
  assert (loadBlock {[ "cta/buy-ticket" := Sample.cta_buy_ticket ]}
            "cta/buy-ticket" Sample.selector =
          (Some Sample.cta_buy_ticket,
           (loadBlock {[ "cta/buy-ticket" := Sample.cta_buy_ticket ]}
              "cta/buy-ticket" Sample.selector).2)) as H
    by (vm_compute; reflexivity).
  split; [exact H|].
  exact (loadBlock_cached _ ∅ _ _ _ _ H).
Defined.

(** X7.  Selecting again what was just selected gives the same block and
    variant and changes the selector no further. *)
Theorem selectBlock_idempotent (disk : gmap string EmailBlock)
    (category : BlockCategory) (selector : string) (variantId : option string)
    (self : t) :
  let first := selectBlock disk category selector variantId self in
  selectBlock disk category selector variantId first.2 = first.
Proof.
  intros first. unfold first. rewrite !selectBlock_matched. cbn [snd].
  destruct (loadBlock disk (category_name category +:+ "/" +:+ selector) self)
    as [[block|] self'] eqn:Hload.
  - cbn [fst snd].
    assert (loadBlock disk (category_name category +:+ "/" +:+ selector) self' =
            (Some block, self')) as ->; [|done].
    unfold loadBlock. by rewrite (loadBlock_Some _ _ _ _ _ Hload).
  - cbn [fst snd]. apply loadBlock_None in Hload as Hself. subst self'.
    by rewrite Hload.
Qed.

(** X8.  What [selectBlock] returns is a variant of the block it returns,
    and a block that the selector holds afterwards: under the identifier
    [category/selector], or in the list of the category. *)
Theorem selectBlock_sound (disk : gmap string EmailBlock)
    (category : BlockCategory) (selector : string) (variantId : option string)
    (self self' : t) (block : EmailBlock) (variant : BlockVariant) :
  selectBlock disk category selector variantId self =
    (Some (block, variant), self') →
  variant ∈ block_variants block ∧
  (blocks self' !! (category_name category +:+ "/" +:+ selector) = Some block ∨
   block ∈ getBlocksByCategory self' category).
Proof.
  rewrite selectBlock_matched.
  destruct (loadBlock disk (category_name category +:+ "/" +:+ selector) self)
    as [loaded self1] eqn:Hload. cbn [fst snd].
  intros [= Hsel <-].
  destruct (or_else (or_else loaded _) _) as [b|] eqn:Hmatched;
    cbn [mbind option_bind] in Hsel; [|done].
  destruct (or_else (variantId ≫= _) _) as [v|] eqn:Hvariant;
    cbn [mbind option_bind] in Hsel; [|done].
  injection Hsel as -> ->. split.
  - destruct (variantId ≫= _) as [w|] eqn:Hfound; simpl in Hvariant.
    + injection Hvariant as ->.
      destruct variantId as [vid|]; [|done]. simpl in Hfound.
      case_bool_decide; [done|].
      apply find_some in Hfound as [Hin _]. by apply list_elem_of_In.
    + destruct (block_variants block) as [|v0 vs]; [done|].
      injection Hvariant as ->. by left.
  - destruct loaded as [b|]; simpl in Hmatched.
    + injection Hmatched as ->. left. by apply loadBlock_Some in Hload.
    + right. destruct (find _ _) as [b|] eqn:Hfind; simpl in Hmatched.
      * injection Hmatched as ->.
        apply find_some in Hfind as [Hin _]. by apply list_elem_of_In.
      * apply find_some in Hmatched as [Hin _]. by apply list_elem_of_In.
Qed.

Lemma selectBlock_sound_witness :
  selectBlock ∅ Cta "buy-ticket" (Some "ticket-early-bird") Sample.selector =
    (Some (Sample.cta_buy_ticket,
           {| variant_id := "ticket-early-bird";
              variant_text := "Early bird tickets until {{deadline}}: {{ticket_url}}";
              variant_placeholders := Some ["deadline"; "ticket_url"];
              variant_use_case := None |}),
     Sample.selector) ∧
  {| variant_id := "ticket-early-bird";
     variant_text := "Early bird tickets until {{deadline}}: {{ticket_url}}";
     variant_placeholders := Some ["deadline"; "ticket_url"];
     variant_use_case := None |} ∈ block_variants Sample.cta_buy_ticket ∧
  (blocks Sample.selector !! (category_name Cta +:+ "/" +:+ "buy-ticket") =
     Some Sample.cta_buy_ticket ∨
   Sample.cta_buy_ticket ∈ getBlocksByCategory Sample.selector Cta).
Proof.
  assert (selectBlock ∅ Cta "buy-ticket" (Some "ticket-early-bird")
            Sample.selector =
          (Some (Sample.cta_buy_ticket,
                 {| variant_id := "ticket-early-bird";
                    variant_text :=
                      "Early bird tickets until {{deadline}}: {{ticket_url}}";
                    variant_placeholders := Some ["deadline"; "ticket_url"];
                    variant_use_case := None |}),
           Sample.selector)) as H by (vm_compute; reflexivity).
  split; [exact H|].
  exact (selectBlock_sound _ _ _ _ _ _ _ _ H).
Defined.

(** X9.  [getBlockMetadata] loads the whole block: when it returns the
    metadata of a block, the block is cached under the identifier with all
    its variants, and the metadata are its identifier, category, tags and
    tone. *)
Theorem getBlockMetadata_caches (disk : gmap string EmailBlock)
    (blockId : string) (self self' : t) (metadata : BlockMetadata) :
  getBlockMetadata disk blockId self = (Some metadata, self') →
  ∃ block,
    blocks self' !! blockId = Some block ∧
    (blocks self !! blockId = None → disk !! blockId = Some block) ∧
    metadata =
      {| metadata_id := block_id block;
         metadata_category := block_category block;
         metadata_tags := block_tags block;
         metadata_tone := block_tone block |}.
Proof.
  unfold getBlockMetadata.
  destruct (loadBlock disk blockId self) as [[block|] self1] eqn:Hload; [|done].
  intros [= <- <-]. exists block. split; [by eapply loadBlock_Some|].
  split; [|done]. intros Hmiss. revert Hload. unfold loadBlock. rewrite Hmiss.
  destruct (disk !! blockId); [|done]. by intros [= ->].
Qed.

Lemma getBlockMetadata_caches_witness :
  getBlockMetadata {[ "cta/buy-ticket" := Sample.cta_buy_ticket ]}
    "cta/buy-ticket" new =
    (Some {| metadata_id := "cta-buy-ticket"; metadata_category := Cta;
             metadata_tags := ["buy-ticket"]; metadata_tone := None |},
     (getBlockMetadata {[ "cta/buy-ticket" := Sample.cta_buy_ticket ]}
        "cta/buy-ticket" new).2) ∧
  ∃ block,
    blocks (getBlockMetadata {[ "cta/buy-ticket" := Sample.cta_buy_ticket ]}
              "cta/buy-ticket" new).2 !! "cta/buy-ticket" = Some block ∧
    (blocks new !! "cta/buy-ticket" = None →
     ({[ "cta/buy-ticket" := Sample.cta_buy_ticket ]} : gmap string EmailBlock)
       !! "cta/buy-ticket" = Some block) ∧
    {| metadata_id := "cta-buy-ticket"; metadata_category := Cta;
       metadata_tags := ["buy-ticket"]; metadata_tone := None |} =
      {| metadata_id := block_id block;
         metadata_category := block_category block;
         metadata_tags := block_tags block;
         metadata_tone := block_tone block |}.
Proof.
  assert (getBlockMetadata {[ "cta/buy-ticket" := Sample.cta_buy_ticket ]}
            "cta/buy-ticket" new =
          (Some {| metadata_id := "cta-buy-ticket"; metadata_category := Cta;
                   metadata_tags := ["buy-ticket"]; metadata_tone := None |},
           (getBlockMetadata {[ "cta/buy-ticket" := Sample.cta_buy_ticket ]}
              "cta/buy-ticket" new).2)) as H by (vm_compute; reflexivity).
  split; [exact H|].
  exact (getBlockMetadata_caches _ _ _ _ _ H).
Defined.

Lemma extends_refl (self : t) : extends self self.
Proof. split; [done|]. intros k. done. Qed.

Lemma extends_trans (a b c : t) : extends a b → extends b c → extends a c.
Proof.
  intros [Hab1 Hab2] [Hbc1 Hbc2]. split; [by etrans|].
  intros k. etrans; [apply Hab2|apply Hbc2].
Qed.

Lemma loadBlock_extends (disk : gmap string EmailBlock) (blockId : string)
    (self : t) :
  extends self (loadBlock disk blockId self).2.
Proof.
  unfold loadBlock. destruct (blocks self !! blockId) as [b|] eqn:Hb;
    [apply extends_refl|].
  destruct (disk !! blockId) as [b|]; [|apply extends_refl].
  split; simpl.
  - by apply insert_subseteq.
  - intros k. rewrite lookup_insert. case_decide as Hk; [|done].
    subst k. simpl. unfold getBlocksByCategory. by apply prefix_app_r.
Qed.

Lemma selectBlock_extends (disk : gmap string EmailBlock)
    (category : BlockCategory) (selector : string) (variantId : option string)
    (self : t) :
  extends self (selectBlock disk category selector variantId self).2.
Proof. rewrite selectBlock_matched. apply loadBlock_extends. Qed.

End cache.

(** ** What composing leaves behind *)

Section state.
Import VariableSubstitution EmailComposer.

Lemma selectBlock_any_extends (disk : gmap string EmailBlock)
    (category : BlockCategory) (selector : JsValue) (variantId : option string)
    (self : BlockSelector.t) :
  extends self (BlockSelector.selectBlock_any disk category selector variantId self).2.
Proof.
  unfold BlockSelector.selectBlock_any.
  pose proof (loadBlock_extends disk
                (category_name category +:+ "/" +:+ to_String selector) self) as H.
  by destruct (BlockSelector.loadBlock _ _ _) as [block self'].
Qed.

(** When the read of the file of a waiting call ends, the selector keeps
    what it holds, and the other waiting calls still read what the cache
    has. *)
Lemma resume_extends (disk : gmap string EmailBlock)
    (category : BlockCategory) (s : string) (calls : list call)
    (self : BlockSelector.t) :
  reads_cached disk category self (Reading s) →
  Forall (reads_cached disk category self) calls →
  extends self (resume disk category s self).2 ∧
  Forall (reads_cached disk category (resume disk category s self).2) calls.
Proof.
  intros Hs Hcalls. unfold resume, BlockSelector.loadBlock_resumed.
  destruct (disk !! (category_name category +:+ "/" +:+ s)) as [block|] eqn:Hdisk;
    simpl; [|split; [apply extends_refl|done]].
  split.
  - split; simpl.
    + destruct (BlockSelector.blocks self !! (category_name category +:+ "/" +:+ s))
        as [b|] eqn:Hb; [|by apply insert_subseteq].
      rewrite (Hs b Hb) in Hdisk. injection Hdisk as ->.
      by rewrite insert_id.
    + intros k. rewrite lookup_insert. case_decide as Hk; [|done].
      subst k. simpl. unfold BlockSelector.getBlocksByCategory.
      by apply prefix_app_r.
  - eapply Forall_impl; [exact Hcalls|].
    intros [r|s'] Hc; [done|]. simpl in *. intros b.
    rewrite lookup_insert. case_decide as Hk.
    + intros [= <-]. by rewrite <- Hk.
    + apply Hc.
Qed.

Lemma settle_extends (disk : gmap string EmailBlock)
    (category : BlockCategory) (order : list nat) (calls : list call)
    (self : BlockSelector.t) :
  Forall (reads_cached disk category self) calls →
  let settled := foldl (settle disk category) (calls, self) order in
  extends self settled.2 ∧
  Forall (reads_cached disk category settled.2) settled.1.
Proof.
  revert calls self. induction order as [|i order IH]; intros calls self H.
  - split; [apply extends_refl|done].
  - simpl. destruct (calls !! i) as [[r|s]|] eqn:Hi; try by apply IH.
    destruct (resume_extends disk category s calls self) as [Hx Hcalls];
      [by apply (Forall_lookup_1 _ _ _ _ H Hi)|done|].
    destruct (resume disk category s self) as [result self1]. simpl in *.
    destruct (IH (<[i := Resolved result]> calls) self1) as [Hx' H'];
      [by apply Forall_insert|].
    split; [by eapply extends_trans|done].
Qed.

Lemma settleAll_extends (disk : gmap string EmailBlock)
    (category : BlockCategory) (calls : list call) (self : BlockSelector.t) :
  Forall (reads_cached disk category self) calls →
  extends self (settleAll disk category calls self).2.
Proof.
  revert self. induction calls as [|[r|s] calls IH]; intros self H; simpl.
  - apply extends_refl.
  - apply Forall_cons in H as [_ H]. specialize (IH self H).
    by destruct (settleAll _ _ calls self) as [rs self'].
  - apply Forall_cons in H as [Hs H].
    destruct (resume_extends disk category s calls self Hs H) as [Hx Hcalls].
    destruct (resume disk category s self) as [result self1]. simpl in *.
    specialize (IH self1 Hcalls).
    destruct (settleAll _ _ calls self1) as [rs self'].
    by eapply extends_trans.
Qed.

Lemma selectEach_extends (disk : gmap string EmailBlock) (order : list nat)
    (category : BlockCategory) (selectors : list string)
    (self : BlockSelector.t) :
  extends self (selectEach disk order category selectors self).2.
Proof.
  unfold selectEach.
  destruct (settle_extends disk category order
              (start category self <$> selectors) self) as [Hx Hcalls].
  { apply Forall_fmap, Forall_true. intros s. unfold start. simpl.
    destruct (BlockSelector.blocks self !! _) as [block|] eqn:Hb; [done|].
    simpl. intros b. by rewrite Hb. }
  destruct (foldl _ _ order) as [calls self1]. simpl in *.
  eapply extends_trans; [exact Hx|]. by apply settleAll_extends.
Qed.

Lemma selectBlocks_extends (disk : gmap string EmailBlock) (order : list nat)
    (audienceConfig : Property AudienceConfig.t) (tone : option EmailTone)
    (options : EmailCompositionOptions.t) (self : BlockSelector.t) :
  extends self (selectBlocks disk order audienceConfig tone options self).2.
Proof.
  unfold selectBlocks.
  repeat match goal with
  | |- context [BlockSelector.selectBlock_any ?d ?c ?s None ?x] =>
      let H := fresh "H" in
      pose proof (selectBlock_any_extends d c s None x) as H;
      destruct (BlockSelector.selectBlock_any d c s None x) as [? ?]
  | |- context [selectEach ?d ?o ?c ?l ?x] =>
      let H := fresh "H" in
      pose proof (selectEach_extends d o c l x) as H;
      destruct (selectEach d o c l x) as [? ?]
  end.
  cbn [fst snd] in *. eauto 10 using extends_trans.
Qed.

Lemma composeEmail_state (disk : gmap string EmailBlock) (order : list nat)
    (contact : ContactData.t) (options : EmailCompositionOptions.t)
    (self : EmailComposer.t) :
  let self' := (composeEmail disk order contact options self).2 in
  audienceConfigs self' = audienceConfigs self ∧
  eventDetails self' = eventDetails self ∧
  extends (blockSelector self) (blockSelector self').
Proof.
  assert (read (audienceConfigs self) (ContactData.audience_type contact) =
            Undefined ∨
          read (audienceConfigs self) (ContactData.audience_type contact) ≠
            Undefined) as [Hnone|Hfound]
    by (destruct (read _ _); auto).
  - rewrite composeEmail_undefined by done. simpl.
    split; [done|]. split; [done|]. apply extends_refl.
  - rewrite composeEmail_found by done. simpl.
    split; [done|]. split; [done|]. apply selectBlocks_extends.
Qed.

Lemma composeBatch_keeps (disk : gmap string EmailBlock)
    (orders : nat → list nat) (contacts : list ContactData.t)
    (globalOptions : EmailCompositionOptions.t)
    (perContactOptions : option (gmap string EmailCompositionOptions.t))
    (self : EmailComposer.t) :
  let self' :=
    (composeBatch disk orders contacts globalOptions perContactOptions self).2 in
  audienceConfigs self' = audienceConfigs self ∧
  eventDetails self' = eventDetails self ∧
  extends (blockSelector self) (blockSelector self').
Proof.
  revert orders self.
  induction contacts as [|contact contacts IH]; intros orders self.
  - simpl. split; [done|]. split; [done|]. apply extends_refl.
  - rewrite (composeBatch_app _ _ _ _ [contact] contacts). cbv zeta. cbn [snd].
    rewrite composeBatch_one. cbn [snd].
    destruct (IH (λ k, orders (length [contact] + k))
                (composeEmail disk (orders 0) contact
                   (effectiveOptions globalOptions perContactOptions contact)
                   self).2) as (Ha & He & Hx).
    destruct (composeEmail_state disk (orders 0) contact
                (effectiveOptions globalOptions perContactOptions contact) self)
      as (Ha1 & He1 & Hx1).
    split; [congruence|]. split; [congruence|]. by eapply extends_trans.
Qed.

(** X10.  A batch leaves the audience configuration and the event details
    of the composer as they were, and of the block selector it only extends
    the cache, in whatever order the reads of the files end: no cached block
    is dropped or replaced, and the list of a category only grows at its
    end. *)
Theorem composeBatch_state (disk : gmap string EmailBlock)
    (orders : nat → list nat) (contacts : list ContactData.t)
    (globalOptions : EmailCompositionOptions.t)
    (perContactOptions : option (gmap string EmailCompositionOptions.t))
    (self : EmailComposer.t) :
  let self' :=
    (composeBatch disk orders contacts globalOptions perContactOptions self).2 in
  audienceConfigs self' = audienceConfigs self ∧
  eventDetails self' = eventDetails self ∧
  extends (blockSelector self) (blockSelector self').
Proof. apply composeBatch_keeps. Qed.

(** A substitution that throws either has variables that hide the method,
    and throws the error of its call; or was strict, and throws for a
    placeholder of the text that the variables do not have. *)
Lemma substitute_Throw (text : string) (variables : gmap string JsValue)
    (options : SubstitutionOptions) (e : Error) :
  substitute text variables options = Throw e →
  (is_Some (variables !! "hasOwnProperty") ∧
   e = NotAFunction "variables.hasOwnProperty") ∨
  (variables !! "hasOwnProperty" = None ∧
   default false (strict options) = true ∧
   ∃ name, e = MissingVariable name ∧
           name ∈ extractPlaceholders text ∧ variables !! name = None).
Proof.
  destruct (variables !! "hasOwnProperty") as [v|] eqn:Hown.
  { intros He. left. split; [by eexists|].
    destruct (extractPlaceholders text) as [|name l] eqn:Hp.
    - by rewrite substitute_without_placeholders in He.
    - rewrite (substitute_shadowed _ _ _ name) in He;
        [congruence|by rewrite Hown|rewrite Hp; by left]. }
  intros He. right. split; [done|]. revert He. unfold substitute.
  assert (∀ l, replace (replacer variables options) l = Throw e →
            default false (strict options) = true ∧
            ∃ name, e = MissingVariable name ∧
                    Tok name ∈ l ∧ variables !! name = None) as H.
  { induction l as [|[c|n] l IH]; cbn [replace]; [done|..].
    - destruct (replace _ l) as [out|e'] eqn:Hl; simpl; [done|].
      intros [= ->]. destruct (IH eq_refl) as (Hs & name & -> & Hin & Hn).
      split; [done|]. exists name. split; [done|]. split; [by right|done].
    - rewrite replacer_own by done.
      destruct (variables !! n) as [w|] eqn:Hn; simpl.
      + destruct (replace _ l) as [out|e'] eqn:Hl; simpl; [done|].
        intros [= ->]. destruct (IH eq_refl) as (Hs & name & -> & Hin & Hm).
        split; [done|]. exists name. split; [done|]. split; [by right|done].
      + destruct (default false (strict options)) eqn:Hs; simpl.
        * intros [= <-]. split; [done|]. exists n.
          split; [done|]. split; [by left|done].
        * destruct (replace _ l) as [out|e'] eqn:Hl; simpl; [done|].
          intros [= ->]. by destruct (IH eq_refl) as (? & _). }
  intros (Hs & name & -> & Hin & Hn)%H. split; [done|].
  exists name. split; [done|]. split; [|done].
  by apply elem_of_extractPlaceholders.
Qed.

Lemma each_Throw {A B} (f : A → Result B) (l : list A) (e : Error) :
  each f l = Throw e → ∃ x, x ∈ l ∧ f x = Throw e.
Proof.
  induction l as [|x l IH]; simpl; [done|].
  destruct (f x) as [y|e'] eqn:Hx; simpl.
  - destruct (each f l) as [ys|e']; simpl; [done|].
    intros [= ->]. destruct (IH eq_refl) as (z & Hz & Hfz).
    exists z. split; [by right|done].
  - intros [= ->]. exists x. split; [by left|done].
Qed.

(** An exception of [generateSubject] is the error of the call of the
    method that a field of the contact hides. *)
Lemma generateSubject_Throw (self : t) (audienceType : string)
    (contact : ContactData.t) (e : Error) :
  generateSubject self audienceType contact = Throw e →
  is_Some (prepareVariables self contact EmailCompositionOptions.empty
             !! "hasOwnProperty") ∧
  e = NotAFunction "variables.hasOwnProperty".
Proof.
  unfold generateSubject. case_bool_decide; [|done].
  destruct (substitute _ _ _) as [subject|e'] eqn:Hs; simpl; [done|].
  intros [= ->]. by apply substitute_Throw in Hs as [?|(_ & [=] & _)].
Qed.

(** X11.  Where an error of [composeEmail] comes from: either the
    configuration yields nothing for the audience type of the contact, and
    the error is the unknown audience; or the prepared variables have one
    named [hasOwnProperty], and the error is that of calling it; or the
    options are strict, and the error names a placeholder of the text of a
    selected variant that the prepared variables do not have. *)
Theorem composeEmail_error (disk : gmap string EmailBlock) (order : list nat)
    (contact : ContactData.t) (options : EmailCompositionOptions.t)
    (self : EmailComposer.t) (e : Error) :
  (composeEmail disk order contact options self).1 = Throw e →
  let audienceConfig :=
    getAudienceConfig self (ContactData.audience_type contact) in
  let variables := prepareVariables self contact options in
  (audienceConfig = Undefined ∧
   e = UnknownAudience (ContactData.audience_type contact)) ∨
  (audienceConfig ≠ Undefined ∧
   is_Some (variables !! "hasOwnProperty") ∧
   e = NotAFunction "variables.hasOwnProperty") ∨
  (audienceConfig ≠ Undefined ∧
   variables !! "hasOwnProperty" = None ∧
   default false (EmailCompositionOptions.strict options) = true ∧
   ∃ bv name,
     bv ∈ picked (selectBlocks disk order audienceConfig
                    (BlockSelector.or_else (EmailCompositionOptions.tone options)
                       (dot AudienceConfig.tone audienceConfig))
                    options (blockSelector self)).1 ∧
     e = MissingVariable name ∧
     name ∈ extractPlaceholders (variant_text bv.2) ∧
     variables !! name = None).
Proof.
  intros He audienceConfig variables. unfold audienceConfig, getAudienceConfig.
  assert (read (audienceConfigs self) (ContactData.audience_type contact) =
            Undefined ∨
          read (audienceConfigs self) (ContactData.audience_type contact) ≠
            Undefined) as [Hnone|Hfound]
    by (destruct (read _ _); auto).
  { rewrite composeEmail_undefined in He by done. injection He as <-.
    by left. }
  right. rewrite composeEmail_found in He by done. cbn [fst] in He.
  destruct (each _ _) as [blocks|e'] eqn:Heach; simpl in He.
  - destruct (generateSubject _ _ _) as [subject|e'] eqn:Hsubject;
      simpl in He; [done|].
    injection He as ->.
    apply generateSubject_Throw in Hsubject as [Hmethod ->].
    left. split; [done|]. split; [|done].
    destruct (variables !! "hasOwnProperty") as [v|] eqn:Hv; [by eexists|].
    apply prepareVariables_without_options in Hv.
    rewrite Hv in Hmethod. by destruct Hmethod.
  - injection He as ->.
    apply each_Throw in Heach as (bv & Hbv & Hthrow).
    apply substitute_Throw in Hthrow
      as [[Hmethod ->]|(Hown & Hs & name & -> & Hin & Hn)].
    + left. by split.
    + right. split; [done|]. split; [done|]. split; [done|].
      by exists bv, name.
Qed.

Lemma composeEmail_error_witness :
  (composeEmail ∅ [] Sample.stranger EmailCompositionOptions.empty
     Sample.composer).1 =
    Throw (UnknownAudience "aliens") ∧
  let audienceConfig :=
    getAudienceConfig Sample.composer
      (ContactData.audience_type Sample.stranger) in
  let variables :=
    prepareVariables Sample.composer Sample.stranger
      EmailCompositionOptions.empty in
  (audienceConfig = Undefined ∧
   UnknownAudience "aliens" =
     UnknownAudience (ContactData.audience_type Sample.stranger)) ∨
  (audienceConfig ≠ Undefined ∧
   is_Some (variables !! "hasOwnProperty") ∧
   UnknownAudience "aliens" = NotAFunction "variables.hasOwnProperty") ∨
  (audienceConfig ≠ Undefined ∧
   variables !! "hasOwnProperty" = None ∧
   default false
     (EmailCompositionOptions.strict EmailCompositionOptions.empty) = true ∧
   ∃ bv name,
     bv ∈ picked (selectBlocks ∅ [] audienceConfig
                    (BlockSelector.or_else
                       (EmailCompositionOptions.tone
                          EmailCompositionOptions.empty)
                       (dot AudienceConfig.tone audienceConfig))
                    EmailCompositionOptions.empty
                    (blockSelector Sample.composer)).1 ∧
     UnknownAudience "aliens" = MissingVariable name ∧
     name ∈ extractPlaceholders (variant_text bv.2) ∧
     variables !! name = None).
Proof.
  assert ((composeEmail ∅ [] Sample.stranger EmailCompositionOptions.empty
             Sample.composer).1 = Throw (UnknownAudience "aliens")) as H
    by (vm_compute; reflexivity).
  split; [exact H|].
  exact (composeEmail_error _ _ _ _ _ _ H).
Defined.

End state.

(** ** Named variables and lenient composition *)

Section named.
Import VariableSubstitution EmailComposer.

Lemma namedVariables_defined (self : EmailComposer.t) (contact : ContactData.t)
    (k : string) :
  k ∈ namedKeys → is_Some (namedVariables self contact !! k).
Proof.
  unfold namedKeys, namedVariables, object. cbn [foldl fst snd].
  intros Hk.
  repeat (apply elem_of_cons in Hk as [->|Hk];
    [repeat (apply lookup_insert_is_Some'; first [by left|right])|]).
  by apply elem_of_nil in Hk.
Qed.

Lemma prepareVariables_named (self : EmailComposer.t) (contact : ContactData.t)
    (options : EmailCompositionOptions.t) (k : string) :
  k ∈ namedKeys → is_Some (prepareVariables self contact options !! k).
Proof.
  intros [v Hv]%(namedVariables_defined self contact).
  unfold prepareVariables, spread. rewrite !lookup_union, Hv.
  generalize (additionalFields contact !! k).
  generalize ((JsString <$>
                 default ∅ (EmailCompositionOptions.customVariables options)) !! k).
  intros [?|] [?|]; by eexists.
Qed.

Lemma replace_present (variables : gmap string JsValue) (l : list piece) :
  variables !! "hasOwnProperty" = None →
  (∀ name, Tok name ∈ l → is_Some (variables !! name)) →
  ∃ out, ∀ options, replace (replacer variables options) l = Ok out.
Proof.
  intros Hown. induction l as [|[c|n] l IH]; intros H; cbn [replace].
  - by eexists.
  - destruct IH as [out IH]; [intros; apply H; by right|].
    eexists. intros options. by rewrite IH.
  - destruct IH as [out IH]; [intros; apply H; by right|].
    destruct (H n) as [v Hv]; [by left|].
    eexists. intros options. rewrite replacer_own by done.
    rewrite Hv, IH. done.
Qed.

(** X12.  Every named variable is defined for every contact, so a text
    whose placeholders are all named variables is substituted without an
    exception under any options, when no prepared variable is named
    [hasOwnProperty]: strict mode does not notice a contact that lacks, say,
    its first name. *)
Theorem named_placeholders_never_throw (self : EmailComposer.t)
    (contact : ContactData.t) (options : EmailCompositionOptions.t)
    (text : string) :
  prepareVariables self contact options !! "hasOwnProperty" = None →
  (∀ name, name ∈ extractPlaceholders text → name ∈ namedKeys) →
  ∃ out, ∀ substitution,
    substitute text (prepareVariables self contact options) substitution =
      Ok out.
Proof.
  intros Hown H. apply replace_present; [done|].
  intros name Hin%elem_of_extractPlaceholders.
  by apply prepareVariables_named, H.
Qed.

Lemma named_placeholders_never_throw_witness :
  prepareVariables Sample.composer Sample.stranger EmailCompositionOptions.empty
    !! "hasOwnProperty" = None ∧
  (∀ name, name ∈ extractPlaceholders "Dear {{first_name}} {{last_name}}," →
           name ∈ namedKeys) ∧
  ∃ out, ∀ substitution,
    substitute "Dear {{first_name}} {{last_name}},"
      (prepareVariables Sample.composer Sample.stranger
         EmailCompositionOptions.empty) substitution = Ok out.
Proof.
  assert (prepareVariables Sample.composer Sample.stranger
            EmailCompositionOptions.empty !! "hasOwnProperty" = None) as Hown
    by (vm_compute; reflexivity).
  assert (∀ name, name ∈ extractPlaceholders "Dear {{first_name}} {{last_name}}," →
                  name ∈ namedKeys) as H.
  { intros name Hin.
    replace (extractPlaceholders "Dear {{first_name}} {{last_name}},")
      with ["first_name"; "last_name"] in Hin by (vm_compute; reflexivity).
    apply elem_of_cons in Hin as [->|Hin];
      [apply (bool_decide_unpack _); vm_compute; exact I|].
    apply list_elem_of_singleton in Hin as ->.
    apply (bool_decide_unpack _). vm_compute. exact I. }
  split; [exact Hown|]. split; [exact H|].
  exact (named_placeholders_never_throw Sample.composer Sample.stranger
           EmailCompositionOptions.empty _ Hown H).
Defined.

Lemma each_lenient (variables : gmap string JsValue)
    (options : EmailCompositionOptions.t) (l : list (EmailBlock * BlockVariant)) :
  variables !! "hasOwnProperty" = None →
  default false (EmailCompositionOptions.strict options) = false →
  ∃ texts, each (substituted variables options) l = Ok texts.
Proof.
  intros Hown Hs. induction l as [|bv l [texts IH]]; simpl; [by eexists|].
  destruct (substitute_lenient (variant_text bv.2) variables
              (EmailCompositionOptions.substitution options) Hown Hs)
    as [text Htext].
  unfold substituted at 1. rewrite Htext, IH. by eexists.
Qed.

(** Outside strict mode, and when no prepared variable is named
    [hasOwnProperty], [composeEmail] returns an email for every audience
    type that the configuration yields something for. *)
Lemma composeEmail_returns (disk : gmap string EmailBlock) (order : list nat)
    (contact : ContactData.t) (options : EmailCompositionOptions.t)
    (self : EmailComposer.t) :
  default false (EmailCompositionOptions.strict options) = false →
  prepareVariables self contact options !! "hasOwnProperty" = None →
  read (audienceConfigs self) (ContactData.audience_type contact) ≠ Undefined →
  ∃ email, (composeEmail disk order contact options self).1 = Ok email.
Proof.
  intros Hs Hown Hfound. rewrite composeEmail_found by done. cbn [fst].
  destruct (each_lenient (prepareVariables self contact options) options
              (picked (selectBlocks disk order
                         (read (audienceConfigs self)
                            (ContactData.audience_type contact))
                         (BlockSelector.or_else
                            (EmailCompositionOptions.tone options)
                            (dot AudienceConfig.tone
                               (read (audienceConfigs self)
                                  (ContactData.audience_type contact))))
                         options (blockSelector self)).1) Hown Hs)
    as [texts ->].
  destruct (generateSubject_returns self (ContactData.audience_type contact)
              contact) as [subject ->];
    [by apply prepareVariables_without_options in Hown|].
  by eexists.
Qed.

(** X13.  Outside strict mode, and when no prepared variable is named
    [hasOwnProperty], [composeEmail] returns an email exactly when
    [getAudienceConfig] yields something for the audience type of the
    contact: no block that is missing and no variable that is missing makes
    it fail. *)
Theorem composeEmail_lenient (disk : gmap string EmailBlock) (order : list nat)
    (contact : ContactData.t) (options : EmailCompositionOptions.t)
    (self : EmailComposer.t) :
  default false (EmailCompositionOptions.strict options) = false →
  prepareVariables self contact options !! "hasOwnProperty" = None →
  (∃ email, (composeEmail disk order contact options self).1 = Ok email) ↔
  getAudienceConfig self (ContactData.audience_type contact) ≠ Undefined.
Proof.
  intros Hs Hown. unfold getAudienceConfig. split.
  - intros [email Hemail] Hnone.
    by rewrite composeEmail_undefined in Hemail.
  - by apply composeEmail_returns.
Qed.

Lemma composeEmail_lenient_witness :
  default false
    (EmailCompositionOptions.strict EmailCompositionOptions.empty) = false ∧
  prepareVariables Sample.composer Sample.andreas EmailCompositionOptions.empty
    !! "hasOwnProperty" = None ∧
  ((∃ email, (composeEmail ∅ [] Sample.andreas EmailCompositionOptions.empty
                Sample.composer).1 = Ok email) ↔
   getAudienceConfig Sample.composer
     (ContactData.audience_type Sample.andreas) ≠ Undefined).
Proof.
  assert (prepareVariables Sample.composer Sample.andreas
            EmailCompositionOptions.empty !! "hasOwnProperty" = None) as Hown
    by (vm_compute; reflexivity).
  split; [reflexivity|]. split; [exact Hown|].
  apply composeEmail_lenient; [reflexivity|exact Hown].
Defined.

End named.

(** ** Lenient batches *)

Section lenient.
Import VariableSubstitution EmailComposer.

(** The prepared variables depend on the composer by its event details
    only. *)
Lemma prepareVariables_eventDetails (self self' : EmailComposer.t)
    (contact : ContactData.t) (options : EmailCompositionOptions.t) :
  eventDetails self' = eventDetails self →
  prepareVariables self' contact options = prepareVariables self contact options.
Proof.
  intros H. unfold prepareVariables, namedVariables, eventField. by rewrite H.
Qed.

(** X14.  When neither the global options nor any per-contact options
    are strict, and the variables prepared for a contact have none named
    [hasOwnProperty], the result of the batch for the contact has an error
    exactly when the configuration yields nothing for its audience type, and
    the error is the unknown audience of the contact. *)
Theorem composeBatch_lenient_errors (disk : gmap string EmailBlock)
    (orders : nat → list nat) (contacts : list ContactData.t)
    (globalOptions : EmailCompositionOptions.t)
    (perContactOptions : option (gmap string EmailCompositionOptions.t))
    (self : EmailComposer.t) (k : nat) (contact : ContactData.t) :
  default false (EmailCompositionOptions.strict globalOptions) = false →
  map_Forall
    (λ _ options, default false (EmailCompositionOptions.strict options) = false)
    (default ∅ perContactOptions) →
  contacts !! k = Some contact →
  prepareVariables self contact
    (effectiveOptions globalOptions perContactOptions contact)
    !! "hasOwnProperty" = None →
  BatchEmailResult.error <$>
    (composeBatch disk orders contacts globalOptions perContactOptions self).1 !! k =
    Some
      match getAudienceConfig self (ContactData.audience_type contact) with
      | Undefined => Some (UnknownAudience (ContactData.audience_type contact))
      | Own _ | Inherited _ => None
      end.
Proof.
  intros Hglobal Hper Hk Hown.
  rewrite (composeBatch_lookup _ _ _ _ _ _ _ _ Hk).
  cbn [fmap option_fmap option_map]. f_equal.
  set (before := (composeBatch disk orders (take k contacts) globalOptions
                    perContactOptions self).2).
  set (options := effectiveOptions globalOptions perContactOptions contact) in *.
  assert (default false (EmailCompositionOptions.strict options) = false) as Hs.
  { unfold options, effectiveOptions.
    destruct perContactOptions as [perContact|]; simpl; [|done].
    destruct (perContact !! ContactData.email contact) as [o|] eqn:Ho; [|done].
    simpl. by eapply (Hper _ o). }
  destruct (composeBatch_keeps disk orders (take k contacts) globalOptions
              perContactOptions self) as (Hsame & Hevent & _).
  fold before in Hsame, Hevent.
  rewrite <- (prepareVariables_eventDetails self before) in Hown by done.
  unfold getAudienceConfig. rewrite <- Hsame.
  destruct (read (audienceConfigs before) (ContactData.audience_type contact))
    as [audienceConfig|name|] eqn:Hcfg.
  - destruct (composeEmail_returns disk (orders k) contact options before Hs Hown)
      as [email ->]; [by rewrite Hcfg|done].
  - destruct (composeEmail_returns disk (orders k) contact options before Hs Hown)
      as [email ->]; [by rewrite Hcfg|done].
  - by rewrite composeEmail_undefined.
Qed.

Lemma composeBatch_lenient_errors_witness :
  default false
    (EmailCompositionOptions.strict EmailCompositionOptions.empty) = false ∧
  map_Forall
    (λ _ options, default false (EmailCompositionOptions.strict options) = false)
    (default (∅ : gmap string EmailCompositionOptions.t) None) ∧
  [Sample.andreas; Sample.stranger; Sample.andreas] !! 1 = Some Sample.stranger ∧
  prepareVariables Sample.composer Sample.stranger
    (effectiveOptions EmailCompositionOptions.empty None Sample.stranger)
    !! "hasOwnProperty" = None ∧
  BatchEmailResult.error <$>
    (composeBatch ∅ (λ _, []) [Sample.andreas; Sample.stranger; Sample.andreas]
       EmailCompositionOptions.empty None Sample.composer).1 !! 1 =
    Some
      match getAudienceConfig Sample.composer
              (ContactData.audience_type Sample.stranger) with
      | Undefined =>
          Some (UnknownAudience (ContactData.audience_type Sample.stranger))
      | Own _ | Inherited _ => None
      end.
Proof.
  assert (map_Forall
            (λ _ options,
               default false (EmailCompositionOptions.strict options) = false)
            (default (∅ : gmap string EmailCompositionOptions.t) None)) as H
    by apply map_Forall_empty.
  assert (prepareVariables Sample.composer Sample.stranger
            (effectiveOptions EmailCompositionOptions.empty None Sample.stranger)
            !! "hasOwnProperty" = None) as Hown
    by (vm_compute; reflexivity).
  split; [reflexivity|]. split; [exact H|]. split; [reflexivity|].
  split; [exact Hown|].
  exact (composeBatch_lenient_errors ∅ (λ _, [])
           [Sample.andreas; Sample.stranger; Sample.andreas]
           EmailCompositionOptions.empty None Sample.composer 1 Sample.stranger
           eq_refl H eq_refl Hown).
Defined.

End lenient.

(** ** Loading the directories *)

Section directories.
Import BlockSelector.

Lemma category_name_inj (c c' : BlockCategory) :
  category_name c = category_name c' → c = c'.
Proof. by destruct c, c'. Qed.

Lemma getBlocksByCategory_store (category c : BlockCategory)
    (block : EmailBlock) (self : t) :
  getBlocksByCategory (store category block self) c =
    getBlocksByCategory self c ++ (if decide (category = c) then [block] else []).
Proof.
  unfold getBlocksByCategory, store. simpl. rewrite lookup_insert.
  case_decide as Hn.
  - apply category_name_inj in Hn as ->. by rewrite decide_True.
  - rewrite decide_False by congruence. by rewrite app_nil_r.
Qed.

Lemma getBlocksByCategory_loadFiles (category c : BlockCategory)
    (files : list (string * option EmailBlock)) (self : t) :
  getBlocksByCategory (loadFiles category files self) c =
    getBlocksByCategory self c ++
      (if decide (category = c) then readable files else []).
Proof.
  revert self. induction files as [|[name [block|]] files IH]; intros self; simpl.
  - case_decide; by rewrite app_nil_r.
  - rewrite IH, getBlocksByCategory_store.
    case_decide; by rewrite <- app_assoc.
  - case_decide; by rewrite app_nil_r.
Qed.

Lemma getBlocksByCategory_fold
    (dirs : gmap string (list (string * option EmailBlock)))
    (cats : list BlockCategory) (c : BlockCategory) (self : t) :
  NoDup cats →
  getBlocksByCategory
    (foldl (λ self category,
              match dirs !! category_name category with
              | Some files =>
                  let jsonFiles := filter (λ f, endsWith f.1 ".json") files in
                  loadFiles category jsonFiles self
              | None => self
              end) self cats) c =
    getBlocksByCategory self c ++
      (if decide (c ∈ cats)
       then readable (filter (λ f, endsWith f.1 ".json")
                        (default [] (dirs !! category_name c)))
       else []).
Proof.
  intros Hnd. revert self.
  induction Hnd as [|category cats Hnotin Hnd IH]; intros self; simpl.
  - by rewrite app_nil_r.
  - rewrite IH.
    destruct (decide (category = c)) as [->|Hne].
    + rewrite (decide_False (P := c ∈ cats)) by done.
      rewrite (decide_True (P := c ∈ c :: cats)) by left.
      rewrite app_nil_r.
      destruct (dirs !! category_name c) as [files|]; simpl.
      * by rewrite getBlocksByCategory_loadFiles, decide_True.
      * by rewrite app_nil_r.
    + assert (getBlocksByCategory
                match dirs !! category_name category with
                | Some files =>
                    loadFiles category
                      (filter (λ f, endsWith f.1 ".json") files) self
                | None => self
                end c = getBlocksByCategory self c) as ->.
      { destruct (dirs !! category_name category) as [files|]; [|done].
        rewrite getBlocksByCategory_loadFiles, decide_False by done.
        by rewrite app_nil_r. }
      destruct (decide (c ∈ cats)) as [Hin|Hnin].
      * by rewrite (decide_True (P := c ∈ category :: cats)) by by right.
      * rewrite (decide_False (P := c ∈ category :: cats)); [done|].
        intros [->|?]%elem_of_cons; done.
Qed.

Lemma loadAllBlocks_category_aux
    (dirs : gmap string (list (string * option EmailBlock)))
    (self : t) (c : BlockCategory) :
  getBlocksByCategory (loadAllBlocks dirs self) c =
    getBlocksByCategory self c ++
      readable (filter (λ f, endsWith f.1 ".json")
                  (default [] (dirs !! category_name c))).
Proof.
  unfold loadAllBlocks. rewrite getBlocksByCategory_fold.
  - rewrite decide_True; [done|]. unfold categories.
    destruct c; repeat (first [by left|right]).
  - unfold categories. apply (bool_decide_unpack _). vm_compute. exact I.
Qed.

(** X15.  [loadAllBlocks] adds to the list of each category the blocks of
    the JSON files of its directory, in the order of the listing and up to
    the first file that cannot be read or parsed; a directory that cannot be
    listed adds nothing, and no directory bears on the list of another
    category. *)
Theorem loadAllBlocks_category
    (dirs : gmap string (list (string * option EmailBlock)))
    (self : t) (c : BlockCategory) :
  getBlocksByCategory (loadAllBlocks dirs self) c =
    getBlocksByCategory self c ++
      readable (filter (λ f, endsWith f.1 ".json")
                  (default [] (dirs !! category_name c))).
Proof. apply loadAllBlocks_category_aux. Qed.

Lemma blocks_store_other (category : BlockCategory) (block : EmailBlock)
    (self : t) (k : string) :
  block_id block ≠ k → blocks (store category block self) !! k = blocks self !! k.
Proof. intros H. unfold store. simpl. by rewrite lookup_insert_ne. Qed.

(** The cache after the files of a directory: the keys it has are those it
    had and the identifiers of the readable blocks. *)
Lemma blocks_loadFiles (category : BlockCategory)
    (files : list (string * option EmailBlock)) (self : t) (k : string) :
  is_Some (blocks (loadFiles category files self) !! k) ↔
  is_Some (blocks self !! k) ∨ k ∈ block_id <$> readable files.
Proof.
  revert self. induction files as [|[name [block|]] files IH]; intros self; simpl.
  - rewrite elem_of_nil. tauto.
  - rewrite IH. unfold store at 1. simpl. rewrite lookup_insert_is_Some'.
    rewrite elem_of_cons. split.
    + intros [[->|?]|?]; auto.
    + intros [?|[->|?]]; auto.
  - rewrite elem_of_nil. tauto.
Qed.

Lemma blocks_fold
    (dirs : gmap string (list (string * option EmailBlock)))
    (cats : list BlockCategory) (self : t) (k : string) :
  is_Some (blocks
    (foldl (λ self category,
              match dirs !! category_name category with
              | Some files =>
                  let jsonFiles := filter (λ f, endsWith f.1 ".json") files in
                  loadFiles category jsonFiles self
              | None => self
              end) self cats) !! k) ↔
  is_Some (blocks self !! k) ∨
  ∃ c, c ∈ cats ∧
       k ∈ block_id <$>
             readable (filter (λ f, endsWith f.1 ".json")
                         (default [] (dirs !! category_name c))).
Proof.
  revert self. induction cats as [|category cats IH]; intros self; simpl.
  - split; [by left|]. intros [?|(c & Hc & _)]; [done|].
    by apply elem_of_nil in Hc.
  - rewrite IH. split.
    + intros [Hk|(c & Hc & Hk)].
      * destruct (dirs !! category_name category) as [files|] eqn:Hd; [|by left].
        apply blocks_loadFiles in Hk as [?|Hk]; [by left|].
        right. exists category. split; [by left|]. by rewrite Hd.
      * right. exists c. split; [by right|done].
    + intros [Hk|(c & [->|Hc]%elem_of_cons & Hk)].
      * left. destruct (dirs !! category_name category); [|done].
        apply blocks_loadFiles. by left.
      * left. destruct (dirs !! category_name category) as [files|]; simpl in Hk.
        -- apply blocks_loadFiles. by right.
        -- by apply elem_of_nil in Hk.
      * right. by exists c.
Qed.

(** X16.  After [loadAllBlocks] on a new selector, the identifiers under
    which a block is cached are those of the blocks in the lists of the
    categories: every listed block can be loaded by its identifier without
    a file, and nothing else is cached. *)
Theorem loadAllBlocks_identifiers
    (dirs : gmap string (list (string * option EmailBlock))) (k : string) :
  is_Some (blocks (loadAllBlocks dirs new) !! k) ↔
  ∃ c block, block ∈ getBlocksByCategory (loadAllBlocks dirs new) c ∧
             block_id block = k.
Proof.
  unfold loadAllBlocks at 1. rewrite blocks_fold. split.
  - intros [[b Hb]|(c & _ & Hk)].
    { unfold new in Hb. cbn [blocks] in Hb. by rewrite lookup_empty in Hb. }
    apply list_elem_of_fmap in Hk as (block & -> & Hin).
    exists c, block. split; [|done].
    rewrite loadAllBlocks_category_aux. by apply elem_of_app; right.
  - intros (c & block & Hin & <-). right. exists c. split.
    + unfold categories. destruct c; repeat (first [by left|right]).
    + rewrite loadAllBlocks_category_aux in Hin.
      apply elem_of_app in Hin as [Hin|Hin].
      { unfold getBlocksByCategory, new in Hin. cbn [blocksByCategory] in Hin.
        rewrite lookup_empty in Hin. by apply elem_of_nil in Hin. }
      apply list_elem_of_fmap. by exists block.
Qed.

End directories.

(** ** Selecting after loading, and the random variant *)

Section loaded.
Import BlockSelector.

(** X17.  After [loadAllBlocks] on a new selector, a selector string that
    names no cached identifier and no file is resolved by tag to the first
    readable block of the directory of the category, in the order of the
    listing, that has the tag. *)
Theorem selectBlock_after_loadAllBlocks
    (dirs : gmap string (list (string * option EmailBlock)))
    (disk : gmap string EmailBlock) (category : BlockCategory)
    (selector : string) (variantId : option string) (block : EmailBlock) :
  let self := loadAllBlocks dirs new in
  let listed :=
    readable (filter (λ f, endsWith f.1 ".json")
                (default [] (dirs !! category_name category))) in
  blocks self !! (category_name category +:+ "/" +:+ selector) = None →
  disk !! (category_name category +:+ "/" +:+ selector) = None →
  first_such (λ b, selector ∈ block_tags b) listed block →
  block_variants block ≠ [] →
  fst <$> (selectBlock disk category selector variantId self).1 = Some block.
Proof.
  intros self listed Hcache Hdisk Hfirst Hvariants.
  rewrite selectBlock_matched.
  assert (loadBlock disk (category_name category +:+ "/" +:+ selector) self =
          (None, self)) as -> by (unfold loadBlock; by rewrite Hcache, Hdisk).
  cbn [fst snd].
  assert (getBlocksByCategory self category = listed) as Hlisted.
  { unfold self. rewrite loadAllBlocks_category_aux.
    unfold getBlocksByCategory, new. cbn [blocksByCategory].
    by rewrite lookup_empty. }
  rewrite (resolved_in_order_matched None _ selector block).
  - cbn [mbind option_bind].
    destruct (block_variants block) as [|v vs]; [done|].
    by destruct (variantId ≫= _).
  - right. left. split; [done|]. by rewrite Hlisted.
Qed.

Lemma selectBlock_after_loadAllBlocks_witness :
  blocks (loadAllBlocks
            {[ "cta" := [("notes.txt", None);
                         ("buy-ticket.json", Some Sample.cta_buy_ticket);
                         ("broken.json", None)] ]} new)
    !! (category_name Cta +:+ "/" +:+ "buy-ticket") = None ∧
  (∅ : gmap string EmailBlock) !! (category_name Cta +:+ "/" +:+ "buy-ticket") =
    None ∧
  first_such (λ b, "buy-ticket" ∈ block_tags b)
    (readable (filter (λ f, endsWith f.1 ".json")
                 (default []
                    (({[ "cta" := [("notes.txt", None);
                                   ("buy-ticket.json", Some Sample.cta_buy_ticket);
                                   ("broken.json", None)] ]}
                       : gmap string (list (string * option EmailBlock)))
                       !! category_name Cta))))
    Sample.cta_buy_ticket ∧
  block_variants Sample.cta_buy_ticket ≠ [] ∧
  fst <$> (selectBlock ∅ Cta "buy-ticket" None
             (loadAllBlocks
                {[ "cta" := [("notes.txt", None);
                             ("buy-ticket.json", Some Sample.cta_buy_ticket);
                             ("broken.json", None)] ]} new)).1 =
    Some Sample.cta_buy_ticket.
Proof.
  assert (first_such (λ b, "buy-ticket" ∈ block_tags b)
    (readable (filter (λ f, endsWith f.1 ".json")
                 (default []
                    (({[ "cta" := [("notes.txt", None);
                                   ("buy-ticket.json", Some Sample.cta_buy_ticket);
                                   ("broken.json", None)] ]}
                       : gmap string (list (string * option EmailBlock)))
                       !! category_name Cta))))
    Sample.cta_buy_ticket) as Hfirst.
  { exists [], []. split; [vm_compute; reflexivity|]. split; [|constructor].
    apply (bool_decide_unpack _). vm_compute. exact I. }
  split; [vm_compute; reflexivity|]. split; [reflexivity|].
  split; [exact Hfirst|]. split; [discriminate|].
  apply (selectBlock_after_loadAllBlocks
           {[ "cta" := [("notes.txt", None);
                        ("buy-ticket.json", Some Sample.cta_buy_ticket);
                        ("broken.json", None)] ]}
           ∅ Cta "buy-ticket" None Sample.cta_buy_ticket);
    [vm_compute; reflexivity|reflexivity|exact Hfirst|discriminate].
Defined.

End loaded.

(** ** The body as one substitution *)

Section body.
Import VariableSubstitution EmailComposer.

Lemma each_substituted (variables : gmap string JsValue)
    (options : EmailCompositionOptions.t) (l : list (EmailBlock * BlockVariant)) :
  each (substituted variables options) l =
    substituteBatch ((λ bv, variant_text bv.2) <$> l) variables
      (EmailCompositionOptions.substitution options).
Proof.
  induction l as [|bv l IH]; [done|]. cbn [each fmap list_fmap substituteBatch].
  unfold substituted at 1. by rewrite IH.
Qed.

(** X19.  The body of a composed email is what one substitution gives for
    the texts of the selected variants joined by blank lines, under the
    prepared variables and the options of the call, in whatever order the
    reads of the files end; and the metadata list the placeholders that this
    body still has. *)
Theorem composeEmail_body (disk : gmap string EmailBlock) (order : list nat)
    (contact : ContactData.t) (options : EmailCompositionOptions.t)
    (self : EmailComposer.t) (email : ComposedEmail.t) :
  (composeEmail disk order contact options self).1 = Ok email →
  let audienceConfig :=
    getAudienceConfig self (ContactData.audience_type contact) in
  let selected :=
    (selectBlocks disk order audienceConfig
       (BlockSelector.or_else (EmailCompositionOptions.tone options)
          (dot AudienceConfig.tone audienceConfig))
       options (blockSelector self)).1 in
  substitute
    (join (String "010" (String "010" ""))
       ((λ bv, variant_text bv.2) <$> picked selected))
    (prepareVariables self contact options)
    (EmailCompositionOptions.substitution options) =
    Ok (ComposedEmail.body email) ∧
  ComposedEmail.variables_used (ComposedEmail.metadata email) =
    extractPlaceholders (ComposedEmail.body email).
Proof.
  unfold getAudienceConfig. intros Hemail. cbv zeta.
  assert (read (audienceConfigs self) (ContactData.audience_type contact) ≠
            Undefined) as Hfound.
  { intros Hnone. by rewrite composeEmail_undefined in Hemail. }
  rewrite composeEmail_found in Hemail by done. cbn [fst] in Hemail.
  rewrite substitute_join_aux, <- each_substituted.
  destruct (each _ _) as [texts|]; simpl in Hemail; [|done].
  destruct (generateSubject _ _ _) as [subject|]; simpl in Hemail; [|done].
  injection Hemail as <-. done.
Qed.

Lemma composeEmail_body_witness :
  ∃ email,
    (composeEmail ∅ [] Sample.andreas EmailCompositionOptions.empty
       Sample.composer).1 = Ok email ∧
    let audienceConfig :=
      getAudienceConfig Sample.composer
        (ContactData.audience_type Sample.andreas) in
    let selected :=
      (selectBlocks ∅ [] audienceConfig
         (BlockSelector.or_else
            (EmailCompositionOptions.tone EmailCompositionOptions.empty)
            (dot AudienceConfig.tone audienceConfig))
         EmailCompositionOptions.empty (blockSelector Sample.composer)).1 in
    substitute
      (join (String "010" (String "010" ""))
         ((λ bv, variant_text bv.2) <$> picked selected))
      (prepareVariables Sample.composer Sample.andreas
         EmailCompositionOptions.empty)
      (EmailCompositionOptions.substitution EmailCompositionOptions.empty) =
      Ok (ComposedEmail.body email) ∧
    ComposedEmail.variables_used (ComposedEmail.metadata email) =
      extractPlaceholders (ComposedEmail.body email).
Proof.
  destruct (composeEmail ∅ [] Sample.andreas EmailCompositionOptions.empty
              Sample.composer).1 as [email|] eqn:Hemail;
    [|vm_compute in Hemail; discriminate].
  exists email. split; [reflexivity|].
  exact (composeEmail_body ∅ [] Sample.andreas EmailCompositionOptions.empty
           Sample.composer email Hemail).
Defined.

End body.

(** ** Batches of texts, and what a file load adds *)

Section more.
Import VariableSubstitution BlockSelector.

(** X20.  Outside strict mode, and when no variable is named
    [hasOwnProperty], [substituteBatch] returns one text for each text it is
    given, in order, each what [substitute] gives for it. *)
Theorem substituteBatch_lenient (texts : list string)
    (variables : gmap string JsValue) (options : SubstitutionOptions) :
  default false (strict options) = false →
  variables !! "hasOwnProperty" = None →
  ∃ outs,
    substituteBatch texts variables options = Ok outs ∧
    Forall2 (λ text out, substitute text variables options = Ok out) texts outs.
Proof.
  intros Hs Hown. induction texts as [|text texts (outs & IH & Hall)]; simpl.
  - exists []. by split.
  - destruct (substitute_lenient text variables options Hown Hs) as [out Hout].
    rewrite Hout, IH. simpl. exists (out :: outs). split; [done|].
    by constructor.
Qed.

Lemma substituteBatch_lenient_witness :
  default false (strict no_options) = false ∧
  ({[ "title" := JsString "Dr."; "last_name" := JsString "Mueller" ]}
     : gmap string JsValue) !! "hasOwnProperty" = None ∧
  ∃ outs,
    substituteBatch ["Dear {{title}} {{last_name}},"; "See you at {{venue}}"]
      {[ "title" := JsString "Dr."; "last_name" := JsString "Mueller" ]}
      no_options = Ok outs ∧
    Forall2
      (λ text out,
         substitute text
           {[ "title" := JsString "Dr."; "last_name" := JsString "Mueller" ]}
           no_options = Ok out)
      ["Dear {{title}} {{last_name}},"; "See you at {{venue}}"] outs.
Proof.
  assert (({[ "title" := JsString "Dr."; "last_name" := JsString "Mueller" ]}
             : gmap string JsValue) !! "hasOwnProperty" = None) as Hown
    by (vm_compute; reflexivity).
  split; [reflexivity|]. split; [exact Hown|].
  apply substituteBatch_lenient; [reflexivity|exact Hown].
Defined.

(** X21.  A block that [loadBlock] reads from its file is pushed on the
    list of the category that the block names, whatever the identifier it
    was asked under, and also when the list has the block already; the list
    of no other category changes. *)
Theorem loadBlock_from_file (disk : gmap string EmailBlock) (blockId : string)
    (self : BlockSelector.t) (block : EmailBlock) (c : BlockCategory) :
  blocks self !! blockId = None → disk !! blockId = Some block →
  let self' := (loadBlock disk blockId self).2 in
  (loadBlock disk blockId self).1 = Some block ∧
  getBlocksByCategory self' c =
    getBlocksByCategory self c ++
      (if decide (block_category block = c) then [block] else []).
Proof.
  intros Hcache Hdisk. unfold loadBlock. rewrite Hcache, Hdisk. simpl.
  split; [done|]. unfold getBlocksByCategory at 1. simpl.
  rewrite lookup_insert. case_decide as Hn.
  - apply category_name_inj in Hn as <-. by rewrite decide_True.
  - rewrite decide_False by congruence. by rewrite app_nil_r.
Qed.

Lemma loadBlock_from_file_witness :
  blocks Sample.selector !! "cta/buy-ticket" = None ∧
  ({[ "cta/buy-ticket" := Sample.cta_buy_ticket ]} : gmap string EmailBlock)
    !! "cta/buy-ticket" = Some Sample.cta_buy_ticket ∧
  (loadBlock {[ "cta/buy-ticket" := Sample.cta_buy_ticket ]} "cta/buy-ticket"
     Sample.selector).1 = Some Sample.cta_buy_ticket ∧
  getBlocksByCategory
    (loadBlock {[ "cta/buy-ticket" := Sample.cta_buy_ticket ]} "cta/buy-ticket"
       Sample.selector).2 Cta =
    getBlocksByCategory Sample.selector Cta ++
      (if decide (block_category Sample.cta_buy_ticket = Cta)
       then [Sample.cta_buy_ticket] else []).
Proof.
  split; [vm_compute; reflexivity|]. split; [vm_compute; reflexivity|].
  apply (loadBlock_from_file {[ "cta/buy-ticket" := Sample.cta_buy_ticket ]}
           "cta/buy-ticket" Sample.selector Sample.cta_buy_ticket Cta);
    vm_compute; reflexivity.
Defined.

End more.

(** ** Selectors of any value, and the reads under [Promise.all] *)

Section calls.
Import VariableSubstitution BlockSelector EmailComposer.

(** A call of [loadBlock] that misses the cache is the part of it that
    follows the read of the file. *)
Lemma loadBlock_miss (disk : gmap string EmailBlock) (blockId : string)
    (self : BlockSelector.t) :
  blocks self !! blockId = None →
  loadBlock disk blockId self = loadBlock_resumed disk blockId self.
Proof. intros H. unfold loadBlock, loadBlock_resumed. by rewrite H. Qed.

Lemma find_pointwise {A} (f g : A → bool) (l : list A) :
  (∀ x, f x = g x) → find f l = find g l.
Proof.
  intros H. induction l as [|x l IH]; [done|]. simpl. by rewrite H, IH.
Qed.

(** For a selector that is a string, [selectBlock_any] is [selectBlock]. *)
Lemma selectBlock_any_string (disk : gmap string EmailBlock)
    (category : BlockCategory) (selector : string) (variantId : option string)
    (self : BlockSelector.t) :
  selectBlock_any disk category (JsString selector) variantId self =
    selectBlock disk category selector variantId self.
Proof.
  unfold selectBlock_any, selectBlock, selectBlock_resumed. cbn [to_String].
  destruct (loadBlock _ _ _) as [block self'].
  rewrite (find_pointwise
             (λ b, bool_decide (JsString selector ∈ JsString <$> block_tags b))
             (λ b, bool_decide (selector ∈ block_tags b))).
  2:{ intros b. apply bool_decide_ext. rewrite list_elem_of_fmap. split.
      - by intros (s & [= ->] & ?).
      - intros ?. by exists selector. }
  rewrite (find_pointwise
             (λ b, bool_decide (of_optional (tone_name <$> block_tone b) =
                                  JsString selector))
             (λ b, bool_decide (tone_name <$> block_tone b = Some selector))).
  2:{ intros b. apply bool_decide_ext.
      destruct (block_tone b); simpl; split; congruence. }
  by destruct (or_else (or_else block _) _).
Qed.

(** The order in which the reads of the files end shows in the email.  The
    investors have the value propositions [deal-flow] and [networking]; the
    directory has a file for the first only, whose block is tagged
    [networking].  When the read of that file ends first, the second call
    finds the block by its tag, and the body has its text twice; when the
    failing read ends first, the second call finds nothing. *)
Example reads_end_in_order :
  ComposedEmail.body <$>
    match (composeEmail Sample.files [0; 1] Sample.andreas
             EmailCompositionOptions.empty Sample.composer).1 with
    | Ok email => Some email
    | Throw _ => None
    end =
  Some ("Dear Dr. Mueller," +:+ String "010" (String "010" "")
        +:+ "Meet biotech startups before their first round."
        +:+ String "010" (String "010" "")
        +:+ "Meet biotech startups before their first round."
        +:+ String "010" (String "010" "")
        +:+ "Get your ticket: https://synbioreactor.org/tickets").
Proof. vm_compute. reflexivity. Qed.

Example reads_end_out_of_order :
  ComposedEmail.body <$>
    match (composeEmail Sample.files [1; 0] Sample.andreas
             EmailCompositionOptions.empty Sample.composer).1 with
    | Ok email => Some email
    | Throw _ => None
    end =
  Some ("Dear Dr. Mueller," +:+ String "010" (String "010" "")
        +:+ "Meet biotech startups before their first round."
        +:+ String "010" (String "010" "")
        +:+ "Get your ticket: https://synbioreactor.org/tickets").
Proof. vm_compute. reflexivity. Qed.

(** Two calls for one file both miss the cache, and the block of the file
    is pushed on the list of its category twice. *)
Example same_file_twice :
  let selected :=
    selectEach Sample.files [] ValueProposition ["deal-flow"; "deal-flow"]
      Sample.selector in
  getBlocksByCategory selected.2 ValueProposition =
    [Sample.value_deal_flow; Sample.value_deal_flow].
Proof. vm_compute. reflexivity. Qed.

(** The product of the draw and the length is rounded: for the draw
    0.8333333333333333, the number below 5/6, and six variants it is 5, and
    the variant is the last. *)
Example getRandomVariant_rounds :
  variant_id <$>
    getRandomVariant (S754_finite false 7505999378950826 (-53))
      Sample.six_variants =
    Some "f".
Proof. vm_compute. reflexivity. Qed.

(** X22.  [substitute] token by token.  A text without a token is
    returned as it is.  And when no variable is named [hasOwnProperty], the
    result for a text with an occurrence of a token [{{name}}] is the
    substituted text before the occurrence, then what stands for the token,
    then the substituted text after it: the stringified value when the
    variables have [name] with a value other than [null] and [undefined];
    nothing when they have it with [null] or [undefined]; and when they lack
    it, in strict mode the error that names it, which ends the whole
    substitution, and outside strict mode nothing, or the token itself under
    [keepPlaceholders]. *)
Theorem substitute_token_by_token (variables : gmap string JsValue)
    (options : SubstitutionOptions) :
  (∀ text, extractPlaceholders text = [] →
     substitute text variables options = Ok text) ∧
  (variables !! "hasOwnProperty" = None →
   ∀ pre name post, is_identifier name = true →
     substitute (pre +:+ "{{" +:+ name +:+ "}}" +:+ post) variables options =
       try! before := substitute pre variables options in
       try! value :=
         match variables !! name with
         | Some JsNull | Some JsUndefined => Ok ""
         | Some value => Ok (to_String value)
         | None =>
             if default false (strict options)
             then Throw (MissingVariable name)
             else if default false (keepPlaceholders options)
                  then Ok ("{{" +:+ name +:+ "}}")
                  else Ok ""
         end in
       try! after := substitute post variables options in
       Ok (before +:+ value +:+ after)).
Proof.
  split.
  - intros text. apply substitute_without_placeholders.
  - intros Hown pre name post. by apply substitute_token.
Qed.

Lemma substitute_token_by_token_witness :
  ({[ "first_name" := JsString "Ada" ]} : gmap string JsValue)
    !! "hasOwnProperty" = None ∧
  is_identifier "first_name" = true ∧
  substitute ("Dear " +:+ "{{" +:+ "first_name" +:+ "}}" +:+ ", {{x}}")
    {[ "first_name" := JsString "Ada" ]} no_options =
    try! before := substitute "Dear " {[ "first_name" := JsString "Ada" ]} no_options in
    try! value :=
      match ({[ "first_name" := JsString "Ada" ]} : gmap string JsValue) !! "first_name" with
      | Some JsNull | Some JsUndefined => Ok ""
      | Some value => Ok (to_String value)
      | None =>
          if default false (strict no_options)
          then Throw (MissingVariable "first_name")
          else if default false (keepPlaceholders no_options)
               then Ok ("{{" +:+ "first_name" +:+ "}}")
               else Ok ""
      end in
    try! after := substitute ", {{x}}" {[ "first_name" := JsString "Ada" ]} no_options in
    Ok (before +:+ value +:+ after).
Proof.
  assert (({[ "first_name" := JsString "Ada" ]} : gmap string JsValue)
            !! "hasOwnProperty" = None) as Hown by (vm_compute; reflexivity).
  split; [exact Hown|]. split; [reflexivity|].
  apply (proj2 (substitute_token_by_token {[ "first_name" := JsString "Ada" ]}
                  no_options) Hown "Dear " "first_name" ", {{x}}").
  reflexivity.
Defined.

(** X23.  For a contact whose audience type the configuration has no entry
    for, and which is not the name of a property that every object inherits,
    [composeEmail] throws the unknown-audience error, whatever the other
    fields of the contact and the options are, and leaves the composer as it
    is. *)
Theorem composeEmail_rejects_unknown (disk : gmap string EmailBlock)
    (order : list nat) (contact : ContactData.t)
    (options : EmailCompositionOptions.t) (self : EmailComposer.t) :
  audienceConfigs self !! ContactData.audience_type contact = None →
  ContactData.audience_type contact ∉ prototype_names →
  composeEmail disk order contact options self =
    (Throw (UnknownAudience (ContactData.audience_type contact)), self).
Proof.
  intros Hnone Hname. apply composeEmail_undefined. by apply read_Undefined.
Qed.

Lemma composeEmail_rejects_unknown_witness :
  audienceConfigs Sample.composer !! ContactData.audience_type Sample.stranger =
    None ∧
  (ContactData.audience_type Sample.stranger ∉ prototype_names) ∧
  composeEmail ∅ [] Sample.stranger EmailCompositionOptions.empty
    Sample.composer =
    (Throw (UnknownAudience (ContactData.audience_type Sample.stranger)),
     Sample.composer).
Proof.
  assert (ContactData.audience_type Sample.stranger ∉ prototype_names) as Hname
    by (apply (bool_decide_unpack _); vm_compute; exact I).
  split; [vm_compute; reflexivity|]. split; [exact Hname|].
  apply composeEmail_rejects_unknown; [vm_compute; reflexivity|exact Hname].
Defined.

(** With the block that [loadBlock] returned, [selectBlock] makes no
    search. *)
Lemma selectBlock_resumed_loaded (category : BlockCategory)
    (selector : JsValue) (block : EmailBlock) (self : BlockSelector.t) :
  selectBlock_resumed category selector None (Some block) self =
    (λ variant, (block, variant)) <$> head (block_variants block).
Proof.
  unfold selectBlock_resumed. simpl. by destruct (head (block_variants block)).
Qed.

Lemma settle_resolves_directly (disk : gmap string EmailBlock)
    (category : BlockCategory) (s : string) (block : EmailBlock)
    (order : list nat) (calls : list call) (self : BlockSelector.t) (i : nat) :
  resolves_directly disk category s block calls i →
  resolves_directly disk category s block
    (foldl (settle disk category) (calls, self) order).1 i.
Proof.
  revert calls self. induction order as [|j order IH]; intros calls self H;
    [done|].
  simpl. destruct (calls !! j) as [[r|s']|] eqn:Hj; try by apply IH.
  destruct (resume disk category s' self) as [result self1] eqn:Hresume.
  apply IH. destruct (decide (i = j)) as [->|Hne].
  - left. destruct H as [H|[H Hdisk]]; [congruence|].
    assert (s' = s) as -> by congruence.
    revert Hresume. unfold resume, loadBlock_resumed. rewrite Hdisk.
    intros [= <- _]. rewrite selectBlock_resumed_loaded.
    apply list_lookup_insert_eq. apply (lookup_lt_Some _ _ _ Hj).
  - destruct H as [H|[H Hdisk]]; [left|right; split; [|done]];
      by rewrite list_lookup_insert_ne.
Qed.

Lemma settleAll_resolves_directly (disk : gmap string EmailBlock)
    (category : BlockCategory) (s : string) (block : EmailBlock)
    (calls : list call) (self : BlockSelector.t) (i : nat) :
  resolves_directly disk category s block calls i →
  (settleAll disk category calls self).1 !! i =
    Some ((λ variant, (block, variant)) <$> head (block_variants block)).
Proof.
  revert self i. induction calls as [|c calls IH]; intros self i H.
  - by destruct H as [H|[H _]].
  - destruct i as [|i].
    + destruct H as [H|[H Hdisk]]; simpl in H; injection H as ->; simpl.
      * by destruct (settleAll _ _ calls self).
      * destruct (resume disk category s self) as [result self1] eqn:Hresume.
        revert Hresume. unfold resume, loadBlock_resumed. rewrite Hdisk.
        intros [= <- _]. rewrite selectBlock_resumed_loaded.
        by destruct (settleAll _ _ calls _).
    + assert (resolves_directly disk category s block calls i) as H'
        by (destruct H as [H|[H Hdisk]]; [by left|by right]).
      destruct c as [r|s']; simpl.
      * specialize (IH self i H').
        by destruct (settleAll _ _ calls self).
      * destruct (resume disk category s' self) as [result self1].
        specialize (IH self1 i H').
        by destruct (settleAll _ _ calls self1).
Qed.

(** X24.  Under [Promise.all], the result of a call whose block
    [loadBlock] finds by its identifier, in the cache or in a file, is that
    block with its first variant, in whatever order the reads of the files
    end: the order bears on the calls that search by tag and by tone
    only. *)
Theorem selectEach_direct (disk : gmap string EmailBlock) (order : list nat)
    (category : BlockCategory) (selectors : list string)
    (self : BlockSelector.t) (i : nat) (s : string) (block : EmailBlock) :
  selectors !! i = Some s →
  (loadBlock disk (category_name category +:+ "/" +:+ s) self).1 = Some block →
  (selectEach disk order category selectors self).1 !! i =
    Some ((λ variant, (block, variant)) <$> head (block_variants block)).
Proof.
  intros Hi Hload. unfold selectEach.
  pose proof (settle_resolves_directly disk category s block order
                (start category self <$> selectors) self i) as H.
  destruct (foldl _ _ order) as [calls self1].
  apply (settleAll_resolves_directly disk category s), H. clear H.
  unfold resolves_directly. rewrite list_lookup_fmap, Hi. simpl.
  revert Hload. unfold loadBlock, start.
  destruct (blocks self !! _) as [b|].
  - intros [= ->]. left. by rewrite selectBlock_resumed_loaded.
  - destruct (disk !! _) as [b|] eqn:Hdisk; [|done]. intros [= ->]. by right.
Qed.

Lemma selectEach_direct_witness :
  ["deal-flow"; "networking"] !! 0 = Some "deal-flow" ∧
  (loadBlock Sample.files (category_name ValueProposition +:+ "/" +:+ "deal-flow")
     Sample.selector).1 = Some Sample.value_deal_flow ∧
  (selectEach Sample.files [1; 0] ValueProposition ["deal-flow"; "networking"]
     Sample.selector).1 !! 0 =
    Some ((λ variant, (Sample.value_deal_flow, variant)) <$>
            head (block_variants Sample.value_deal_flow)).
Proof.
  split; [reflexivity|]. split; [vm_compute; reflexivity|].
  apply (selectEach_direct Sample.files [1; 0] ValueProposition
           ["deal-flow"; "networking"] Sample.selector 0 "deal-flow");
    [reflexivity|vm_compute; reflexivity].
Defined.

End calls.
